(** * PID-Controller-With-FPGA: the C/C++ models, embedded and verified

    A shallow embedding of

    - [Code/SW Driver/app.c]                      (coefficient derivation),
    - [Code/Simulation/C++ Model/PID_MY_DIGIT.cpp]     (step-rounded model),
    - [Code/Simulation/C++ Model/pid_compare.cpp]      (plain-expression model),
    - [Code/Simulation/C++ Model/pid_last_compare.cpp] (golden-trace harness).

    Floating point is modelled bit-exactly with the standard library's
    [SpecFloat]: [float] is IEEE-754 binary32 (precision 24, emax 128) and
    [double] is binary64 (precision 53, emax 1024), both rounding to nearest
    even, every source operation rounded on its own.  NaN carries no payload.
    [long] is the 64-bit signed integer of an LP64 target, [int] the 32-bit
    one. *)

From Stdlib Require Import ZArith Bool List Lia.
From Stdlib Require Import QArith Qabs Qpower Lqa.
From Stdlib Require Import Floats.SpecFloat.
Import ListNotations.
Open Scope Z_scope.

(* ================================================================== *)
(** * Floating-point layer, generic in the format *)
(* ================================================================== *)

Section IEEE.
Variables prec emax : Z.

(** [std::isnan]. *)
Definition is_nan (x : spec_float) : bool :=
  match x with S754_nan => true | _ => false end.

(** [std::isinf]. *)
Definition is_inf (x : spec_float) : bool :=
  match x with S754_infinity _ => true | _ => false end.

(** [std::isfinite]: a zero, a subnormal or a normal number. *)
Definition is_finite (x : spec_float) : bool :=
  match x with S754_zero _ | S754_finite _ _ _ => true | _ => false end.

(** A zero of either sign. *)
Definition is_zero (x : spec_float) : bool :=
  match x with S754_zero _ => true | _ => false end.

(** Conversion of an integer to the format ([(float)n], decimal integer
    literals): one rounding to nearest even. *)
Definition of_Z (z : Z) : spec_float := binary_normalize prec emax z 0 false.

(** Conversion of a value of another (wider) format: [(float)d]. *)
Definition of_wider (x : spec_float) : spec_float :=
  match x with
  | S754_finite s m e => binary_round prec emax s m e
  | _ => x
  end.

(** [fma(x, y, z)]: the product is exact, the sum is rounded once.  For
    finite non-zero factors the exact product is the unrounded triple
    [(sx xor sy, mx * my, ex + ey)], which [SFadd] aligns with [z] and rounds
    once; with [z] a zero the result is the rounded product.  When one
    factor is a zero, an infinity or a NaN the product is computed without
    error by [SFmul], so the ordinary sum already is the fused one. *)
Definition SFfma (x y z : spec_float) : spec_float :=
  match x, y with
  | S754_finite sx mx ex, S754_finite sy my ey =>
      match z with
      | S754_zero _ => SFmul prec emax x y
      | _ => SFadd prec emax
               (S754_finite (xorb sx sy) (Pos.mul mx my) (Z.add ex ey)) z
      end
  | _, _ => SFadd prec emax (SFmul prec emax x y) z
  end.

(** [std::floor]: the largest integral value not above [x], in the same
    format; zeros, infinities and NaN are returned unchanged. *)
Definition SFfloor (x : spec_float) : spec_float :=
  match x with
  | S754_finite s m e =>
      if 0 <=? e then x
      else
        let q := Z.div (cond_Zopp s (Zpos m)) (Z.pow 2 (Z.opp e)) in
        match q with
        | Z0 => S754_zero s
        | _ => binary_normalize prec emax q 0 s
        end
  | _ => x
  end.

(** The integer obtained by discarding the fractional part (conversion of
    a floating value to an integer type, before the range check). *)
Definition trunc_Z (x : spec_float) : option Z :=
  match x with
  | S754_zero _ => Some 0
  | S754_finite s m e =>
      Some (cond_Zopp s
              (if 0 <=? e then Z.mul (Zpos m) (Z.pow 2 e)
               else Z.div (Zpos m) (Z.pow 2 (Z.opp e))))
  | _ => None
  end.
End IEEE.

(* ------------------------------------------------------------------ *)
(** ** Integer types *)

Definition LONG_MIN : Z := - 2 ^ 63.
Definition LONG_MAX : Z := 2 ^ 63 - 1.
Definition INT_MIN : Z := - 2 ^ 31.
Definition INT_MAX : Z := 2 ^ 31 - 1.

Definition in_long (z : Z) : bool := (LONG_MIN <=? z) && (z <=? LONG_MAX).
Definition in_int (z : Z) : bool := (INT_MIN <=? z) && (z <=? INT_MAX).

(** [(int)l] for a [long] [l]: the value modulo 2^32, read as signed. *)
Definition long_to_int (l : Z) : Z := (l + 2 ^ 31) mod 2 ^ 32 - 2 ^ 31.

(** [a - b] on [long]: signed overflow is undefined behaviour. *)
Definition long_sub (a b : Z) : option Z :=
  let d := a - b in if in_long d then Some d else None.

(* ------------------------------------------------------------------ *)
(** ** binary32 ([float]) *)

Module F32.
Definition prec : Z := 24.
Definition emax : Z := 128.
Definition t := spec_float.

Definition zero : t := S754_zero false.
Definition add : t -> t -> t := SFadd prec emax.
Definition sub : t -> t -> t := SFsub prec emax.
Definition mul : t -> t -> t := SFmul prec emax.
Definition div : t -> t -> t := SFdiv prec emax.
Definition neg : t -> t := SFopp.
Definition fabs : t -> t := SFabs.
Definition ltb : t -> t -> bool := SFltb.
Definition leb : t -> t -> bool := SFleb.
Definition fmaf : t -> t -> t -> t := SFfma prec emax.
Definition floor : t -> t := SFfloor prec emax.
Definition of_int : Z -> t := of_Z prec emax.
Definition of_double : spec_float -> t := of_wider prec emax.

(** A decimal literal [n/d] with [n] and [d] exact in the format: the
    correctly rounded quotient is the literal's value. *)
Definition lit (n d : Z) : t := div (of_int n) (of_int d).

(** [(long)x]: undefined unless the truncated value fits. *)
Definition to_long (x : t) : option Z :=
  match trunc_Z x with
  | Some z => if in_long z then Some z else None
  | None => None
  end.
End F32.

(** ** binary64 ([double]) *)

Module F64.
Definition prec : Z := 53.
Definition emax : Z := 1024.
Definition t := spec_float.

Definition zero : t := S754_zero false.
Definition add : t -> t -> t := SFadd prec emax.
Definition sub : t -> t -> t := SFsub prec emax.
Definition mul : t -> t -> t := SFmul prec emax.
Definition div : t -> t -> t := SFdiv prec emax.
Definition neg : t -> t := SFopp.
Definition ltb : t -> t -> bool := SFltb.
Definition of_int : Z -> t := of_Z prec emax.
Definition lit (n d : Z) : t := div (of_int n) (of_int d).
End F64.

(* ================================================================== *)
(** * Constants shared by the three simulation files *)
(* ================================================================== *)

(** [f32_from_hex]: the [memcpy] of a 32-bit pattern into a [float]. *)
Definition f32_from_hex (u : Z) : F32.t :=
  let s := Z.testbit u 31 in
  let e := Z.land (Z.shiftr u 23) 0xFF in
  let m := Z.land u 0x7FFFFF in
  if e =? 0xFF then (if m =? 0 then S754_infinity s else S754_nan)
  else if e =? 0 then
    match m with
    | Zpos p => S754_finite s p (-149)
    | _ => S754_zero s
    end
  else
    match Z.lor m 0x800000 with
    | Zpos p => S754_finite s p (e - 150)
    | _ => S754_nan
    end.

Definition C0  : F32.t := Eval cbv in f32_from_hex 0x3C864B8B.
Definition C1  : F32.t := Eval cbv in f32_from_hex 0x3DE21965.
Definition C2  : F32.t := Eval cbv in f32_from_hex 0xBDE4FC8E.
Definition C3  : F32.t := Eval cbv in f32_from_hex 0x3AEC5C01.
Definition C4  : F32.t := Eval cbv in f32_from_hex 0xBEA75178.
Definition C5  : F32.t := Eval cbv in f32_from_hex 0x3F0B6AB1.
Definition C6  : F32.t := Eval cbv in f32_from_hex 0xBE5F6EF6.
Definition C7A : F32.t := Eval cbv in f32_from_hex 0x3B9D4952.
Definition C7B : F32.t := Eval cbv in f32_from_hex 0xB8A505D6.

Definition YSAT       : F32.t := Eval cbv in f32_from_hex 0x41400000.
Definition RECIP_YSAT : F32.t := Eval cbv in f32_from_hex 0x3DAAAAAB.
Definition W_TGT      : F32.t := Eval cbv in f32_from_hex 0x42C80000.
Definition INT2RADS   : F32.t := Eval cbv in f32_from_hex 0x3F70CAF0.

(** [std::clamp(v, lo, hi)]: [(v < lo) ? lo : (hi < v) ? hi : v]. *)
Definition clamp (v lo hi : F32.t) : F32.t :=
  if F32.ltb v lo then lo else if F32.ltb hi v then hi else v.

(** The helpers that force one rounding per operation. *)
Definition mul_rn (a b : F32.t) : F32.t := F32.mul a b.
Definition add_rn (a b : F32.t) : F32.t := F32.add a b.

(* ================================================================== *)
(** * The delta-form controller state ([class DeltaPid2TapAw]) *)
(* ================================================================== *)

Record DeltaPid2TapAw : Type := mkDeltaPid {
  YSAT_ : F32.t;
  dy1 : F32.t;
  w1 : F32.t;  w2 : F32.t;
  x1 : F32.t;  x2 : F32.t;
  y_unsat_1 : F32.t;  y_unsat_2 : F32.t;
  y_sat_1 : F32.t;    y_sat_2 : F32.t
}.

(** Assignments to the individual members. *)
Definition set_dy1 (s : DeltaPid2TapAw) (v : F32.t) :=
  mkDeltaPid (YSAT_ s) v (w1 s) (w2 s) (x1 s) (x2 s)
             (y_unsat_1 s) (y_unsat_2 s) (y_sat_1 s) (y_sat_2 s).
Definition set_w1 (s : DeltaPid2TapAw) (v : F32.t) :=
  mkDeltaPid (YSAT_ s) (dy1 s) v (w2 s) (x1 s) (x2 s)
             (y_unsat_1 s) (y_unsat_2 s) (y_sat_1 s) (y_sat_2 s).
Definition set_w2 (s : DeltaPid2TapAw) (v : F32.t) :=
  mkDeltaPid (YSAT_ s) (dy1 s) (w1 s) v (x1 s) (x2 s)
             (y_unsat_1 s) (y_unsat_2 s) (y_sat_1 s) (y_sat_2 s).
Definition set_x1 (s : DeltaPid2TapAw) (v : F32.t) :=
  mkDeltaPid (YSAT_ s) (dy1 s) (w1 s) (w2 s) v (x2 s)
             (y_unsat_1 s) (y_unsat_2 s) (y_sat_1 s) (y_sat_2 s).
Definition set_x2 (s : DeltaPid2TapAw) (v : F32.t) :=
  mkDeltaPid (YSAT_ s) (dy1 s) (w1 s) (w2 s) (x1 s) v
             (y_unsat_1 s) (y_unsat_2 s) (y_sat_1 s) (y_sat_2 s).
Definition set_y_unsat_1 (s : DeltaPid2TapAw) (v : F32.t) :=
  mkDeltaPid (YSAT_ s) (dy1 s) (w1 s) (w2 s) (x1 s) (x2 s)
             v (y_unsat_2 s) (y_sat_1 s) (y_sat_2 s).
Definition set_y_unsat_2 (s : DeltaPid2TapAw) (v : F32.t) :=
  mkDeltaPid (YSAT_ s) (dy1 s) (w1 s) (w2 s) (x1 s) (x2 s)
             (y_unsat_1 s) v (y_sat_1 s) (y_sat_2 s).
Definition set_y_sat_1 (s : DeltaPid2TapAw) (v : F32.t) :=
  mkDeltaPid (YSAT_ s) (dy1 s) (w1 s) (w2 s) (x1 s) (x2 s)
             (y_unsat_1 s) (y_unsat_2 s) v (y_sat_2 s).
Definition set_y_sat_2 (s : DeltaPid2TapAw) (v : F32.t) :=
  mkDeltaPid (YSAT_ s) (dy1 s) (w1 s) (w2 s) (x1 s) (x2 s)
             (y_unsat_1 s) (y_unsat_2 s) (y_sat_1 s) v.

(** [reset()]: the same body in the three files.  [w1 = w2 = 0.0f] assigns
    [w2] first and then [w1]. *)
Definition reset (s : DeltaPid2TapAw) : DeltaPid2TapAw :=
  let s := set_dy1 s F32.zero in
  let s := set_w2 s F32.zero in
  let s := set_w1 s (w2 s) in
  let s := set_x2 s F32.zero in
  let s := set_x1 s (x2 s) in
  let s := set_y_unsat_1 s F32.zero in
  let s := set_y_unsat_2 s F32.zero in
  let s := set_y_sat_1 s F32.zero in
  let s := set_y_sat_2 s F32.zero in
  s.

(** The constructor [DeltaPid2TapAw(y_sat_limit)]: the limit is stored and
    [reset()] is called on the otherwise uninitialised members. *)
Definition new_DeltaPid2TapAw (y_sat_limit : F32.t) : DeltaPid2TapAw :=
  reset (mkDeltaPid y_sat_limit F32.zero F32.zero F32.zero F32.zero F32.zero
                    F32.zero F32.zero F32.zero F32.zero).

(** The history shift at the end of [step], in the source's order. *)
Definition shift_histories (s : DeltaPid2TapAw) (w x dy y_unsat y_sat : F32.t)
  : DeltaPid2TapAw :=
  let s := set_dy1 s dy in
  let s := set_w2 s (w1 s) in
  let s := set_w1 s w in
  let s := set_x2 s (x1 s) in
  let s := set_x1 s x in
  let s := set_y_unsat_2 s (y_unsat_1 s) in
  let s := set_y_unsat_1 s y_unsat in
  let s := set_y_sat_2 s (y_sat_1 s) in
  let s := set_y_sat_1 s y_sat in
  s.

(** ** [PID_MY_DIGIT.cpp]: accumulation through [mul_rn]/[add_rn] *)

Module PidMyDigit.
Definition step (s : DeltaPid2TapAw) (w x : F32.t) : F32.t * DeltaPid2TapAw :=
  let e_sat_1 := add_rn (y_sat_1 s) (F32.neg (y_unsat_1 s)) in
  let e_sat_2 := add_rn (y_sat_2 s) (F32.neg (y_unsat_2 s)) in
  let acc := F32.zero in
  let acc := add_rn acc (mul_rn C0 (dy1 s)) in
  let acc := add_rn acc (mul_rn C1 w) in
  let acc := add_rn acc (mul_rn C2 (w1 s)) in
  let acc := add_rn acc (mul_rn C3 (w2 s)) in
  let acc := add_rn acc (mul_rn C4 x) in
  let acc := add_rn acc (mul_rn C5 (x1 s)) in
  let acc := add_rn acc (mul_rn C6 (x2 s)) in
  let acc := add_rn acc (mul_rn C7A e_sat_1) in
  let acc := add_rn acc (mul_rn C7B e_sat_2) in
  let dy := acc in
  let y_unsat := add_rn (y_unsat_1 s) dy in
  let y_sat := clamp y_unsat (F32.neg (YSAT_ s)) (YSAT_ s) in
  (y_sat, shift_histories s w x dy y_unsat y_sat).
End PidMyDigit.

(** ** [pid_compare.cpp]: [dy] as one arithmetic expression *)

Module PidCompare.
Definition step (s : DeltaPid2TapAw) (w x : F32.t) : F32.t * DeltaPid2TapAw :=
  let e_sat_1 := F32.sub (y_sat_1 s) (y_unsat_1 s) in
  let e_sat_2 := F32.sub (y_sat_2 s) (y_unsat_2 s) in
  let dy :=
    F32.add (F32.add (F32.add (F32.add (F32.add (F32.add (F32.add (F32.add
      (F32.mul C0 (dy1 s))
      (F32.mul C1 w)) (F32.mul C2 (w1 s))) (F32.mul C3 (w2 s)))
      (F32.mul C4 x)) (F32.mul C5 (x1 s))) (F32.mul C6 (x2 s)))
      (F32.mul C7A e_sat_1)) (F32.mul C7B e_sat_2) in
  let y_unsat := F32.add (y_unsat_1 s) dy in
  let y_sat := clamp y_unsat (F32.neg (YSAT_ s)) (YSAT_ s) in
  (y_sat, shift_histories s w x dy y_unsat y_sat).
End PidCompare.

(** ** [pid_last_compare.cpp]: the step-rounded controller again *)

Module PidLastCompare.
Definition step (s : DeltaPid2TapAw) (w x : F32.t) : F32.t * DeltaPid2TapAw :=
  let e_sat_1 := add_rn (y_sat_1 s) (F32.neg (y_unsat_1 s)) in
  let e_sat_2 := add_rn (y_sat_2 s) (F32.neg (y_unsat_2 s)) in
  let acc := F32.zero in
  let acc := add_rn acc (mul_rn C0 (dy1 s)) in
  let acc := add_rn acc (mul_rn C1 w) in
  let acc := add_rn acc (mul_rn C2 (w1 s)) in
  let acc := add_rn acc (mul_rn C3 (w2 s)) in
  let acc := add_rn acc (mul_rn C4 x) in
  let acc := add_rn acc (mul_rn C5 (x1 s)) in
  let acc := add_rn acc (mul_rn C6 (x2 s)) in
  let acc := add_rn acc (mul_rn C7A e_sat_1) in
  let acc := add_rn acc (mul_rn C7B e_sat_2) in
  let dy := acc in
  let y_unsat := add_rn (y_unsat_1 s) dy in
  let y_sat := clamp y_unsat (F32.neg (YSAT_ s)) (YSAT_ s) in
  (y_sat, shift_histories s w x dy y_unsat y_sat).
End PidLastCompare.

(* ================================================================== *)
(** * The encoder model ([struct EncoderFloor]) *)
(* ================================================================== *)

(** Undefined behaviour (a [float] outside the range of [long], signed
    overflow) is the failure of the [option] monad. *)
Definition bind {A B : Type} (m : option A) (k : A -> option B) : option B :=
  match m with Some a => k a | None => None end.

Notation "'do' x <- m ; k" := (bind m (fun x => k))
  (at level 10, x name, m at level 100, k at level 200).

Record EncoderFloor : Type := mkEncoder {
  Ts : F32.t;
  rad_per_cnt : F32.t;
  int2radfac : F32.t;
  theta_rad : F32.t;
  C_prev : Z
}.

Definition set_theta_rad (e : EncoderFloor) (v : F32.t) :=
  mkEncoder (Ts e) (rad_per_cnt e) (int2radfac e) v (C_prev e).
Definition set_C_prev (e : EncoderFloor) (v : Z) :=
  mkEncoder (Ts e) (rad_per_cnt e) (int2radfac e) (theta_rad e) v.

(** What one [sample] call hands back through its reference parameters. *)
Record Sample : Type := mkSample {
  enc' : EncoderFloor;
  spdcnt : Z;
  x_meas : F32.t
}.

(** The part of [sample] after the angle update, identical in the three
    files up to the use of [mul_rn]. *)
Definition quantize (e : EncoderFloor) : option Sample :=
  let C_real := F32.div (theta_rad e) (rad_per_cnt e) in
  do C_now <- F32.to_long (F32.floor C_real);
  do d <- long_sub C_now (C_prev e);
  let spdcnt := long_to_int d in
  let e := set_C_prev e C_now in
  let x_meas := mul_rn (F32.of_int spdcnt) (int2radfac e) in
  Some (mkSample e spdcnt x_meas).

Module EncMyDigit.
(** [EncoderFloor(Ts_)] of [PID_MY_DIGIT.cpp]. *)
Definition new_EncoderFloor (Ts_ : F32.t) : EncoderFloor :=
  let int2radfac := INT2RADS in
  let rad_per_cnt := mul_rn int2radfac Ts_ in
  mkEncoder Ts_ rad_per_cnt int2radfac F32.zero 0.

(** [theta_rad = std::fmaf(x_true, Ts, theta_rad);] and the rest. *)
Definition sample (e : EncoderFloor) (x_true : F32.t) : option Sample :=
  let e := set_theta_rad e (F32.fmaf x_true (Ts e) (theta_rad e)) in
  quantize e.
End EncMyDigit.

Module EncLastCompare.
(** [EncoderFloor(Ts_)] of [pid_last_compare.cpp]. *)
Definition new_EncoderFloor (Ts_ : F32.t) : EncoderFloor :=
  let int2radfac := INT2RADS in
  let rad_per_cnt := mul_rn int2radfac Ts_ in
  mkEncoder Ts_ rad_per_cnt int2radfac F32.zero 0.

(** [theta_rad = std::fmaf(x_true, Ts, theta_rad);] and the rest. *)
Definition sample (e : EncoderFloor) (x_true : F32.t) : option Sample :=
  let e := set_theta_rad e (F32.fmaf x_true (Ts e) (theta_rad e)) in
  quantize e.
End EncLastCompare.

Module EncCompare.
(** [EncoderFloor(Ts_)] of [pid_compare.cpp]. *)
Definition new_EncoderFloor (Ts_ : F32.t) : EncoderFloor :=
  let e := mkEncoder Ts_ F32.zero INT2RADS F32.zero 0 in
  mkEncoder (Ts e) (F32.mul (int2radfac e) (Ts e)) (int2radfac e)
            (theta_rad e) (C_prev e).

(** [theta_rad += x_true * Ts;] and the rest. *)
Definition sample (e : EncoderFloor) (x_true : F32.t) : option Sample :=
  let e := set_theta_rad e (F32.add (theta_rad e) (F32.mul x_true (Ts e))) in
  quantize e.
End EncCompare.

(** Consecutive [sample] calls on the true velocities [xs]; the result is
    what each call handed back, in call order. *)
Fixpoint run_samples (sample : EncoderFloor -> F32.t -> option Sample)
         (e : EncoderFloor) (xs : list F32.t) : option (list Sample) :=
  match xs with
  | [] => Some []
  | x :: xs' =>
      do r <- sample e x;
      do rest <- run_samples sample (enc' r) xs';
      Some (r :: rest)
  end.

(** The encoder after a run: the one of the last sample. *)
Fixpoint final_enc (e : EncoderFloor) (tr : list Sample) : EncoderFloor :=
  match tr with
  | [] => e
  | r :: tr' => final_enc (enc' r) tr'
  end.

(** [(long)std::floor(theta_rad / rad_per_cnt)] for the current angle. *)
Definition count_of (e : EncoderFloor) : option Z :=
  F32.to_long (F32.floor (F32.div (theta_rad e) (rad_per_cnt e))).

Definition sumZ (l : list Z) : Z := fold_right Z.add 0 l.

(* ================================================================== *)
(** * Coefficient derivation ([app.c]) *)
(* ================================================================== *)

Module App.
Definition GATE_HZ : Z := 200.
(** [#define Ts_sec (1.0/(double)(GATE_HZ))]. *)
Definition Ts_sec : F64.t := F64.div (F64.of_int 1) (F64.of_int GATE_HZ).

Definition d0 : F64.t := F64.zero.
Definition d1 : F64.t := F64.of_int 1.
Definition d2 : F64.t := F64.of_int 2.
Definition d1e30 : F64.t := F64.of_int (10 ^ 30).
Definition d1e20 : F64.t := F64.of_int (10 ^ 20).

(** [a > b] on doubles is [b < a]. *)
Definition gt (a b : F64.t) : bool := F64.ltb b a.

(** [compute_time_constants]: the three out-parameters as a triple. *)
Definition compute_time_constants (Kp Ki Kd N : F64.t) : F64.t * F64.t * F64.t :=
  let Ti := if gt Ki d0 && gt Kp d0 then F64.div Kp Ki else d1e30 in
  let Td := if gt Kp d0 then F64.div Kd Kp else d0 in
  let a  := if gt N d0 then F64.div d1 N else d0 in
  (Ti, Td, a).

(** The nine coefficients, in double and in single precision. *)
Record Coeffs : Type := mkCoeffs {
  a0 : spec_float; c1 : spec_float; c2 : spec_float; c3 : spec_float;
  c4 : spec_float; c5 : spec_float; c6 : spec_float;
  c7a : spec_float; c7b : spec_float
}.

(** [const double den = Ts + a*Td;] *)
Definition den_of (Td a : F64.t) : F64.t := F64.add Ts_sec (F64.mul a Td).

(** [const double Ts_over_Ti = (Ti < 1e20) ? (Ts/Ti) : 0;] *)
Definition Ts_over_Ti_of (Ti : F64.t) : F64.t :=
  if F64.ltb Ti d1e20 then F64.div Ts_sec Ti else d0.

Local Infix "+" := F64.add.
Local Infix "*" := F64.mul.
Local Infix "/" := F64.div.
Local Notation "- x" := (F64.neg x).

(** The body of [compute_coeffs] up to the stores: the doubles [C0] ..
    [C7B] of the source. *)
Definition coeffs_double (Kp Ki Kd N b c Kb : F64.t) : Coeffs :=
  let Ts := Ts_sec in
  let '(Ti, Td, a) := compute_time_constants Kp Ki Kd N in
  let den := den_of Td a in
  let Ts_over_Ti := Ts_over_Ti_of Ti in
  let C0 := if gt den d0 then (a * Td) / den else d0 in
  let C1 := Kp * (b + Ts_over_Ti + (Td * c) / den) in
  let C2 := - Kp * (b * (Ts + d2 * a * Td)
                    + (a * Td * Ts_over_Ti)
                    + (d2 * Td * c)) / den in
  let C3 := (Kp * Td * (a * b + c)) / den in
  let C4 := - Kp * (d1 + Ts_over_Ti + (Td / den)) in
  let C5 := Kp * (Ts + d2 * a * Td
                  + (a * Td * Ts_over_Ti)
                  + (d2 * Td)) / den in
  let C6 := - Kp * (Td * (a + d1)) / den in
  let C7A := Ki * Kb * Ts in
  let C7B := - C7A * C0 in
  mkCoeffs C0 C1 C2 C3 C4 C5 C6 C7A C7B.

(** The stores [*a0 = (float)C0; ...] *)
Definition to_single (k : Coeffs) : Coeffs :=
  mkCoeffs (F32.of_double (a0 k)) (F32.of_double (c1 k)) (F32.of_double (c2 k))
           (F32.of_double (c3 k)) (F32.of_double (c4 k)) (F32.of_double (c5 k))
           (F32.of_double (c6 k)) (F32.of_double (c7a k)) (F32.of_double (c7b k)).

Definition compute_coeffs (Kp Ki Kd N b c Kb : F64.t) : Coeffs :=
  to_single (coeffs_double Kp Ki Kd N b c Kb).

(** The nine coefficients as a list. *)
Definition coeff_list (k : Coeffs) : list spec_float :=
  [a0 k; c1 k; c2 k; c3 k; c4 k; c5 k; c6 k; c7a k; c7b k].
End App.

(* ================================================================== *)
(** * The validation harnesses *)
(* ================================================================== *)

(** Literals common to the [main] functions. *)
Definition Ts_0_005 : F32.t := Eval cbv in F32.lit 5 1000.   (* 0.005f *)
Definition Ku : F32.t := Eval cbv in F32.of_int 50.          (* 50.0f *)
Definition lam : F32.t := Eval cbv in F32.of_int 5.          (* 5.0f *)
Definition tol_1e_3 : F32.t := Eval cbv in F32.lit 1 1000.   (* 1e-3f *)
Definition f_1e_12 : F32.t := Eval cbv in f32_from_hex 0x2B8CBCCC. (* 1e-12f *)

(** ** [PID_MY_DIGIT.cpp]: the closed-loop table *)

Module MyDigit.
Definition STEPS : nat := 200.
Definition f_100 : F32.t := Eval cbv in F32.of_int 100.      (* 100.0f *)

(** One printed table row. *)
Record Row : Type := mkRow {
  row_t : F32.t;
  row_w : F32.t;
  row_x_true : F32.t;
  row_x_meas : F32.t;
  row_spdcnt : Z;
  row_y : F32.t;
  row_duty : F32.t
}.

(** [duty = mul_rn(mul_rn(std::fabs(y), RECIP_YSAT), 100.0f)]. *)
Definition duty_of (y : F32.t) : F32.t :=
  mul_rn (mul_rn (F32.fabs y) RECIP_YSAT) f_100.

(** The loop [for (n = 0; n <= STEPS; ++n)] of [main], from iteration [n]
    on, [k] iterations. *)
Fixpoint simulate (k : nat) (n : Z) (ctrl : DeltaPid2TapAw) (enc : EncoderFloor)
         (x_true : F32.t) : option (list Row) :=
  match k with
  | O => Some []
  | S k' =>
      let t := F32.mul (F32.of_int n) Ts_0_005 in
      do r <- EncMyDigit.sample enc x_true;
      let '(y, ctrl) := PidMyDigit.step ctrl W_TGT (x_meas r) in
      let duty := duty_of y in
      let row := mkRow t W_TGT x_true (x_meas r) (spdcnt r) y duty in
      let x_true :=
        add_rn x_true
               (mul_rn Ts_0_005
                       (add_rn (mul_rn Ku y) (F32.neg (mul_rn lam x_true)))) in
      do rest <- simulate k' (n + 1) ctrl (enc' r) x_true;
      Some (row :: rest)
  end.

(** [main]: the printed rows and the exit status. *)
Definition main : option (list Row * Z) :=
  do rows <- simulate (S STEPS) 0 (new_DeltaPid2TapAw YSAT)
                      (EncMyDigit.new_EncoderFloor Ts_0_005) F32.zero;
  Some (rows, 0).
End MyDigit.

(** ** [pid_last_compare.cpp]: controller against a golden trace *)

Module LastCompare.
Definition STEPS : nat := 100.

(** The simulation loop [for (n = 0; n <= STEPS; ++n)]; the list is
    [y_sim] in push order. *)
Fixpoint simulate (k : nat) (ctrl : DeltaPid2TapAw) (enc : EncoderFloor)
         (x_true : F32.t) : option (list F32.t) :=
  match k with
  | O => Some []
  | S k' =>
      do r <- EncLastCompare.sample enc x_true;
      let '(y, ctrl) := PidLastCompare.step ctrl W_TGT (x_meas r) in
      let x_true :=
        add_rn x_true
               (mul_rn Ts_0_005
                       (add_rn (mul_rn Ku y) (F32.neg (mul_rn lam x_true)))) in
      do rest <- simulate k' ctrl (enc' r) x_true;
      Some (y :: rest)
  end.

Definition y_sim : option (list F32.t) :=
  simulate (S STEPS) (new_DeltaPid2TapAw YSAT)
           (EncLastCompare.new_EncoderFloor Ts_0_005) F32.zero.

(** The counters of the comparison loop. *)
Record Tally : Type := mkTally {
  pass : Z;
  fail : Z;
  max_err : F32.t;
  max_i : Z
}.

(** [for (i = 0; i < N; ++i)] with [N = min(y_ref.size(), y_sim.size())]:
    the loop runs over the common prefix of the two vectors. *)
Fixpoint compare_from (i : Z) (sim ref : list F32.t) (t : Tally) : Tally :=
  match sim, ref with
  | s :: sim', r :: ref' =>
      let err := F32.fabs (F32.sub s r) in
      let t :=
        if F32.leb err tol_1e_3 then
          mkTally (pass t + 1) (fail t) (max_err t) (max_i t)
        else
          let t := mkTally (pass t) (fail t + 1) (max_err t) (max_i t) in
          if F32.ltb (max_err t) err
          then mkTally (pass t) (fail t) err i
          else t in
      compare_from (i + 1) sim' ref' t
  | _, _ => t
  end.

Definition compare (sim ref : list F32.t) : Tally :=
  compare_from 0 sim ref (mkTally 0 0 F32.zero (-1)).

(** [main]: [y_ref] is what [read_y_txt] returned (empty when the file is
    missing or holds no number); the result is the tally printed in the
    summary line and the process exit status. *)
Definition main (y_ref : list F32.t) : option (option Tally * Z) :=
  do sim <- y_sim;
  match y_ref with
  | [] => Some (None, 1)
  | _ => let t := compare sim y_ref in Some (Some t, 0)
  end.
End LastCompare.

(** ** [pid_compare.cpp]: delta-form controller against the general PID *)

Module Compare.
Record GeneralPidControllerF32 : Type := mkGeneral {
  Kp : F32.t; Ki : F32.t; Kd : F32.t;
  a_param : F32.t; b_weight : F32.t; c_weight : F32.t;
  Kb : F32.t;
  dt : F32.t; output_min : F32.t; output_max : F32.t;
  integral_term : F32.t;
  derivative_term_prev : F32.t;
  setpoint_prev : F32.t; measurement_prev : F32.t;
  unsaturated_output_prev : F32.t; saturated_output_prev : F32.t
}.

(** [std::min(a, b)] is [(b < a) ? b : a]; [std::max(a, b)] is
    [(a < b) ? b : a]. *)
Definition fmin (a b : F32.t) : F32.t := if F32.ltb b a then b else a.
Definition fmax (a b : F32.t) : F32.t := if F32.ltb a b then b else a.

Local Infix "+" := F32.add.
Local Infix "-" := F32.sub.
Local Infix "*" := F32.mul.
Local Infix "/" := F32.div.

Definition new_General (kp ki kd a b c kb dt out_min out_max : F32.t) :=
  mkGeneral kp ki kd a b c kb dt out_min out_max
            F32.zero F32.zero F32.zero F32.zero F32.zero F32.zero.

Definition calculate (g : GeneralPidControllerF32) (setpoint measurement : F32.t)
  : F32.t * GeneralPidControllerF32 :=
  let error := setpoint - measurement in
  let p_term := Kp g * (b_weight g * setpoint - measurement) in
  let Td := if F32.ltb f_1e_12 (Kp g) then Kd g / Kp g else F32.zero in
  let common_denominator := a_param g * Td + dt g in
  let coeff_feedback := (a_param g * Td) / common_denominator in
  let coeff_gain := (Kp g * Td) / common_denominator in
  let derivative_input_change :=
    (c_weight g * (setpoint - setpoint_prev g))
    - (measurement - measurement_prev g) in
  let d_term := coeff_feedback * derivative_term_prev g
                + coeff_gain * derivative_input_change in
  let saturation_error :=
    saturated_output_prev g - unsaturated_output_prev g in
  let integral_term :=
    integral_term g + Ki g * (error + Kb g * saturation_error) * dt g in
  let unsaturated_output := p_term + integral_term + d_term in
  let saturated_output :=
    fmax (output_min g) (fmin unsaturated_output (output_max g)) in
  (saturated_output,
   mkGeneral (Kp g) (Ki g) (Kd g) (a_param g) (b_weight g) (c_weight g)
             (Kb g) (dt g) (output_min g) (output_max g)
             integral_term d_term setpoint measurement
             unsaturated_output saturated_output).

(** One printed table row; [row_ok] is the absence of the mismatch mark. *)
Record Row : Type := mkRow {
  row_n : Z;
  row_y_g : F32.t; row_y_d : F32.t;
  row_abs_err : F32.t; row_rel_err : F32.t;
  row_ok : bool
}.

(** The variables that live across the iterations of [main]'s loop. *)
Record Loop : Type := mkLoop {
  pid_general : GeneralPidControllerF32;
  pid_delta : DeltaPid2TapAw;
  enc : EncoderFloor;
  x_true : F32.t;
  max_abs_err : F32.t; max_rel_err : F32.t; max_err_n : Z;
  mismatch_cnt : Z
}.

Definition ABS_TOL : F32.t := tol_1e_3.
Definition REL_TOL : F32.t := tol_1e_3.

(** The body of [for (n = 0; n < SAMPLES; ++n)]. *)
Definition iteration (n : Z) (l : Loop) : option (Row * Loop) :=
  do r <- EncCompare.sample (enc l) (x_true l);
  let '(y_g, pg) := calculate (pid_general l) W_TGT (x_meas r) in
  let '(y_d, pd) := PidCompare.step (pid_delta l) W_TGT (x_meas r) in
  let abs_err := F32.fabs (y_g - y_d) in
  let denom := fmax f_1e_12 (F32.fabs y_d) in
  let rel_err := abs_err / denom in
  let '(ma, mr, mn) :=
    if F32.ltb (max_abs_err l) abs_err then (abs_err, rel_err, n)
    else (max_abs_err l, max_rel_err l, max_err_n l) in
  let ok := F32.leb abs_err ABS_TOL || F32.leb rel_err REL_TOL in
  let cnt := if negb ok then (mismatch_cnt l + 1)%Z else mismatch_cnt l in
  let x_true := x_true l + Ts_0_005 * (Ku * y_d - lam * x_true l) in
  Some (mkRow n y_g y_d abs_err rel_err ok,
        mkLoop pg pd (enc' r) x_true ma mr mn cnt).

Fixpoint loop (k : nat) (n : Z) (l : Loop) : option (list Row * Loop) :=
  match k with
  | O => Some ([], l)
  | S k' =>
      do it <- iteration n l;
      do rest <- loop k' (n + 1)%Z (snd it);
      Some (fst it :: fst rest, snd rest)
  end.

Definition SAMPLES : nat := 100.

Definition init : Loop :=
  let Kp := F32.lit 11 100 in
  let Ki := F32.lit 8 100 in
  let TD := F32.lit 10 1000 in
  let Kd := Kp * TD in
  let N := F32.of_int 120 in
  let a := F32.of_int 1 / N in
  let b := F32.of_int 1 in
  let c := F32.zero in
  let Kb := F32.of_int 12 in
  let UMIN := F32.neg YSAT in
  let UMAX := YSAT in
  mkLoop (new_General Kp Ki Kd a b c Kb Ts_0_005 UMIN UMAX)
         (new_DeltaPid2TapAw YSAT)
         (EncCompare.new_EncoderFloor Ts_0_005)
         F32.zero F32.zero F32.zero (-1) 0.

(** Exit status from the final mismatch count. *)
Definition exit_status (l : Loop) : Z :=
  if (mismatch_cnt l =? 0)%Z then 0%Z else 1%Z.

(** [main]: the printed rows and the exit status. *)
Definition main : option (list Row * Z) :=
  do r <- loop SAMPLES 0 init;
  Some (fst r, exit_status (snd r)).
End Compare.

(* ================================================================== *)
(** * The driver's helpers ([app.c]) *)
(* ================================================================== *)

Module AppDriver.
(** [f2u]: the 32-bit pattern of a [float], read through the union.  A NaN
    has no payload here and is given the pattern of the default quiet
    NaN. *)
Definition f2u (x : F32.t) : Z :=
  match x with
  | S754_zero s => if s then 0x80000000 else 0
  | S754_infinity s => if s then 0xFF800000 else 0x7F800000
  | S754_nan => 0x7FC00000
  | S754_finite s m e =>
      let sign := if s then Z.shiftl 1 31 else 0 in
      if Zpos m <? 0x800000 then Z.lor sign (Zpos m)
      else Z.lor sign
                 (Z.lor (Z.shiftl (e + 150) 23) (Z.land (Zpos m) 0x7FFFFF))
  end.

(** [u2f]: the [float] with a given 32-bit pattern. *)
Definition u2f (u : Z) : F32.t := f32_from_hex u.

(** [#define TWO_PI (6.28318530717958647692)]: the double nearest to the
    decimal literal. *)
Definition TWO_PI : F64.t :=
  Eval cbv in
    SFdiv 53 1024 (S754_finite false 628318530717958647692 0)
                  (S754_finite false (10 ^ 20) 0).

(** [rpm_to_radps]: [rpm * (float)(TWO_PI/60.0)]. *)
Definition rpm_to_radps (rpm : F32.t) : F32.t :=
  F32.mul rpm (F32.of_double (F64.div TWO_PI (F64.of_int 60))).

(** [(int16_t)v] for [v] in [0, 65535]: the value modulo 2^16, read as
    signed. *)
Definition to_int16 (v : Z) : Z := (v + 2 ^ 15) mod 2 ^ 16 - 2 ^ 15.

(** The monitoring loop's [sp = (int16_t)(raw & 0xFFFF)]. *)
Definition status_spdcnt (raw : Z) : Z := to_int16 (Z.land raw 0xFFFF).

(** [isprint] in the "C" locale, the one in force when no [setlocale] call
    is made. *)
Definition isprint (ch : Z) : bool := (0x20 <=? ch) && (ch <=? 0x7E).

(** What [read_line_echo] leaves behind: the characters stored in [buf]
    before the terminator (the return value is their number), what was
    written to the terminal, and the input not yet read. *)
Record Line : Type := mkLine {
  text : list Z;
  echoed : list Z;
  remaining : list Z
}.

(** The [for (;;)] loop of [read_line_echo] over the characters that
    [getchar] delivers; [buf] holds the [n] characters stored so far.  When
    the input ends without a line terminator the loop does not return. *)
Fixpoint read_line_loop (maxlen : Z) (buf out input : list Z) : option Line :=
  match input with
  | [] => None
  | ch :: input' =>
      let n := Z.of_nat (length buf) in
      if (ch =? 13) || (ch =? 10) then
        Some (mkLine buf (out ++ [13; 10]) input')
      else if (ch =? 8) || (ch =? 127) then
        if 0 <? n
        then read_line_loop maxlen (removelast buf) (out ++ [8; 32; 8]) input'
        else read_line_loop maxlen buf out input'
      else if isprint ch then
        if n <? maxlen - 1
        then read_line_loop maxlen (buf ++ [ch]) (out ++ [ch]) input'
        else read_line_loop maxlen buf out input'
      else read_line_loop maxlen buf out input'
  end.

Definition read_line_echo (maxlen : Z) (input : list Z) : option Line :=
  read_line_loop maxlen [] [] input.

Section AskDouble.
(** [strtod] of the C library, as far as [ask_double] looks at it: the
    converted value, or nothing when no conversion was made
    ([endp == line]). *)
Variable strtod : list Z -> option F64.t.

(** [ask_double]: lines are read into [char line[128]] until one is not
    empty and converts; the value and the unread input are returned.  Each
    turn reads at least the line terminator, so [fuel] turns suffice for an
    input of [fuel] characters. *)
Fixpoint ask_double_turns (fuel : nat) (input : list Z)
  : option (F64.t * list Z) :=
  match fuel with
  | O => None
  | S fuel' =>
      match read_line_echo 128 input with
      | None => None
      | Some l =>
          if Z.of_nat (length (text l)) <=? 0
          then ask_double_turns fuel' (remaining l)
          else match strtod (text l) with
               | Some v => Some (v, remaining l)
               | None => ask_double_turns fuel' (remaining l)
               end
      end
  end.

Definition ask_double (input : list Z) : option (F64.t * list Z) :=
  ask_double_turns (S (length input)) input.
End AskDouble.
End AppDriver.

(* ================================================================== *)
(** * Specification-side definitions and the concrete inputs used below *)
(* ================================================================== *)

(** The nine weighted terms of the recurrence, in the order of the control
    law, with [e_sat = y_sat - y_unsat] for the two previous cycles. *)
Definition nine_terms (s : DeltaPid2TapAw) (w x : F32.t) : list F32.t :=
  let e_sat_1 := F32.sub (y_sat_1 s) (y_unsat_1 s) in
  let e_sat_2 := F32.sub (y_sat_2 s) (y_unsat_2 s) in
  [ F32.mul C0 (dy1 s);
    F32.mul C1 w; F32.mul C2 (w1 s); F32.mul C3 (w2 s);
    F32.mul C4 x; F32.mul C5 (x1 s); F32.mul C6 (x2 s);
    F32.mul C7A e_sat_1; F32.mul C7B e_sat_2 ].

(** Serial accumulation onto an accumulator that starts at [init]. *)
Definition accumulate (init : F32.t) (ts : list F32.t) : F32.t :=
  fold_left F32.add ts init.

(** The left-to-right sum [t1 + t2 + ... + tn] of a C expression. *)
Definition sum_in_order (ts : list F32.t) : F32.t :=
  match ts with
  | [] => F32.zero
  | t :: r => accumulate t r
  end.

(** What [step] has to produce once [dy] is known: the new accumulator, its
    clamped value, and every two-deep history shifted by one. *)
Definition step_result (dy : F32.t) (s : DeltaPid2TapAw) (w x : F32.t)
  : F32.t * DeltaPid2TapAw :=
  let y_unsat := F32.add (y_unsat_1 s) dy in
  let y_sat := clamp y_unsat (F32.neg (YSAT_ s)) (YSAT_ s) in
  (y_sat,
   {| YSAT_ := YSAT_ s;
      dy1 := dy;
      w1 := w;  w2 := w1 s;
      x1 := x;  x2 := x1 s;
      y_unsat_1 := y_unsat;  y_unsat_2 := y_unsat_1 s;
      y_sat_1 := y_sat;      y_sat_2 := y_sat_1 s |}).

(** [-Y <= y <= Y]. *)
Definition in_range (y Y : F32.t) : bool :=
  F32.leb (F32.neg Y) y && F32.leb y Y.

(** The bound on a stored saturated output that [step] does preserve. *)
Definition bounded_or_nan (y Y : F32.t) : bool := is_nan y || in_range y Y.

Definition sat_histories_ok (s : DeltaPid2TapAw) : Prop :=
  bounded_or_nan (y_sat_1 s) (YSAT_ s) = true /\
  bounded_or_nan (y_sat_2 s) (YSAT_ s) = true.

(** The precondition of [std::clamp(v, -Y, Y)]: the lower bound is not above
    the upper one (and the bounds are numbers). *)
Definition limit_ok (Y : F32.t) : Prop := F32.leb (F32.neg Y) Y = true.

(** Negative zero, the one value that [0.0f + t] does not return unchanged. *)
Definition is_neg_zero (x : F32.t) : bool :=
  match x with S754_zero true => true | _ => false end.

(** No emitted count of a run was reduced modulo 2^32: every difference
    [C_now - C_prev] fitted into [int]. *)
Fixpoint no_wrap (c : Z) (tr : list Sample) : bool :=
  match tr with
  | [] => true
  | r :: tr' => in_int (C_prev (enc' r) - c) && no_wrap (C_prev (enc' r)) tr'
  end.

(** After every sample of a run the stored count is the floor of the angle
    divided by [rad_per_cnt]. *)
Definition synced (e : EncoderFloor) : Prop := count_of e = Some (C_prev e).

(** The saturation contract of one [step] call of the controller [stp]:
    [y_unsat] is the accumulator that the call stores in [y_unsat_1]. *)
Definition saturates
  (stp : DeltaPid2TapAw -> F32.t -> F32.t -> F32.t * DeltaPid2TapAw)
  (s : DeltaPid2TapAw) (w x : F32.t) : Prop :=
  let y := fst (stp s w x) in
  let s' := snd (stp s w x) in
  let Y := YSAT_ s in
  let y_unsat := y_unsat_1 s' in
  YSAT_ s' = Y /\ y_sat_1 s' = y /\ y_sat_2 s' = y_sat_1 s /\
  (is_nan y_unsat = false -> in_range y Y = true) /\
  (is_nan y_unsat = true -> is_nan y = true) /\
  (F32.ltb Y y_unsat = true -> y = Y) /\
  (F32.ltb y_unsat (F32.neg Y) = true -> y = F32.neg Y) /\
  (sat_histories_ok s -> sat_histories_ok s').

(** The encoder of [pid_compare.cpp] after one sample at 3 rad/s. *)
Definition enc_after_3 : EncoderFloor :=
  match EncCompare.sample (EncCompare.new_EncoderFloor Ts_0_005)
                          (F32.of_int 3) with
  | Some r => enc' r
  | None => EncCompare.new_EncoderFloor Ts_0_005
  end.

(** The states a control loop can be in: the constructed controller, and
    whatever [step] and [reset] calls make of it. *)
Inductive reachable
  (stp : DeltaPid2TapAw -> F32.t -> F32.t -> F32.t * DeltaPid2TapAw)
  (Y : F32.t) : DeltaPid2TapAw -> Prop :=
| reach_new : reachable stp Y (new_DeltaPid2TapAw Y)
| reach_step (s : DeltaPid2TapAw) (w x : F32.t) :
    reachable stp Y s -> reachable stp Y (snd (stp s w x))
| reach_reset (s : DeltaPid2TapAw) :
    reachable stp Y s -> reachable stp Y (reset s).

(** The stored saturated output is the clamp of the stored accumulator. *)
Definition clamp_stored (s : DeltaPid2TapAw) : Prop :=
  y_sat_1 s = clamp (y_unsat_1 s) (F32.neg (YSAT_ s)) (YSAT_ s).

(** The outputs of a controller driven by a sequence of [(w, x)] inputs. *)
Fixpoint run_steps
  (stp : DeltaPid2TapAw -> F32.t -> F32.t -> F32.t * DeltaPid2TapAw)
  (s : DeltaPid2TapAw) (inputs : list (F32.t * F32.t)) : list F32.t :=
  match inputs with
  | [] => []
  | (w, x) :: rest =>
      let '(y, s') := stp s w x in y :: run_steps stp s' rest
  end.

(** Concrete values. *)
Definition FLT_MAX : F32.t := Eval cbv in f32_from_hex 0x7F7FFFFF.
Definition neg_zero : F32.t := S754_zero true.
Definition neg_denorm_min : F32.t := Eval cbv in f32_from_hex 0x80000001.
Definition f_1000 : F32.t := Eval cbv in F32.of_int 1000.
Definition f_2p32 : F32.t := Eval cbv in F32.of_int (2 ^ 32).
Definition f_3 : F32.t := Eval cbv in F32.of_int 3.
Definition f_7 : F32.t := Eval cbv in F32.of_int 7.

(** A state in which every one of the nine products is a negative zero for
    the inputs [(-0.0, +0.0)]. *)
Definition all_neg_zero_state : DeltaPid2TapAw :=
  {| YSAT_ := YSAT;
     dy1 := neg_zero;
     w1 := F32.zero;  w2 := neg_zero;
     x1 := neg_zero;  x2 := F32.zero;
     y_unsat_1 := neg_zero;  y_unsat_2 := F32.zero;
     y_sat_1 := neg_denorm_min;  y_sat_2 := F32.zero |}.

(** The state reached from the constructor by [step(FLT_MAX, -FLT_MAX)]
    followed by [step(-FLT_MAX, FLT_MAX)]. *)
Definition overflowed_state : DeltaPid2TapAw :=
  let s := new_DeltaPid2TapAw YSAT in
  let s := snd (PidMyDigit.step s FLT_MAX (F32.neg FLT_MAX)) in
  snd (PidMyDigit.step s (F32.neg FLT_MAX) FLT_MAX).

(** Tunings, as the doubles that [strtod] returns for the typed text. *)
Module Tuning.
(** Kp=0.11 Ki=0.08 Kd=0.0011 N=120 b=1 c=0, the representative tuning. *)
Definition Kp : F64.t := Eval cbv in F64.lit 11 100.
Definition Ki : F64.t := Eval cbv in F64.lit 8 100.
Definition Kd : F64.t := Eval cbv in F64.lit 11 10000.
Definition N : F64.t := Eval cbv in F64.of_int 120.
Definition one : F64.t := Eval cbv in F64.of_int 1.
Definition twelve : F64.t := Eval cbv in F64.of_int 12.
(** "-0.005" *)
Definition m0_005 : F64.t := Eval cbv in F64.lit (-5) 1000.
(** "340282366920938463463374607431768211456", that is 2^128 *)
Definition two_128 : F64.t := Eval cbv in F64.of_int (2 ^ 128).
(** "1.1125369292536007e-308", that is 2^-1023 *)
Definition two_m1023 : F64.t :=
  Eval cbv in F64.div (F64.of_int 1) (F64.of_int (2 ^ 1023)).
End Tuning.

(** ** Used in the statements about the driver and the harnesses *)

(** The 32-bit pattern with sign bit [s], exponent field [E] and fraction
    field [f]. *)
Definition pattern (s : bool) (E f : Z) : Z :=
  (if s then 1 else 0) * 2 ^ 31 + E * 2 ^ 23 + f.

(** [std::signbit(x) == s] for an [x] that is not a NaN. *)
Definition signbit_is (s : bool) (x : spec_float) : bool :=
  match x with
  | S754_zero s' | S754_infinity s' | S754_finite s' _ _ => Bool.eqb s s'
  | S754_nan => false
  end.

(** The characters that end a line and those that erase. *)
Definition is_newline (ch : Z) : bool := (ch =? 13) || (ch =? 10).
Definition is_erase (ch : Z) : bool := (ch =? 8) || (ch =? 127).

(** [|sim - ref|] of one compared pair of [pid_last_compare.cpp] and the
    tolerance test on it. *)
Definition err_of (p : F32.t * F32.t) : F32.t :=
  F32.fabs (F32.sub (fst p) (snd p)).
Definition within_tol (p : F32.t * F32.t) : bool :=
  F32.leb (err_of p) tol_1e_3.

(** ** Used in the statements about the coefficient derivation *)

(** Magnitudes.  [below M x]: [x] is a zero or a number with [|x| < 2^M]. *)
Definition below (M : Z) (x : spec_float) : bool :=
  match x with
  | S754_zero _ => true
  | S754_finite _ m e => Zpos (digits2_pos m) + e <=? M
  | _ => false
  end.

(** [above L x]: [x] is a number with [2^(L-1) <= |x|]. *)
Definition above (L : Z) (x : spec_float) : bool :=
  match x with
  | S754_finite _ m e => L <=? Zpos (digits2_pos m) + e
  | _ => false
  end.

(** [moderate K x]: [x] is a zero or a number with
    [2^(-K-1) <= |x| < 2^K]. *)
Definition moderate (K : Z) (x : spec_float) : bool :=
  is_zero x || (above (- K) x && below K x).

(** [0.0 <= x]: a zero of either sign, a positive number or +infinity. *)
Definition nonneg (x : spec_float) : bool := SFleb (S754_zero false) x.

(** The rational value of a number; 0 for the values that are not
    numbers. *)
Definition F2Q (x : spec_float) : Q :=
  match x with
  | S754_finite s m e => (inject_Z (cond_Zopp s (Zpos m)) * 2 ^ e)%Q
  | _ => 0%Q
  end.


(* ================================================================== *)
(** * Properties of the floating-point layer *)
(* ================================================================== *)

Section IEEE_facts.
Variables prec emax : Z.

(** [x + (-y)] and [x - y] are the same operation, signed zeros and
    special values included. *)
Lemma SFadd_opp_sub (x y : spec_float) :
  SFadd prec emax x (SFopp y) = SFsub prec emax x y.
Proof.
  destruct x as [sx|sx| |sx mx ex], y as [sy|sy| |sy my ey];
    try reflexivity; destruct sx, sy; reflexivity.
Qed.

(** Adding to negative zero returns the other operand. *)
Lemma SFadd_neg_zero_l (t : spec_float) :
  SFadd prec emax (S754_zero true) t = t.
Proof. destruct t as [[]|[]| |]; reflexivity. Qed.

(** Adding to positive zero returns the other operand, negative zero
    excepted. *)
Lemma SFadd_pos_zero_l (t : spec_float) :
  t <> S754_zero true -> SFadd prec emax (S754_zero false) t = t.
Proof. destruct t as [[]|[]| |]; intros H; try reflexivity; now elim H. Qed.

Lemma SFadd_pos_zero_neg_zero :
  SFadd prec emax (S754_zero false) (S754_zero true) = S754_zero false.
Proof. reflexivity. Qed.

(** Comparison is antisymmetric. *)
Lemma SFcompare_antisym (x y : spec_float) :
  SFcompare y x = option_map CompOpp (SFcompare x y).
Proof.
  destruct x as [sx|sx| |sx mx ex], y as [sy|sy| |sy my ey];
    try reflexivity; try (destruct sx; reflexivity);
    try (destruct sy; reflexivity); try (destruct sx, sy; reflexivity).
  simpl. destruct sx, sy; simpl; try reflexivity.
  - rewrite (Z.compare_antisym ey ex).
    destruct (ey ?= ex)%Z eqn:E; simpl; try reflexivity.
    change (Pos.compare_cont Eq my mx) with (my ?= mx)%positive.
    change (Pos.compare_cont Eq mx my) with (mx ?= my)%positive.
    rewrite (Pos.compare_antisym my mx).
    now destruct (my ?= mx)%positive.
  - rewrite (Z.compare_antisym ey ex).
    destruct (ey ?= ex)%Z eqn:E; simpl; try reflexivity.
    change (Pos.compare_cont Eq my mx) with (my ?= mx)%positive.
    change (Pos.compare_cont Eq mx my) with (mx ?= my)%positive.
    rewrite (Pos.compare_antisym my mx).
    now destruct (my ?= mx)%positive.
Qed.

(** Every number compares equal to itself. *)
Lemma SFcompare_refl (x : spec_float) :
  is_nan x = false -> SFcompare x x = Some Eq.
Proof.
  destruct x as [s|s| |s m e]; simpl; intros H; try discriminate;
    try (destruct s; reflexivity).
  rewrite Z.compare_refl.
  change (Pos.compare_cont Eq m m) with (m ?= m)%positive.
  rewrite Pos.compare_refl. now destruct s.
Qed.

Lemma SFleb_refl (x : spec_float) : is_nan x = false -> SFleb x x = true.
Proof. intros H. unfold SFleb. now rewrite SFcompare_refl. Qed.

(** For numbers, "not [x < y]" is [y <= x]. *)
Lemma SFleb_of_not_ltb (x y : spec_float) :
  is_nan x = false -> is_nan y = false ->
  SFltb x y = false -> SFleb y x = true.
Proof.
  unfold SFltb, SFleb. intros Hx Hy. rewrite (SFcompare_antisym x y).
  destruct (SFcompare x y) as [[]|] eqn:E; simpl; try reflexivity;
    try discriminate.
  destruct x, y; simpl in *; discriminate.
Qed.

(** A comparison that succeeds has two numbers as operands. *)
Lemma SFleb_not_nan (x y : spec_float) :
  SFleb x y = true -> is_nan x = false /\ is_nan y = false.
Proof. destruct x, y; simpl; intros H; try discriminate; now split. Qed.

Lemma SFltb_not_nan (x y : spec_float) :
  SFltb x y = true -> is_nan x = false /\ is_nan y = false.
Proof. destruct x, y; simpl; intros H; try discriminate; now split. Qed.

(** A finite value times a zero is a zero. *)
Lemma SFmul_zero_r (x z : spec_float) :
  is_finite x = true -> is_zero z = true ->
  is_zero (SFmul prec emax x z) = true.
Proof. destruct x, z; simpl; intros; try discriminate; reflexivity. Qed.

Lemma SFmul_zero_l (z x : spec_float) :
  is_zero z = true -> is_finite x = true ->
  is_zero (SFmul prec emax z x) = true.
Proof. destruct x, z; simpl; intros; try discriminate; reflexivity. Qed.
End IEEE_facts.

(** ** Rounding to binary32 without underflow *)

(** [digits2_pos p] is the bit length of [p]. *)
Lemma digits2_pos_bounds (p : positive) :
  2 ^ (Zpos (digits2_pos p) - 1) <= Zpos p < 2 ^ Zpos (digits2_pos p).
Proof.
  induction p as [p IH|p IH|]; cbn [digits2_pos]; [| |cbn; lia];
    rewrite Pos2Z.inj_succ;
    replace (Z.succ (Zpos (digits2_pos p)) - 1)
      with (Z.succ (Zpos (digits2_pos p) - 1)) by lia;
    rewrite !Z.pow_succ_r by lia; lia.
Qed.

Lemma digits2_pos_mono (p q : positive) :
  (p <= q)%positive -> Zpos (digits2_pos p) <= Zpos (digits2_pos q).
Proof.
  intros H. pose proof (digits2_pos_bounds p) as [Hp _].
  pose proof (digits2_pos_bounds q) as [_ Hq].
  assert (L : 2 ^ (Zpos (digits2_pos p) - 1) < 2 ^ Zpos (digits2_pos q)) by lia.
  apply Z.pow_lt_mono_r_iff in L; lia.
Qed.

Lemma shr_m_record_of_loc (m : Z) (l : location) :
  shr_m (shr_record_of_loc m l) = m.
Proof. destruct l as [|[]]; reflexivity. Qed.

Lemma shr_1_div2 (mrs : shr_record) :
  0 <= shr_m mrs -> shr_m (shr_1 mrs) = shr_m mrs / 2.
Proof.
  destruct mrs as [m r s]. cbn [shr_m]. intros H. rewrite <- Z.div2_div.
  destruct m as [|[p|p|]|p]; try reflexivity. lia.
Qed.

Lemma iter_shr_1_div (n : positive) :
  forall mrs, 0 <= shr_m mrs ->
              shr_m (iter_pos shr_1 n mrs) = shr_m mrs / 2 ^ Zpos n.
Proof.
  induction n as [n IH|n IH|]; intros mrs H; cbn [iter_pos].
  - assert (H1 : 0 <= shr_m (shr_1 mrs)).
    { rewrite shr_1_div2 by assumption. apply Z.div_pos; lia. }
    assert (H2 : 0 <= shr_m (iter_pos shr_1 n (shr_1 mrs))).
    { rewrite IH by assumption. apply Z.div_pos; lia. }
    rewrite IH, IH, shr_1_div2 by assumption.
    rewrite !Z.div_div by lia. f_equal.
    replace (Zpos n~1) with (1 + Zpos n + Zpos n) by lia.
    rewrite !Z.pow_add_r by lia. change (2 ^ 1) with 2. lia.
  - assert (H2 : 0 <= shr_m (iter_pos shr_1 n mrs)).
    { rewrite IH by assumption. apply Z.div_pos; lia. }
    rewrite IH, IH by assumption.
    rewrite !Z.div_div by lia. f_equal.
    replace (Zpos n~0) with (Zpos n + Zpos n) by lia.
    rewrite !Z.pow_add_r by lia. lia.
  - rewrite shr_1_div2 by assumption. reflexivity.
Qed.

(** No underflow: a right shift chosen by [fexp] leaves a positive mantissa
    as long as the value is in the normal range. *)
Lemma shr_fexp_positive (m : positive) (e : Z) (l : location) :
  -149 <= Zpos (digits2_pos m) + e - 24 ->
  exists m1,
    shr_m (fst (shr_fexp 24 128 (Zpos m) e l)) = Zpos m1 /\
    e <= snd (shr_fexp 24 128 (Zpos m) e l) /\
    -149 <= Zpos (digits2_pos m1) + snd (shr_fexp 24 128 (Zpos m) e l) - 24.
Proof.
  intros H. unfold shr_fexp, shr, fexp, emin. cbn [Zdigits2].
  replace (Z.max (Zpos (digits2_pos m) + e - 24) (3 - 128 - 24) - e)
    with (Zpos (digits2_pos m) - 24) by lia.
  destruct (Zpos (digits2_pos m) - 24) as [|k|k] eqn:Hk; cbn [fst snd].
  - exists m. rewrite shr_m_record_of_loc. repeat split; lia.
  - rewrite iter_shr_1_div by (rewrite shr_m_record_of_loc; lia).
    rewrite shr_m_record_of_loc.
    pose proof (digits2_pos_bounds m) as [B1 B2].
    replace (Zpos (digits2_pos m) - 1) with (23 + Zpos k) in B1 by lia.
    rewrite Z.pow_add_r in B1 by lia.
    assert (Q : 2 ^ 23 <= Zpos m / 2 ^ Zpos k).
    { apply Z.div_le_lower_bound; lia. }
    destruct (Zpos m / 2 ^ Zpos k) as [|m1|m1] eqn:Hq; try lia.
    exists m1. split; [reflexivity|]. split; [lia|].
    pose proof (digits2_pos_bounds m1) as [_ C2].
    assert (L : 2 ^ 23 < 2 ^ Zpos (digits2_pos m1)) by lia.
    apply Z.pow_lt_mono_r_iff in L; lia.
  - exists m. rewrite shr_m_record_of_loc. repeat split; lia.
Qed.

Lemma round_nearest_even_pos (m : positive) (l : location) :
  exists m', round_nearest_even (Zpos m) l = Zpos m' /\ (m <= m')%positive.
Proof.
  destruct l as [|[]]; cbn [round_nearest_even].
  - exists m. split; [reflexivity|lia].
  - destruct (Z.even (Zpos m)).
    + exists m. split; [reflexivity|lia].
    + exists (m + 1)%positive. split; [reflexivity|lia].
  - exists m. split; [reflexivity|lia].
  - exists (m + 1)%positive. split; [reflexivity|lia].
Qed.

(** Rounding a value of the normal range yields a number of the same sign
    with an exponent not below the given one, or the infinity. *)
Lemma binary_round_aux_normal (s : bool) (m : positive) (e : Z) (l : location) :
  -149 <= Zpos (digits2_pos m) + e - 24 ->
  binary_round_aux 24 128 s (Zpos m) e l = S754_infinity s \/
  exists m2 e2,
    binary_round_aux 24 128 s (Zpos m) e l = S754_finite s m2 e2 /\ e <= e2.
Proof.
  intros H. unfold binary_round_aux.
  destruct (shr_fexp_positive m e l H) as (m1 & E1 & G1 & N1).
  destruct (shr_fexp 24 128 (Zpos m) e l) as [mrs1 e1]. cbn [fst snd] in *.
  rewrite E1.
  destruct (round_nearest_even_pos m1 (loc_of_shr_record mrs1)) as (m1' & -> & Hle).
  assert (N1' : -149 <= Zpos (digits2_pos m1') + e1 - 24).
  { pose proof (digits2_pos_mono _ _ Hle). lia. }
  destruct (shr_fexp_positive m1' e1 loc_Exact N1') as (m2 & E2 & G2 & _).
  destruct (shr_fexp 24 128 (Zpos m1') e1 loc_Exact) as [mrs2 e2].
  cbn [fst snd] in *. rewrite E2.
  destruct (e2 <=? 128 - 24); [right|now left].
  exists m2, e2. split; [reflexivity|lia].
Qed.

(** Whatever is rounded, the result carries the given sign (or is NaN). *)
Lemma binary_round_aux_sign (s : bool) (mx ex : Z) (l : location) :
  is_neg_zero (binary_round_aux 24 128 s mx ex l) = true -> s = true.
Proof.
  unfold binary_round_aux.
  destruct (shr_fexp 24 128 mx ex l) as [mrs1 e1].
  destruct (shr_fexp 24 128 _ e1 loc_Exact) as [mrs2 e2].
  destruct (shr_m mrs2); [|destruct (e2 <=? 128 - 24)|]; cbn;
    try discriminate. now destruct s.
Qed.

Lemma digits2_pos_ge_1 (p : positive) : 1 <= Zpos (digits2_pos p).
Proof. lia. Qed.

(** Rounding an integer multiple of 2^-20. *)
Lemma binary_round_m20 (s : bool) (p : positive) :
  binary_round 24 128 s p (-20) = S754_infinity s \/
  exists m2 e2,
    binary_round 24 128 s p (-20) = S754_finite s m2 e2 /\ -43 <= e2.
Proof.
  unfold binary_round, shl_align, fexp, emin.
  pose proof (digits2_pos_ge_1 p) as Hd.
  replace (Z.max (Zpos (digits2_pos p) + -20 - 24) (3 - 128 - 24) - -20)
    with (Zpos (digits2_pos p) - 24) by lia.
  replace (Z.max (Zpos (digits2_pos p) + -20 - 24) (3 - 128 - 24))
    with (Zpos (digits2_pos p) - 44) by lia.
  destruct (Zpos (digits2_pos p) - 24) as [|k|k] eqn:Hk.
  - destruct (binary_round_aux_normal s p (-20) loc_Exact) as [E|(m2 & e2 & E & G)];
      [lia|now left|right]. exists m2, e2. split; [exact E|lia].
  - destruct (binary_round_aux_normal s p (-20) loc_Exact) as [E|(m2 & e2 & E & G)];
      [lia|now left|right]. exists m2, e2. split; [exact E|lia].
  - pose proof (digits2_pos_ge_1 (Pos.iter xO p k)) as Hd'.
    destruct (binary_round_aux_normal s (Pos.iter xO p k)
                (Zpos (digits2_pos p) - 44) loc_Exact)
      as [E|(m2 & e2 & E & G)]; [lia|now left|right].
    exists m2, e2. split; [exact E|lia].
Qed.

(* ================================================================== *)
(** * The delta-form controller *)
(* ================================================================== *)

(** Exposes the straight-line code of the [step] functions. *)
Ltac unfold_step :=
  cbv beta iota zeta delta
    [PidMyDigit.step PidCompare.step PidLastCompare.step
     step_result accumulate sum_in_order nine_terms fold_left
     shift_histories reset new_DeltaPid2TapAw
     set_dy1 set_w1 set_w2 set_x1 set_x2
     set_y_unsat_1 set_y_unsat_2 set_y_sat_1 set_y_sat_2
     YSAT_ dy1 w1 w2 x1 x2 y_unsat_1 y_unsat_2 y_sat_1 y_sat_2
     add_rn mul_rn F32.add F32.mul F32.sub F32.neg F32.zero fst snd].

(** ** What [step] computes *)

Lemma step_rn_unfold (s : DeltaPid2TapAw) (w x : F32.t) :
  PidMyDigit.step s w x
  = step_result (accumulate F32.zero (nine_terms s w x)) s w x.
Proof. unfold_step. rewrite !SFadd_opp_sub. reflexivity. Qed.

Lemma step_expr_unfold (s : DeltaPid2TapAw) (w x : F32.t) :
  PidCompare.step s w x = step_result (sum_in_order (nine_terms s w x)) s w x.
Proof. unfold_step. reflexivity. Qed.

Lemma step_last_is_step_rn (s : DeltaPid2TapAw) (w x : F32.t) :
  PidLastCompare.step s w x = PidMyDigit.step s w x.
Proof. unfold_step. reflexivity. Qed.

(** C1.  For every controller state and every inputs [(w, x)], [step]
    forms [e_sat_1 = y_sat_1 - y_unsat_1] and [e_sat_2 = y_sat_2 - y_unsat_2],
    accumulates the nine terms a0*dy1, c1*w, c2*w1, c3*w2, c4*x, c5*x1,
    c6*x2, c7a*e_sat_1, c7b*e_sat_2 in that order into [dy] (onto an
    accumulator starting at 0.0f in the step-rounded files, as one
    left-to-right expression in [pid_compare.cpp]), sets
    [y_unsat = y_unsat_1 + dy] and [y_sat = clamp(y_unsat, -YSAT, +YSAT)],
    shifts every two-deep history and returns [y_sat]. *)
Theorem step_computes_recurrence (s : DeltaPid2TapAw) (w x : F32.t) :
  PidMyDigit.step s w x
  = step_result (accumulate F32.zero (nine_terms s w x)) s w x
  /\ PidLastCompare.step s w x
     = step_result (accumulate F32.zero (nine_terms s w x)) s w x
  /\ PidCompare.step s w x
     = step_result (sum_in_order (nine_terms s w x)) s w x.
Proof.
  split; [|split].
  - apply step_rn_unfold.
  - rewrite step_last_is_step_rn. apply step_rn_unfold.
  - apply step_expr_unfold.
Qed.

(** The first call after construction, on the harness inputs. *)
Example first_step_value :
  fst (PidMyDigit.step (new_DeltaPid2TapAw YSAT) W_TGT F32.zero)
  = S754_finite false 11576279 (-20)
  /\ fst (PidCompare.step (new_DeltaPid2TapAw YSAT) W_TGT F32.zero)
     = S754_finite false 11576279 (-20).
Proof. split; vm_compute; reflexivity. Qed.

(** ** Reset *)

Lemma clamp_zero (Y : F32.t) :
  F32.ltb Y (F32.neg Y) = false -> clamp F32.zero (F32.neg Y) Y = F32.zero.
Proof.
  destruct Y as [[]|[]| |[] m e]; try reflexivity; cbn; try discriminate.
  all: change (Pos.compare_cont Eq m m) with (m ?= m)%positive;
    rewrite ?Z.compare_refl, ?Pos.compare_refl; cbn; discriminate.
Qed.

(** C10.  After [reset()] every history field is 0, and - the limit
    satisfying the precondition of [std::clamp], as YSAT = 12.0 does - a
    [step(0, 0)] made immediately afterwards returns exactly 0, in all
    three files. *)
Theorem reset_then_step_zero (s : DeltaPid2TapAw) :
  F32.ltb (YSAT_ s) (F32.neg (YSAT_ s)) = false ->
  let r := reset s in
  (dy1 r = F32.zero /\ w1 r = F32.zero /\ w2 r = F32.zero /\
   x1 r = F32.zero /\ x2 r = F32.zero /\
   y_unsat_1 r = F32.zero /\ y_unsat_2 r = F32.zero /\
   y_sat_1 r = F32.zero /\ y_sat_2 r = F32.zero) /\
  YSAT_ r = YSAT_ s /\
  fst (PidMyDigit.step r F32.zero F32.zero) = F32.zero /\
  fst (PidCompare.step r F32.zero F32.zero) = F32.zero /\
  fst (PidLastCompare.step r F32.zero F32.zero) = F32.zero.
Proof.
  intros HY r. split; [repeat split|]. split; [reflexivity|].
  assert (Hrn : fst (PidMyDigit.step r F32.zero F32.zero) = F32.zero).
  { subst r. unfold_step. cbn. now apply clamp_zero. }
  split; [exact Hrn|]. split; [|exact Hrn].
  subst r. unfold_step. cbn. now apply clamp_zero.
Qed.

Lemma reset_then_step_zero_witness :
  let s := snd (PidMyDigit.step (new_DeltaPid2TapAw YSAT) W_TGT F32.zero) in
  F32.ltb (YSAT_ s) (F32.neg (YSAT_ s)) = false /\
  fst (PidMyDigit.step (reset s) F32.zero F32.zero) = F32.zero.
Proof.
  split; [vm_compute; reflexivity|].
  apply (reset_then_step_zero
           (snd (PidMyDigit.step (new_DeltaPid2TapAw YSAT) W_TGT F32.zero))).
  vm_compute; reflexivity.
Defined.

(** ** Saturation *)

Lemma clamp_below (v lo hi : F32.t) :
  F32.ltb v lo = true -> clamp v lo hi = lo.
Proof. unfold clamp. now intros ->. Qed.

Lemma clamp_above (v Y : F32.t) :
  limit_ok Y -> F32.ltb Y v = true -> clamp v (F32.neg Y) Y = Y.
Proof.
  unfold limit_ok, clamp, F32.ltb, F32.leb, F32.neg. intros HY H.
  assert (E : SFltb v (SFopp Y) = false).
  { destruct Y as [[]|[]| |[] mY eY], v as [[]|[]| |[] mv ev];
      cbn in *; try discriminate; reflexivity. }
  now rewrite E, H.
Qed.

Lemma clamp_nan (v lo hi : F32.t) :
  is_nan v = true -> is_nan (clamp v lo hi) = true.
Proof.
  destruct v; try discriminate. intros _. unfold clamp, F32.ltb.
  destruct lo, hi; reflexivity.
Qed.

Lemma clamp_in_range (v Y : F32.t) :
  limit_ok Y -> is_nan v = false ->
  in_range (clamp v (F32.neg Y) Y) Y = true.
Proof.
  unfold limit_ok, in_range, clamp, F32.ltb, F32.leb. intros HY Hv.
  destruct (SFleb_not_nan _ _ HY) as [Hlo Hhi].
  destruct (SFltb v (F32.neg Y)) eqn:E1.
  - now rewrite SFleb_refl, HY.
  - destruct (SFltb Y v) eqn:E2.
    + now rewrite HY, SFleb_refl.
    + now rewrite (SFleb_of_not_ltb v (F32.neg Y) Hv Hlo E1),
                  (SFleb_of_not_ltb Y v Hhi Hv E2).
Qed.

Lemma clamp_bounded_or_nan (v Y : F32.t) :
  limit_ok Y -> bounded_or_nan (clamp v (F32.neg Y) Y) Y = true.
Proof.
  intros HY. unfold bounded_or_nan. destruct (is_nan v) eqn:Hv.
  - now rewrite clamp_nan.
  - rewrite clamp_in_range by assumption. apply orb_true_r.
Qed.

(** The saturation contract holds for any controller whose [step] has the
    shape of [step_result], whatever [dy] it forms. *)
Lemma saturates_of_step_result
      (stp : DeltaPid2TapAw -> F32.t -> F32.t -> F32.t * DeltaPid2TapAw)
      (s : DeltaPid2TapAw) (w x dy : F32.t) :
  stp s w x = step_result dy s w x ->
  limit_ok (YSAT_ s) -> saturates stp s w x.
Proof.
  intros E HY. unfold saturates. rewrite E.
  cbv beta iota zeta delta
      [step_result fst snd YSAT_ y_unsat_1 y_sat_1 y_sat_2 sat_histories_ok].
  fold (YSAT_ s) (y_unsat_1 s) (y_sat_1 s) (y_sat_2 s).
  repeat split.
  - now apply clamp_in_range.
  - apply clamp_nan.
  - now apply clamp_above.
  - apply clamp_below.
  - now apply clamp_bounded_or_nan.
  - tauto.
Qed.

(** The controller as constructed, or reset, satisfies the history bound. *)
Lemma reset_histories_ok (s : DeltaPid2TapAw) :
  limit_ok (YSAT_ s) -> sat_histories_ok (reset s).
Proof.
  unfold limit_ok, sat_histories_ok, bounded_or_nan, in_range, F32.leb, F32.neg.
  destruct s as [Y ? ? ? ? ? ? ? ? ?]. cbn [YSAT_]. intros HY.
  destruct Y as [[]|[]| |[] mY eY]; cbn in *; try discriminate; now split.
Qed.

Lemma new_controller_histories_ok (Y : F32.t) :
  limit_ok Y -> sat_histories_ok (new_DeltaPid2TapAw Y).
Proof. intros HY. unfold new_DeltaPid2TapAw. now apply reset_histories_ok. Qed.

Lemma limit_ok_not_lt (Y : F32.t) :
  limit_ok Y -> F32.ltb Y (F32.neg Y) = false.
Proof.
  unfold limit_ok, F32.leb, F32.ltb, F32.neg.
  destruct Y as [[]|[]| |[] m e]; cbn; intros H; try discriminate; reflexivity.
Qed.

Lemma reset_clamp_stored (s : DeltaPid2TapAw) :
  limit_ok (YSAT_ s) -> clamp_stored (reset s).
Proof.
  intros H. unfold clamp_stored. destruct s as [Y ? ? ? ? ? ? ? ? ?].
  cbn in *. symmetry. now apply clamp_zero, limit_ok_not_lt.
Qed.

Section Reachable.
(** Any controller whose [step] has the shape of [step_result]. *)
Variable stp : DeltaPid2TapAw -> F32.t -> F32.t -> F32.t * DeltaPid2TapAw.
Hypothesis stp_shape :
  forall s w x, exists dy, stp s w x = step_result dy s w x.
Variable Y : F32.t.
Hypothesis HY : limit_ok Y.

(** The limit never changes and the history bound is an invariant of the
    reachable states. *)
Lemma reachable_invariant (s : DeltaPid2TapAw) :
  reachable stp Y s -> YSAT_ s = Y /\ sat_histories_ok s.
Proof.
  induction 1 as [|s w x Hs [IHY IHok]|s Hs [IHY IHok]].
  - split; [reflexivity|]. now apply new_controller_histories_ok.
  - destruct (stp_shape s w x) as [dy E].
    assert (HYs : limit_ok (YSAT_ s)) by now rewrite IHY.
    destruct (saturates_of_step_result stp s w x dy E HYs)
      as (H1 & _ & _ & _ & _ & _ & _ & H8).
    split; [now rewrite H1 | now apply H8].
  - split; [exact IHY|]. apply reset_histories_ok. now rewrite IHY.
Qed.

Lemma reachable_saturates (s : DeltaPid2TapAw) (w x : F32.t) :
  reachable stp Y s -> sat_histories_ok s /\ saturates stp s w x.
Proof.
  intros Hs. destruct (reachable_invariant s Hs) as [EY Hok].
  split; [exact Hok|].
  destruct (stp_shape s w x) as [dy E].
  apply (saturates_of_step_result stp s w x dy E). now rewrite EY.
Qed.

(** In every reachable state the stored saturated output is the clamp of the
    stored accumulator. *)
Lemma reachable_clamp_stored (s : DeltaPid2TapAw) :
  reachable stp Y s -> clamp_stored s.
Proof.
  intros Hs. induction Hs as [|s w x Hs IH|s Hs IH].
  - unfold new_DeltaPid2TapAw. now apply reset_clamp_stored.
  - destruct (stp_shape s w x) as [dy ->]. reflexivity.
  - apply reset_clamp_stored.
    destruct (reachable_invariant s Hs) as [-> _]. exact HY.
Qed.
End Reachable.

Lemma step_rn_shape (s : DeltaPid2TapAw) (w x : F32.t) :
  exists dy, PidMyDigit.step s w x = step_result dy s w x.
Proof. eexists. apply step_rn_unfold. Qed.

Lemma step_expr_shape (s : DeltaPid2TapAw) (w x : F32.t) :
  exists dy, PidCompare.step s w x = step_result dy s w x.
Proof. eexists. apply step_expr_unfold. Qed.

Lemma step_last_shape (s : DeltaPid2TapAw) (w x : F32.t) :
  exists dy, PidLastCompare.step s w x = step_result dy s w x.
Proof.
  eexists. exact (eq_trans (step_last_is_step_rn s w x) (step_rn_unfold s w x)).
Qed.

(** C4, as amended.  For a controller constructed with a limit satisfying
    [-YSAT <= YSAT], every reachable state and every inputs [(w, x)]: when
    the unsaturated accumulator [y_unsat] is a number the value returned by
    [step] lies in [[-YSAT, +YSAT]]; it is exactly [+YSAT] when [y_unsat]
    exceeds [+YSAT] and exactly [-YSAT] below the lower bound; when
    [y_unsat] is NaN so is the returned value; and "within the bounds, or
    NaN" is a state invariant of [y_sat_1] and [y_sat_2], true of the
    reachable states and preserved by [step].  This holds in all three
    files. *)
Theorem step_saturates (Y : F32.t) (s : DeltaPid2TapAw) (w x : F32.t) :
  limit_ok Y ->
  (reachable PidMyDigit.step Y s ->
   sat_histories_ok s /\ saturates PidMyDigit.step s w x) /\
  (reachable PidCompare.step Y s ->
   sat_histories_ok s /\ saturates PidCompare.step s w x) /\
  (reachable PidLastCompare.step Y s ->
   sat_histories_ok s /\ saturates PidLastCompare.step s w x).
Proof.
  intros HY. split; [|split].
  - exact (reachable_saturates PidMyDigit.step step_rn_shape Y HY s w x).
  - exact (reachable_saturates PidCompare.step step_expr_shape Y HY s w x).
  - exact (reachable_saturates PidLastCompare.step step_last_shape Y HY s w x).
Qed.

Lemma step_saturates_witness :
  limit_ok YSAT /\
  reachable PidMyDigit.step YSAT
            (snd (PidMyDigit.step (new_DeltaPid2TapAw YSAT) W_TGT F32.zero)) /\
  saturates PidMyDigit.step
            (snd (PidMyDigit.step (new_DeltaPid2TapAw YSAT) W_TGT F32.zero))
            W_TGT F32.zero.
Proof.
  assert (L : limit_ok YSAT) by (vm_compute; reflexivity).
  assert (R : reachable PidMyDigit.step YSAT
                (snd (PidMyDigit.step (new_DeltaPid2TapAw YSAT) W_TGT F32.zero)))
    by (apply reach_step, reach_new).
  split; [exact L|]. split; [exact R|].
  exact (proj2 (proj1 (step_saturates YSAT _ W_TGT F32.zero L) R)).
Defined.

(** The state used below is reachable. *)
Lemma overflowed_state_reachable :
  reachable PidMyDigit.step YSAT overflowed_state.
Proof. unfold overflowed_state. apply reach_step, reach_step, reach_new. Qed.

(** C4, the claim as stated fails: after [step(FLT_MAX, -FLT_MAX)] and
    [step(-FLT_MAX, FLT_MAX)] from the constructed controller the
    accumulator is -infinity, and in that reachable state [step(0, 0)]
    returns NaN, which is not within [[-YSAT, +YSAT]]. *)
Lemma step_output_out_of_range :
  reachable PidMyDigit.step YSAT overflowed_state /\
  YSAT_ overflowed_state = YSAT /\
  is_nan (fst (PidMyDigit.step overflowed_state F32.zero F32.zero)) = true /\
  in_range (fst (PidMyDigit.step overflowed_state F32.zero F32.zero)) YSAT
  = false.
Proof.
  split; [exact overflowed_state_reachable|].
  repeat split; vm_compute; reflexivity.
Qed.

(** ** Step-rounded against single-expression accumulation *)

Lemma accumulate_cons (a t : F32.t) (ts : list F32.t) :
  accumulate a (t :: ts) = accumulate (SFadd F32.prec F32.emax a t) ts.
Proof. reflexivity. Qed.

(** An accumulator started at +0 and one started at -0 either meet, or stay
    apart as (+0, -0) because every added term was a negative zero. *)
Lemma accumulate_zero_signs (ts : list F32.t) :
  accumulate (S754_zero false) ts = accumulate (S754_zero true) ts
  \/ (accumulate (S754_zero false) ts = S754_zero false /\
      accumulate (S754_zero true) ts = S754_zero true /\
      forallb is_neg_zero ts = true).
Proof.
  induction ts as [|t ts IH]; [right; repeat split|].
  rewrite !accumulate_cons.
  destruct (is_neg_zero t) eqn:Ht.
  - destruct t as [[]| | |]; try discriminate.
    cbn [SFadd forallb is_neg_zero andb]. exact IH.
  - left. rewrite SFadd_neg_zero_l, SFadd_pos_zero_l; [reflexivity|].
    intros ->. discriminate.
Qed.

(** The two ways of forming [dy] from the same terms. *)
Lemma dy_variants (ts : list F32.t) :
  accumulate F32.zero ts = sum_in_order ts
  \/ (accumulate F32.zero ts = S754_zero false /\
      sum_in_order ts = S754_zero true /\
      forallb is_neg_zero ts = true).
Proof.
  destruct ts as [|t ts]; [left; reflexivity|].
  unfold sum_in_order, F32.zero. rewrite accumulate_cons.
  destruct (is_neg_zero t) eqn:Ht.
  - destruct t as [[]| | |]; try discriminate.
    rewrite SFadd_pos_zero_neg_zero. cbn [forallb is_neg_zero andb].
    apply accumulate_zero_signs.
  - left. rewrite SFadd_pos_zero_l; [reflexivity|]. intros ->. discriminate.
Qed.

Lemma forallb_existsb_negb {A : Type} (f : A -> bool) (l : list A) :
  forallb f l = true -> existsb (fun a => negb (f a)) l = true -> False.
Proof.
  induction l as [|a l IH]; simpl; [discriminate|].
  destruct (f a); simpl; [exact IH | discriminate].
Qed.

(** When all nine products are negative zeros the step-rounded [dy] is +0
    where the expression's is -0, and the successor states differ in
    [dy1]. *)
Lemma step_variants_differ_on_neg_zeros (s : DeltaPid2TapAw) (w x : F32.t) :
  forallb is_neg_zero (nine_terms s w x) = true ->
  dy1 (snd (PidMyDigit.step s w x)) = S754_zero false /\
  dy1 (snd (PidCompare.step s w x)) = S754_zero true.
Proof.
  intros F.
  assert (D : accumulate F32.zero (nine_terms s w x) = S754_zero false /\
              sum_in_order (nine_terms s w x) = S754_zero true).
  { remember (nine_terms s w x) as ts eqn:Hts. unfold nine_terms in Hts.
    destruct ts as [|t ts]; [discriminate Hts|]. clear Hts.
    assert (G : forall l a, forallb is_neg_zero l = true ->
                (a = S754_zero false \/ a = S754_zero true) ->
                accumulate a l = a).
    { induction l as [|u l IH]; intros a Hl Ha; [reflexivity|].
      rewrite accumulate_cons. cbn [forallb] in Hl.
      apply andb_prop in Hl. destruct Hl as [Hu Hl].
      destruct u as [[]| | |]; try discriminate.
      destruct Ha as [-> | ->]; cbn [SFadd]; apply IH; auto. }
    cbn [forallb] in F. apply andb_prop in F. destruct F as [Ht F].
    destruct t as [[]| | |]; try discriminate.
    unfold sum_in_order, F32.zero. rewrite accumulate_cons. cbn [SFadd].
    split; apply G; auto. }
  destruct D as [D1 D2].
  rewrite step_rn_unfold, step_expr_unfold.
  cbv beta iota zeta delta [step_result snd dy1]. now split.
Qed.

Lemma existsb_negb_or_forallb {A : Type} (f : A -> bool) (l : list A) :
  existsb (fun a => negb (f a)) l = true \/ forallb f l = true.
Proof.
  induction l as [|a l [IH|IH]]; cbn; [now right| |];
    destruct (f a); cbn; auto.
Qed.

(** The eighth product never underflows on such a value. *)
Lemma mul_C7A_normalize (D : Z) :
  is_neg_zero (F32.mul C7A (binary_normalize 24 128 D (-20) false)) = false.
Proof.
  destruct D as [|p|p]; cbn [binary_normalize]; [reflexivity| |].
  - unfold binary_round. destruct (shl_align _ _ _) as [mz ez].
    destruct (is_neg_zero _) eqn:E; [|reflexivity]. exfalso.
    revert E. unfold binary_round_aux.
    destruct (shr_fexp 24 128 (Zpos mz) ez loc_Exact) as [mrs1 e1].
    destruct (shr_fexp 24 128 _ e1 loc_Exact) as [mrs2 e2].
    destruct (shr_m mrs2) as [|m2|m2]; [|destruct (e2 <=? 128 - 24)|];
      try discriminate.
    unfold F32.mul, C7A, SFmul. cbn [xorb]. intros E.
    apply binary_round_aux_sign in E. discriminate.
  - destruct (binary_round_m20 true p) as [->|(m2 & e2 & -> & G)];
      [reflexivity|].
    unfold F32.mul, F32.prec, F32.emax, C7A, SFmul. cbn [xorb].
    pose proof (digits2_pos_ge_1 (10307922 * m2)) as Hd.
    destruct (binary_round_aux_normal true (10307922 * m2) (-31 + e2) loc_Exact)
      as [->|(m3 & e3 & -> & _)]; [lia|reflexivity|reflexivity].
Qed.

Lemma SFsub_diag_finite (s : bool) (m : positive) (e : Z) :
  SFsub 24 128 (S754_finite s m e) (S754_finite s m e) = S754_zero false.
Proof. unfold SFsub. now rewrite Z.sub_diag. Qed.

(** The saturation error of a stored pair never makes the eighth product a
    negative zero. *)
Lemma mul_C7A_e_sat (v : F32.t) :
  is_neg_zero
    (F32.mul C7A (F32.sub (clamp v (F32.neg YSAT) YSAT) v)) = false.
Proof.
  destruct v as [[]|[]| |s m e]; try reflexivity.
  unfold clamp.
  destruct (F32.ltb (S754_finite s m e) (F32.neg YSAT)) eqn:E1.
  - assert (G : s = true /\ -20 <= e).
    { revert E1. unfold F32.ltb, SFltb, F32.neg, YSAT, SFopp, SFcompare.
      destruct s; [|discriminate]. cbn [negb].
      destruct (e ?= -20) eqn:C; try discriminate.
      - apply Z.compare_eq in C. intros _. split; [reflexivity|lia].
      - apply Z.compare_gt_iff in C. intros _. split; [reflexivity|lia]. }
    destruct G as [-> G].
    unfold F32.sub, F32.neg, YSAT, SFopp, SFsub. cbn [negb].
    rewrite Z.min_l by lia. apply mul_C7A_normalize.
  - destruct (F32.ltb YSAT (S754_finite s m e)) eqn:E2.
    + assert (G : -20 <= e).
      { revert E2. unfold F32.ltb, SFltb, YSAT, SFcompare.
        destruct s; [discriminate|].
        destruct (-20 ?= e) eqn:C; try discriminate.
        - apply Z.compare_eq in C. intros _. lia.
        - change (-20 < e) in C. intros _. lia. }
      unfold F32.sub, YSAT, SFsub.
      rewrite Z.min_l by lia. apply mul_C7A_normalize.
    + unfold F32.sub. fold F32.prec F32.emax. unfold F32.prec, F32.emax.
      rewrite SFsub_diag_finite. reflexivity.
Qed.

(** In a state reachable with the limit 12.0 the eighth product is not a
    negative zero. *)
Lemma reachable_term_not_neg_zero
      (stp : DeltaPid2TapAw -> F32.t -> F32.t -> F32.t * DeltaPid2TapAw)
      (s : DeltaPid2TapAw) (w x : F32.t) :
  (forall s w x, exists dy, stp s w x = step_result dy s w x) ->
  reachable stp YSAT s ->
  existsb (fun t => negb (is_neg_zero t)) (nine_terms s w x) = true.
Proof.
  intros Hshape Hs.
  assert (L : limit_ok YSAT) by (vm_compute; reflexivity).
  pose proof (reachable_clamp_stored stp Hshape YSAT L s Hs) as Hc.
  destruct (reachable_invariant stp Hshape YSAT L s Hs) as [HY _].
  unfold clamp_stored in Hc. rewrite HY in Hc.
  unfold nine_terms. rewrite Hc. cbn [existsb].
  rewrite mul_C7A_e_sat. cbn [negb]. now rewrite !orb_true_r.
Qed.

Lemma steps_agree_of_term (s : DeltaPid2TapAw) (w x : F32.t) :
  existsb (fun t => negb (is_neg_zero t)) (nine_terms s w x) = true ->
  PidMyDigit.step s w x = PidCompare.step s w x.
Proof.
  intros H.
  pose proof (step_rn_unfold s w x) as E1.
  pose proof (step_expr_unfold s w x) as E2.
  destruct (dy_variants (nine_terms s w x)) as [E|(_ & _ & F)].
  - rewrite E in E1. exact (eq_trans E1 (eq_sym E2)).
  - elim (forallb_existsb_negb _ _ F H).
Qed.

Lemma steps_agree_on_reachable (s : DeltaPid2TapAw) (w x : F32.t) :
  reachable PidMyDigit.step YSAT s \/ reachable PidCompare.step YSAT s ->
  PidMyDigit.step s w x = PidCompare.step s w x.
Proof.
  intros [R|R]; apply steps_agree_of_term.
  - exact (reachable_term_not_neg_zero PidMyDigit.step s w x step_rn_shape R).
  - exact (reachable_term_not_neg_zero PidCompare.step s w x step_expr_shape R).
Qed.

(** The two variants agree exactly when at least one of the nine products
    is not a negative zero. *)
Lemma steps_agree_iff_term (s : DeltaPid2TapAw) (w x : F32.t) :
  existsb (fun t => negb (is_neg_zero t)) (nine_terms s w x) = true <->
  PidMyDigit.step s w x = PidCompare.step s w x.
Proof.
  split; [apply steps_agree_of_term|].
  intros E.
  destruct (existsb_negb_or_forallb is_neg_zero (nine_terms s w x))
    as [H|F]; [exact H|].
  destruct (step_variants_differ_on_neg_zeros s w x F) as [D1 D2].
  rewrite E, D2 in D1. discriminate D1.
Qed.

(** C8.  With every multiply and add rounded on its own, the step-rounded
    controller (in either of its two files) and the single-expression
    controller return the same output and reach the same successor state
    from equal states and equal inputs [(w, x)]: in every state that [step]
    and [reset] calls of any of the three variants make of the controller
    constructed with YSAT = 12.0, and for all inputs, NaN and infinities
    included. *)
Theorem step_variants_agree (s : DeltaPid2TapAw) (w x : F32.t) :
  reachable PidMyDigit.step YSAT s \/
  reachable PidCompare.step YSAT s \/
  reachable PidLastCompare.step YSAT s ->
  PidMyDigit.step s w x = PidCompare.step s w x /\
  PidLastCompare.step s w x = PidCompare.step s w x.
Proof.
  intros R.
  assert (T : existsb (fun t => negb (is_neg_zero t)) (nine_terms s w x) = true).
  { destruct R as [R|[R|R]].
    - exact (reachable_term_not_neg_zero PidMyDigit.step s w x step_rn_shape R).
    - exact (reachable_term_not_neg_zero PidCompare.step s w x step_expr_shape R).
    - exact (reachable_term_not_neg_zero PidLastCompare.step s w x
               step_last_shape R). }
  pose proof (steps_agree_of_term s w x T) as E.
  split; [exact E|].
  rewrite step_last_is_step_rn. exact E.
Qed.

Lemma step_variants_agree_witness :
  (reachable PidMyDigit.step YSAT
             (snd (PidMyDigit.step (new_DeltaPid2TapAw YSAT) W_TGT F32.zero)) \/
   reachable PidCompare.step YSAT
             (snd (PidMyDigit.step (new_DeltaPid2TapAw YSAT) W_TGT F32.zero)) \/
   reachable PidLastCompare.step YSAT
             (snd (PidMyDigit.step (new_DeltaPid2TapAw YSAT) W_TGT F32.zero))) /\
  PidMyDigit.step
    (snd (PidMyDigit.step (new_DeltaPid2TapAw YSAT) W_TGT F32.zero))
    W_TGT F32.zero
  = PidCompare.step
      (snd (PidMyDigit.step (new_DeltaPid2TapAw YSAT) W_TGT F32.zero))
      W_TGT F32.zero /\
  PidLastCompare.step
    (snd (PidMyDigit.step (new_DeltaPid2TapAw YSAT) W_TGT F32.zero))
    W_TGT F32.zero
  = PidCompare.step
      (snd (PidMyDigit.step (new_DeltaPid2TapAw YSAT) W_TGT F32.zero))
      W_TGT F32.zero.
Proof.
  assert (R : reachable PidMyDigit.step YSAT
                (snd (PidMyDigit.step (new_DeltaPid2TapAw YSAT) W_TGT F32.zero)))
    by (apply reach_step, reach_new).
  split; [left; exact R|].
  exact (step_variants_agree _ W_TGT F32.zero (or_introl R)).
Defined.

(** Consequently the two controllers, constructed with YSAT = 12.0 and fed
    the same inputs, produce the same outputs bit for bit. *)
Lemma run_steps_agree (inputs : list (F32.t * F32.t)) (s : DeltaPid2TapAw) :
  reachable PidMyDigit.step YSAT s ->
  run_steps PidMyDigit.step s inputs = run_steps PidCompare.step s inputs.
Proof.
  revert s. induction inputs as [|[w x] rest IH]; intros s R; [reflexivity|].
  cbn [run_steps].
  rewrite <- (steps_agree_on_reachable s w x (or_introl R)).
  pose proof (reach_step PidMyDigit.step YSAT s w x R) as R'.
  destruct (PidMyDigit.step s w x) as [y s']. cbn [snd] in R'.
  now rewrite (IH s' R').
Qed.

(** The member values of [all_neg_zero_state] are not those of a state of
    the control loop: the stored saturated output is not the clamp of the
    stored accumulator. *)
Lemma all_neg_zero_state_unreachable
      (stp : DeltaPid2TapAw -> F32.t -> F32.t -> F32.t * DeltaPid2TapAw) :
  (forall s w x, exists dy, stp s w x = step_result dy s w x) ->
  ~ reachable stp YSAT all_neg_zero_state.
Proof.
  intros Hshape R.
  assert (L : limit_ok YSAT) by (vm_compute; reflexivity).
  pose proof (reachable_clamp_stored stp Hshape YSAT L _ R) as Hc.
  vm_compute in Hc. discriminate Hc.
Qed.

(** Reachability cannot be dropped from the agreement: on those member
    values, which no run produces, the step-rounded output is +0.0 and the
    single-expression output is -0.0. *)
Lemma steps_differ_off_the_reachable_states :
  fst (PidMyDigit.step all_neg_zero_state neg_zero F32.zero)
  <> fst (PidCompare.step all_neg_zero_state neg_zero F32.zero).
Proof. vm_compute. discriminate. Qed.

(* ================================================================== *)
(** * The encoder *)
(* ================================================================== *)

Lemma long_to_int_fits (d : Z) : in_int d = true -> long_to_int d = d.
Proof.
  unfold in_int, long_to_int, INT_MIN, INT_MAX. intros H.
  apply andb_prop in H. destruct H as [H1 H2].
  apply Z.leb_le in H1, H2. rewrite Z.mod_small; lia.
Qed.

Lemma long_to_int_mod (d : Z) : (long_to_int d - d) mod 2 ^ 32 = 0.
Proof.
  unfold long_to_int. rewrite (Z.mod_eq (d + 2 ^ 31) (2 ^ 32)) by lia.
  replace (d + 2 ^ 31 - 2 ^ 32 * ((d + 2 ^ 31) / 2 ^ 32) - 2 ^ 31 - d)
    with ((- ((d + 2 ^ 31) / 2 ^ 32)) * 2 ^ 32) by lia.
  apply Z.mod_mul. lia.
Qed.

(** What a successful [quantize] did. *)
Lemma quantize_some (e : EncoderFloor) (r : Sample) :
  quantize e = Some r ->
  exists C_now,
    count_of e = Some C_now /\
    enc' r = set_C_prev e C_now /\
    in_long (C_now - C_prev e) = true /\
    spdcnt r = long_to_int (C_now - C_prev e) /\
    x_meas r = mul_rn (F32.of_int (spdcnt r)) (int2radfac e).
Proof.
  unfold quantize, count_of, bind, long_sub.
  destruct (F32.to_long _) as [C_now|]; [|discriminate].
  destruct (in_long (C_now - C_prev e)) eqn:L; [|discriminate].
  intros H. injection H as <-. exists C_now. cbn.
  split; [reflexivity|]. split; [reflexivity|]. split; [exact L|].
  split; reflexivity.
Qed.

Section EncoderRun.
(** Any [sample] that updates the angle and then quantizes. *)
Variable sample : EncoderFloor -> F32.t -> option Sample.
Hypothesis sample_quantizes :
  forall e x, exists th, sample e x = quantize (set_theta_rad e th).

Lemma sample_some (e : EncoderFloor) (x : F32.t) (r : Sample) :
  sample e x = Some r ->
  synced (enc' r) /\
  in_long (C_prev (enc' r) - C_prev e) = true /\
  spdcnt r = long_to_int (C_prev (enc' r) - C_prev e) /\
  rad_per_cnt (enc' r) = rad_per_cnt e /\ Ts (enc' r) = Ts e.
Proof.
  destruct (sample_quantizes e x) as [th ->]. intros H.
  destruct (quantize_some _ _ H) as (C_now & Hc & He & Hl & Hs & _).
  rewrite He. unfold synced. cbn in *. repeat split; assumption.
Qed.

Lemma run_samples_conserves (xs : list F32.t) :
  forall e tr,
    run_samples sample e xs = Some tr ->
    Forall (fun r => synced (enc' r)) tr /\
    (sumZ (map spdcnt tr) - (C_prev (final_enc e tr) - C_prev e)) mod 2 ^ 32 = 0 /\
    (no_wrap (C_prev e) tr = true ->
     sumZ (map spdcnt tr) = C_prev (final_enc e tr) - C_prev e).
Proof.
  induction xs as [|x xs IH]; intros e tr H.
  - injection H as <-. cbn. split; [constructor|]. split; [|lia].
    now rewrite Z.sub_diag.
  - cbn in H. unfold bind in H.
    destruct (sample e x) as [r|] eqn:Hr; [|discriminate].
    destruct (run_samples sample (enc' r) xs) as [rest|] eqn:Hrest;
      [|discriminate].
    injection H as <-.
    destruct (sample_some _ _ _ Hr) as (Hsync & _ & Hs & _).
    destruct (IH _ _ Hrest) as (IH1 & IH2 & IH3).
    cbn [map sumZ fold_right no_wrap final_enc].
    fold (sumZ (map spdcnt rest)).
    split; [now constructor|]. split.
    + rewrite Hs.
      replace (long_to_int (C_prev (enc' r) - C_prev e) + sumZ (map spdcnt rest)
               - (C_prev (final_enc (enc' r) rest) - C_prev e))
        with ((long_to_int (C_prev (enc' r) - C_prev e)
               - (C_prev (enc' r) - C_prev e))
              + (sumZ (map spdcnt rest)
                 - (C_prev (final_enc (enc' r) rest) - C_prev (enc' r))))
        by lia.
      rewrite Z.add_mod, long_to_int_mod, IH2 by lia. reflexivity.
    + intros W. apply andb_prop in W. destruct W as [W1 W2].
      rewrite Hs, (long_to_int_fits _ W1), (IH3 W2). lia.
Qed.

Lemma final_enc_synced (e : EncoderFloor) (tr : list Sample) :
  synced e -> Forall (fun r => synced (enc' r)) tr -> synced (final_enc e tr).
Proof.
  intros He Htr. induction Htr as [|r tr Hr Htr IH] in e, He |- *.
  - exact He.
  - cbn [final_enc]. now apply IH.
Qed.
End EncoderRun.

Lemma my_digit_sample_quantizes (e : EncoderFloor) (x : F32.t) :
  exists th, EncMyDigit.sample e x = quantize (set_theta_rad e th).
Proof. eexists. reflexivity. Qed.

Lemma last_sample_quantizes (e : EncoderFloor) (x : F32.t) :
  exists th, EncLastCompare.sample e x = quantize (set_theta_rad e th).
Proof. eexists. reflexivity. Qed.

Lemma compare_sample_quantizes (e : EncoderFloor) (x : F32.t) :
  exists th, EncCompare.sample e x = quantize (set_theta_rad e th).
Proof. eexists. reflexivity. Qed.

(** A freshly constructed encoder stores the floor of its (zero) angle as
    soon as its [rad_per_cnt] is a non-zero number. *)
Lemma fresh_encoder_synced (Ts_ : F32.t) :
  is_nan (F32.mul INT2RADS Ts_) = false ->
  is_zero (F32.mul INT2RADS Ts_) = false ->
  synced (EncMyDigit.new_EncoderFloor Ts_) /\
  synced (EncLastCompare.new_EncoderFloor Ts_) /\
  synced (EncCompare.new_EncoderFloor Ts_).
Proof.
  unfold synced, count_of, EncMyDigit.new_EncoderFloor,
    EncLastCompare.new_EncoderFloor, EncCompare.new_EncoderFloor, mul_rn.
  cbn [theta_rad rad_per_cnt C_prev int2radfac Ts].
  destruct (F32.mul INT2RADS Ts_) as [[]|[]| |[] m e];
    try discriminate; intros _ _; repeat split; reflexivity.
Qed.

(** The encoder of the three [main]s, built with Ts = 0.005f. *)
Lemma new_encoder_synced :
  synced (EncMyDigit.new_EncoderFloor Ts_0_005) /\
  synced (EncLastCompare.new_EncoderFloor Ts_0_005) /\
  synced (EncCompare.new_EncoderFloor Ts_0_005).
Proof. apply fresh_encoder_synced; vm_compute; reflexivity. Qed.

(** C5, as amended.  For every run of consecutive [sample()] calls that
    starts from an encoder whose [C_prev] is the floor of
    [theta_rad / rad_per_cnt] (as a freshly constructed one is) and meets no
    undefined conversion: after every call [C_prev] equals
    [floor(theta_rad / rad_per_cnt)]; the sum of the emitted [spdcnt] equals
    [floor(theta_rad(N) / rad_per_cnt) - floor(theta_rad(0) / rad_per_cnt)]
    modulo 2^32; and the two are equal whenever every per-sample difference
    [C_now - C_prev] fits the 32-bit [int].  The encoders of all three
    files. *)
Theorem encoder_conservation
        (e0 : EncoderFloor) (xs : list F32.t) (tr : list Sample) :
  synced e0 ->
  run_samples EncMyDigit.sample e0 xs = Some tr \/
  run_samples EncLastCompare.sample e0 xs = Some tr \/
  run_samples EncCompare.sample e0 xs = Some tr ->
  Forall (fun r => count_of (enc' r) = Some (C_prev (enc' r))) tr /\
  exists c0 cN,
    count_of e0 = Some c0 /\
    count_of (final_enc e0 tr) = Some cN /\
    (sumZ (map spdcnt tr) - (cN - c0)) mod 2 ^ 32 = 0 /\
    (no_wrap (C_prev e0) tr = true -> sumZ (map spdcnt tr) = cN - c0).
Proof.
  intros H0 Hrun.
  assert (R : Forall (fun r => synced (enc' r)) tr /\
              (sumZ (map spdcnt tr)
               - (C_prev (final_enc e0 tr) - C_prev e0)) mod 2 ^ 32 = 0 /\
              (no_wrap (C_prev e0) tr = true ->
               sumZ (map spdcnt tr) = C_prev (final_enc e0 tr) - C_prev e0)).
  { destruct Hrun as [Hrun|[Hrun|Hrun]].
    - exact (run_samples_conserves EncMyDigit.sample
               my_digit_sample_quantizes xs e0 tr Hrun).
    - exact (run_samples_conserves EncLastCompare.sample
               last_sample_quantizes xs e0 tr Hrun).
    - exact (run_samples_conserves EncCompare.sample
               compare_sample_quantizes xs e0 tr Hrun). }
  destruct R as (R1 & R2 & R3). split; [exact R1|].
  exists (C_prev e0), (C_prev (final_enc e0 tr)).
  split; [exact H0|]. split; [|split; assumption].
  exact (final_enc_synced e0 tr H0 R1).
Qed.

Lemma encoder_conservation_witness :
  exists tr,
    run_samples EncMyDigit.sample (EncMyDigit.new_EncoderFloor Ts_0_005)
                [f_1000; f_3; f_7] = Some tr /\
    no_wrap 0 tr = true /\
    map spdcnt tr = [1063; 3; 7] /\
    Forall (fun r => count_of (enc' r) = Some (C_prev (enc' r))) tr.
Proof.
  eexists. split; [vm_compute; reflexivity|].
  split; [vm_compute; reflexivity|]. split; [vm_compute; reflexivity|].
  refine (proj1 (encoder_conservation
                   (EncMyDigit.new_EncoderFloor Ts_0_005)
                   [f_1000; f_3; f_7] _ _ _)).
  - vm_compute; reflexivity.
  - left. vm_compute; reflexivity.
Defined.

(** C5, the claim as stated fails: one sample at 2^32 rad/s on a fresh
    encoder emits 271248896 although the floor went from 0 to
    4566216192. *)
Lemma encoder_sum_wraps :
  exists tr,
    run_samples EncMyDigit.sample (EncMyDigit.new_EncoderFloor Ts_0_005)
                [f_2p32] = Some tr /\
    count_of (EncMyDigit.new_EncoderFloor Ts_0_005) = Some 0 /\
    count_of (final_enc (EncMyDigit.new_EncoderFloor Ts_0_005) tr)
    = Some 4566216192 /\
    sumZ (map spdcnt tr) = 271248896 /\
    sumZ (map spdcnt tr) <> 4566216192 - 0.
Proof.
  eexists. split; [vm_compute; reflexivity|].
  repeat split; try (vm_compute; reflexivity).
  vm_compute. discriminate.
Qed.

(** ** Floor and conversion on concrete values *)

Example floor_values :
  F32.to_long (F32.floor (F32.lit 25 10)) = Some 2 /\
  F32.to_long (F32.floor (F32.neg (F32.lit 25 10))) = Some (-3) /\
  F32.to_long (F32.floor (F32.neg (F32.lit 1 1000))) = Some (-1) /\
  F32.floor (S754_zero true) = S754_zero true /\
  F32.to_long (F32.neg (F32.lit 25 10)) = Some (-2) /\
  F32.to_long (F32.of_int (2 ^ 63)) = None /\
  F32.to_long S754_nan = None.
Proof. repeat split; vm_compute; reflexivity. Qed.

(** ** The angle update *)

(** The fused operation on concrete operands: [fmaf(a, a, -(a*a))] is the
    rounding error of the product, not zero. *)
Example fmaf_keeps_product_exact :
  let a := F32.lit 1 10 in
  F32.fmaf a a (F32.neg (F32.mul a a)) = S754_finite true 14763950 (-55) /\
  F32.add (F32.mul a a) (F32.neg (F32.mul a a)) = F32.zero.
Proof. split; vm_compute; reflexivity. Qed.

(** C9, as amended.  In the encoder of [PID_MY_DIGIT.cpp] and
    [pid_last_compare.cpp] every successful [sample] call updates the angle
    by one fused multiply-add, [theta_rad <- fma(x_true, Ts, theta_rad)];
    in the encoder of [pid_compare.cpp] the update is the rounded product
    followed by a rounded addition. *)
Theorem sample_angle_update (e : EncoderFloor) (x_true : F32.t) (r : Sample) :
  (EncMyDigit.sample e x_true = Some r ->
   theta_rad (enc' r) = F32.fmaf x_true (Ts e) (theta_rad e)) /\
  (EncLastCompare.sample e x_true = Some r ->
   theta_rad (enc' r) = F32.fmaf x_true (Ts e) (theta_rad e)) /\
  (EncCompare.sample e x_true = Some r ->
   theta_rad (enc' r) = F32.add (theta_rad e) (F32.mul x_true (Ts e))).
Proof.
  split; [|split]; intros H;
    destruct (quantize_some _ _ H) as (C_now & _ & -> & _); reflexivity.
Qed.

Lemma sample_angle_update_witness :
  exists r,
    EncMyDigit.sample enc_after_3 f_7 = Some r /\
    theta_rad (enc' r) = F32.fmaf f_7 (Ts enc_after_3) (theta_rad enc_after_3).
Proof.
  eexists. split; [vm_compute; reflexivity|].
  apply (proj1 (sample_angle_update enc_after_3 f_7 _)).
  vm_compute; reflexivity.
Defined.

(** C9, the claim as stated fails: in [pid_compare.cpp], sampling 7 rad/s
    after 3 rad/s leaves an angle that is not the fused result. *)
Lemma compare_sample_not_fused :
  exists r,
    EncCompare.sample enc_after_3 f_7 = Some r /\
    theta_rad (enc' r) <> F32.fmaf f_7 (Ts enc_after_3) (theta_rad enc_after_3).
Proof.
  eexists. split; [vm_compute; reflexivity|]. vm_compute. discriminate.
Qed.

(* ================================================================== *)
(** * Coefficient derivation *)
(* ================================================================== *)

(** Exposes the straight-line code of [compute_coeffs]. *)
Ltac unfold_coeffs :=
  cbv beta iota zeta delta
    [App.compute_coeffs App.coeffs_double App.to_single
     App.compute_time_constants App.den_of App.Ts_over_Ti_of
     App.a0 App.c1 App.c2 App.c3 App.c4 App.c5 App.c6 App.c7a App.c7b
     fst snd].

(** The representative tuning reproduces six of the nine bit patterns that
    the simulation files hard-code. *)
Example representative_tuning_coeffs :
  let k := App.compute_coeffs Tuning.Kp Tuning.Ki Tuning.Kd Tuning.N
                              Tuning.one F64.zero Tuning.twelve in
  App.c1 k = C1 /\ App.c2 k = C2 /\ App.c4 k = C4 /\
  App.c5 k = C5 /\ App.c6 k = C6 /\ App.c7a k = C7A.
Proof. repeat split; vm_compute; reflexivity. Qed.

(** ** The guard on [den] *)

(** The guarded coefficient: [a0] is +0 whenever [den > 0] fails. *)
Lemma a0_zero_when_den_not_positive (Kp Ki Kd N b c Kb : F64.t) :
  let tc := App.compute_time_constants Kp Ki Kd N in
  App.gt (App.den_of (snd (fst tc)) (snd tc)) App.d0 = false ->
  App.a0 (App.coeffs_double Kp Ki Kd N b c Kb) = F64.zero /\
  App.a0 (App.compute_coeffs Kp Ki Kd N b c Kb) = F32.zero.
Proof.
  unfold_coeffs. intros H. rewrite H. split; reflexivity.
Qed.

(** C2, the code at the failing input Kp=1, Ki=0, Kd=-0.005, N=1, b=1, c=0,
    Kb=0: [den] is exactly 0, [a0] falls back to 0, and the six unguarded
    coefficients are NaN or infinite. *)
Theorem coeffs_unguarded_at_zero_den :
  let tc := App.compute_time_constants Tuning.one F64.zero Tuning.m0_005
                                       Tuning.one in
  let k := App.compute_coeffs Tuning.one F64.zero Tuning.m0_005 Tuning.one
                              Tuning.one F64.zero F64.zero in
  App.den_of (snd (fst tc)) (snd tc) = F64.zero /\
  App.a0 k = F32.zero /\
  App.c1 k = S754_nan /\
  App.c2 k = S754_infinity false /\
  App.c3 k = S754_infinity true /\
  App.c4 k = S754_infinity false /\
  App.c5 k = S754_infinity true /\
  App.c6 k = S754_infinity false.
Proof. repeat split; vm_compute; reflexivity. Qed.

(** With [den < 0] nothing but [a0] falls back either: Kp=1, Kd=-1, N=1
    gives [den = -0.995] and a finite non-zero [c3]. *)
Example coeffs_unguarded_at_negative_den :
  let Kd := F64.of_int (-1) in
  let tc := App.compute_time_constants Tuning.one F64.zero Kd Tuning.one in
  let k := App.compute_coeffs Tuning.one F64.zero Kd Tuning.one
                              Tuning.one F64.zero F64.zero in
  F64.ltb (App.den_of (snd (fst tc)) (snd tc)) F64.zero = true /\
  App.a0 k = F32.zero /\
  is_zero (App.c3 k) = false /\ is_finite (App.c3 k) = true.
Proof. repeat split; vm_compute; reflexivity. Qed.

(** ** Tap coupling *)


(** ** Degenerate gains *)

Lemma is_zero_of_double (x : spec_float) :
  is_zero x = true -> is_zero (F32.of_double x) = true.
Proof. destruct x; try discriminate; reflexivity. Qed.

Lemma is_zero_neg (x : spec_float) : is_zero (F64.neg x) = is_zero x.
Proof. destruct x; reflexivity. Qed.

(** Without integral gain both anti-windup taps vanish. *)
Lemma anti_windup_taps_zero (Kp Ki Kd N b c Kb : F64.t) :
  is_zero Ki = true -> is_finite Kb = true ->
  is_zero (App.c7a (App.coeffs_double Kp Ki Kd N b c Kb)) = true /\
  is_zero (App.c7a (App.compute_coeffs Kp Ki Kd N b c Kb)) = true /\
  (is_finite (App.a0 (App.coeffs_double Kp Ki Kd N b c Kb)) = true ->
   is_zero (App.c7b (App.coeffs_double Kp Ki Kd N b c Kb)) = true /\
   is_zero (App.c7b (App.compute_coeffs Kp Ki Kd N b c Kb)) = true).
Proof.
  intros HKi HKb.
  assert (T : is_finite App.Ts_sec = true) by (vm_compute; reflexivity).
  assert (A : is_zero (F64.mul (F64.mul Ki Kb) App.Ts_sec) = true).
  { apply SFmul_zero_l; [now apply SFmul_zero_l|exact T]. }
  unfold_coeffs. split; [exact A|]. split; [now apply is_zero_of_double|].
  intros H0.
  match goal with
  | |- is_zero (F64.mul (F64.neg ?x) ?y) = true /\ _ =>
      assert (B : is_zero (F64.mul (F64.neg x) y) = true)
        by (apply SFmul_zero_l; [now rewrite is_zero_neg|exact H0])
  end.
  split; [exact B|now apply is_zero_of_double].
Qed.

(* ================================================================== *)
(** * Exit status of the harnesses *)
(* ================================================================== *)

(** ** Controller against controller ([pid_compare.cpp]) *)

Lemma iteration_mismatch (n : Z) (l l' : Compare.Loop) (row : Compare.Row) :
  Compare.iteration n l = Some (row, l') ->
  Compare.mismatch_cnt l'
  = Compare.mismatch_cnt l + (if Compare.row_ok row then 0 else 1).
Proof.
  unfold Compare.iteration, bind.
  destruct (EncCompare.sample _ _) as [r|]; [|discriminate].
  destruct (Compare.calculate _ _ _) as [y_g pg].
  destruct (PidCompare.step _ _ _) as [y_d pd].
  destruct (F32.ltb (Compare.max_abs_err l) _);
    intros H; injection H as <- <-; cbn [Compare.row_ok Compare.mismatch_cnt];
    destruct (_ || _); cbn [negb]; lia.
Qed.

Lemma loop_mismatch (k : nat) :
  forall n l rows l',
    Compare.loop k n l = Some (rows, l') ->
    Compare.mismatch_cnt l'
    = Compare.mismatch_cnt l
      + Z.of_nat (length (filter (fun r => negb (Compare.row_ok r)) rows)).
Proof.
  induction k as [|k IH]; intros n l rows l' H.
  - injection H as <- <-. cbn. lia.
  - cbn [Compare.loop] in H. unfold bind in H.
    destruct (Compare.iteration n l) as [[row l1]|] eqn:Hit; [|discriminate].
    cbn [fst snd] in H.
    destruct (Compare.loop k (n + 1) l1) as [[rows1 l2]|] eqn:Hl;
      [|discriminate].
    injection H as <- <-.
    rewrite (IH _ _ _ _ Hl), (iteration_mismatch _ _ _ _ Hit).
    cbn [filter]. destruct (Compare.row_ok row); cbn [negb length]; lia.
Qed.

Lemma filter_negb_empty {A : Type} (f : A -> bool) (l : list A) :
  length (filter (fun a => negb (f a)) l) = O <-> forallb f l = true.
Proof.
  induction l as [|a l IH]; cbn; [tauto|].
  destruct (f a); cbn; [exact IH|]. split; discriminate.
Qed.

(** In controller-against-controller mode the exit status is zero exactly
    when every printed row is within tolerance. *)
Lemma compare_main_exit_status (rows : list Compare.Row) (st : Z) :
  Compare.main = Some (rows, st) ->
  (st = 0 <-> forallb Compare.row_ok rows = true) /\ (st = 0 \/ st = 1).
Proof.
  unfold Compare.main, bind.
  destruct (Compare.loop Compare.SAMPLES 0 Compare.init) as [[rs l]|] eqn:Hl;
    [|discriminate].
  intros H. injection H as <- <-. cbn [fst snd].
  pose proof (loop_mismatch _ _ _ _ _ Hl) as M.
  change (Compare.mismatch_cnt Compare.init) with 0 in M.
  unfold Compare.exit_status. rewrite <- filter_negb_empty.
  destruct (Compare.mismatch_cnt l =? 0) eqn:E.
  - apply Z.eqb_eq in E. split; [|now left]. split; [lia|reflexivity].
  - apply Z.eqb_neq in E. split; [|now right]. split; [discriminate|lia].
Qed.

(** The run itself: all 100 rows agree and the status is 0. *)
Example compare_main_runs :
  exists rows, Compare.main = Some (rows, 0) /\ length rows = 100%nat.
Proof. eexists. split; vm_compute; reflexivity. Qed.

(** ** Controller against golden trace ([pid_last_compare.cpp]) *)

(** The simulation meets no undefined conversion and yields 101 samples. *)
Lemma y_sim_defined :
  exists sim, LastCompare.y_sim = Some sim /\ length sim = 101%nat.
Proof. eexists. split; vm_compute; reflexivity. Qed.

(** With a non-empty reference the exit status is 0 whatever the tally. *)
Lemma golden_main_exit_status (y_ref : list F32.t) :
  y_ref <> [] ->
  exists t, LastCompare.main y_ref = Some (Some t, 0).
Proof.
  intros H. unfold LastCompare.main, bind.
  destruct y_sim_defined as (sim & -> & _).
  destruct y_ref; [now elim H|]. eexists. reflexivity.
Qed.

(** C3, the code at the failing input: a golden trace holding the single
    value 1000 is compared with the first simulated output (11.04); the
    sample is out of tolerance, the tally is PASS=0 FAIL=1, and the exit
    status is 0. *)
Theorem golden_main_zero_despite_fail :
  LastCompare.main [f_1000]
  = Some (Some {| LastCompare.pass := 0;
                  LastCompare.fail := 1;
                  LastCompare.max_err := S754_finite false 16203121 (-14);
                  LastCompare.max_i := 0 |},
          0).
Proof. vm_compute. reflexivity. Qed.
(* ================================================================== *)
(** * The driver's helpers ([app.c]) *)
(* ================================================================== *)

(** ** Bit patterns: [f2u] and [u2f] *)

(** Placing [b] below [a] shifted by [n] bits is an addition. *)
Lemma lor_shiftl_add (a b n : Z) :
  0 <= n -> 0 <= b < 2 ^ n -> Z.lor (Z.shiftl a n) b = a * 2 ^ n + b.
Proof.
  intros Hn Hb. rewrite <- Z.shiftl_mul_pow2 by assumption.
  rewrite <- Z.add_lor_land.
  assert (E : Z.land (Z.shiftl a n) b = 0).
  { apply Z.bits_inj'. intros i Hi. rewrite Z.land_spec, Z.bits_0.
    destruct (Z.lt_ge_cases i n) as [L|G].
    - rewrite Z.shiftl_spec_low by assumption. reflexivity.
    - destruct (Z.eq_dec b 0) as [->|Hb0].
      + rewrite Z.bits_0. apply andb_false_r.
      + rewrite (Z.bits_above_log2 b i); [apply andb_false_r|lia|].
        apply Z.log2_lt_pow2; [lia|].
        apply Z.lt_le_trans with (2 ^ n); [lia|].
        apply Z.pow_le_mono_r; lia. }
  rewrite E. lia.
Qed.

Lemma testbit_31 (u : Z) : 0 <= u < 2 ^ 32 ->
  Z.testbit u 31 = (2 ^ 31 <=? u).
Proof.
  intros H. rewrite Z.testbit_odd, Z.shiftr_div_pow2 by lia.
  destruct (2 ^ 31 <=? u) eqn:E.
  - apply Z.leb_le in E. replace (u / 2 ^ 31) with 1; [reflexivity|].
    apply Z.div_unique with (u - 2 ^ 31); lia.
  - apply Z.leb_gt in E. rewrite Z.div_small by lia. reflexivity.
Qed.

Lemma digits2_pos_unique (p : positive) (k : Z) :
  2 ^ (k - 1) <= Zpos p < 2 ^ k -> Zpos (digits2_pos p) = k.
Proof.
  intros [H1 H2]. pose proof (digits2_pos_bounds p) as [B1 B2].
  assert (0 < k).
  { destruct (Z.lt_ge_cases 0 k); [assumption|].
    assert (2 ^ k <= 2 ^ 0) by (apply Z.pow_le_mono_r; lia).
    change (2 ^ 0) with 1 in *. lia. }
  assert (L1 : 2 ^ (k - 1) < 2 ^ Zpos (digits2_pos p)) by lia.
  assert (L2 : 2 ^ (Zpos (digits2_pos p) - 1) < 2 ^ k) by lia.
  apply Z.pow_lt_mono_r_iff in L1; [|lia|lia].
  apply Z.pow_lt_mono_r_iff in L2; [|lia|lia]. lia.
Qed.

Lemma pattern_fields (s : bool) (E f : Z) :
  0 <= E < 256 -> 0 <= f < 2 ^ 23 ->
  0 <= pattern s E f < 2 ^ 32 /\
  Z.testbit (pattern s E f) 31 = s /\
  Z.land (Z.shiftr (pattern s E f) 23) 0xFF = E /\
  Z.land (pattern s E f) 0x7FFFFF = f.
Proof.
  intros HE Hf.
  assert (Hu : 0 <= pattern s E f < 2 ^ 32)
    by (unfold pattern; destruct s; lia).
  split; [exact Hu|]. split; [|split].
  - rewrite testbit_31 by exact Hu. unfold pattern.
    destruct s; [apply Z.leb_le|apply Z.leb_gt]; lia.
  - change 0xFF with (Z.ones 8). rewrite Z.land_ones, Z.shiftr_div_pow2 by lia.
    replace (pattern s E f / 2 ^ 23) with ((if s then 1 else 0) * 2 ^ 8 + E).
    + change (2 ^ 8) with 256. destruct s.
      * replace (1 * 256 + E) with (E + 1 * 256) by lia.
        rewrite Z.mod_add by lia. apply Z.mod_small; lia.
      * apply Z.mod_small; lia.
    + apply Z.div_unique with f; [lia|]. unfold pattern.
      change (2 ^ 31) with (2 ^ 8 * 2 ^ 23). lia.
  - change 0x7FFFFF with (Z.ones 23). rewrite Z.land_ones by lia.
    symmetry. apply Z.mod_unique with ((if s then 1 else 0) * 2 ^ 8 + E);
      [lia|]. unfold pattern. change (2 ^ 31) with (2 ^ 8 * 2 ^ 23). lia.
Qed.

(** Every 32-bit value is such a pattern. *)
Lemma pattern_exists (u : Z) :
  0 <= u < 2 ^ 32 ->
  exists s E f, 0 <= E < 256 /\ 0 <= f < 2 ^ 23 /\ u = pattern s E f.
Proof.
  intros H. exists (2 ^ 31 <=? u), ((u / 2 ^ 23) mod 256), (u mod 2 ^ 23).
  pose proof (Z.mod_pos_bound (u / 2 ^ 23) 256 ltac:(lia)).
  pose proof (Z.mod_pos_bound u (2 ^ 23) ltac:(lia)).
  split; [assumption|]. split; [assumption|].
  pose proof (Z.div_mod u (2 ^ 23) ltac:(lia)) as D1.
  pose proof (Z.div_mod (u / 2 ^ 23) 256 ltac:(lia)) as D2.
  assert (Q2 : u / 2 ^ 23 / 256 = (if 2 ^ 31 <=? u then 1 else 0)).
  { rewrite Z.div_div by lia. change (2 ^ 23 * 256) with (2 ^ 31).
    destruct (2 ^ 31 <=? u) eqn:E.
    - apply Z.leb_le in E. symmetry.
      apply Z.div_unique with (u - 2 ^ 31); lia.
    - apply Z.leb_gt in E. apply Z.div_small. lia. }
  rewrite Q2 in D2. unfold pattern.
  set (q := u / 2 ^ 23) in *. set (r := u mod 2 ^ 23) in *.
  set (E := q mod 256) in *. rewrite D1 at 1. rewrite D2.
  change (2 ^ 31) with (256 * 2 ^ 23). destruct (2 ^ 31 <=? u); lia.
Qed.

(** [f32_from_hex] on a pattern given by its fields. *)
Lemma f32_from_hex_pattern (s : bool) (E f : Z) :
  0 <= E < 256 -> 0 <= f < 2 ^ 23 ->
  f32_from_hex (pattern s E f)
  = if E =? 0xFF then (if f =? 0 then S754_infinity s else S754_nan)
    else if E =? 0 then
      match f with Zpos p => S754_finite s p (-149) | _ => S754_zero s end
    else
      match f + 2 ^ 23 with
      | Zpos p => S754_finite s p (E - 150)
      | _ => S754_nan
      end.
Proof.
  intros HE Hf. destruct (pattern_fields s E f HE Hf) as (_ & F1 & F2 & F3).
  unfold f32_from_hex. rewrite F1, F2, F3.
  replace (Z.lor f 0x800000) with (f + 2 ^ 23); [reflexivity|].
  rewrite Z.lor_comm. change 0x800000 with (Z.shiftl 1 23).
  rewrite lor_shiftl_add by lia. lia.
Qed.

(** [f2u] of a finite number, by fields. *)
Lemma f2u_subnormal (s : bool) (m : positive) (e : Z) :
  Zpos m < 2 ^ 23 -> AppDriver.f2u (S754_finite s m e) = pattern s 0 (Zpos m).
Proof.
  intros H. unfold AppDriver.f2u.
  change 0x800000 with (2 ^ 23).
  destruct (Z.ltb_spec (Zpos m) (2 ^ 23)) as [_|G]; [|lia].
  unfold pattern. destruct s.
  - rewrite lor_shiftl_add by lia. lia.
  - rewrite Z.lor_0_l. lia.
Qed.

Lemma f2u_normal (s : bool) (m : positive) (e : Z) :
  2 ^ 23 <= Zpos m < 2 ^ 24 -> 0 <= e + 150 < 256 ->
  AppDriver.f2u (S754_finite s m e) = pattern s (e + 150) (Zpos m - 2 ^ 23).
Proof.
  intros H He. unfold AppDriver.f2u.
  change 0x800000 with (2 ^ 23).
  destruct (Z.ltb_spec (Zpos m) (2 ^ 23)) as [L|_]; [lia|].
  assert (F : Z.land (Zpos m) 0x7FFFFF = Zpos m - 2 ^ 23).
  { change 0x7FFFFF with (Z.ones 23). rewrite Z.land_ones by lia.
    symmetry. apply Z.mod_unique with 1; lia. }
  rewrite F. rewrite (lor_shiftl_add (e + 150)) by lia.
  unfold pattern. destruct s.
  - rewrite lor_shiftl_add; [lia|lia|].
    change (2 ^ 31) with (256 * 2 ^ 23). lia.
  - rewrite Z.lor_0_l. lia.
Qed.

(** The exponent and mantissa ranges of a valid binary32 number. *)
Lemma valid_binary32_finite (s : bool) (m : positive) (e : Z) :
  valid_binary 24 128 (S754_finite s m e) = true ->
  (e = -149 /\ Zpos m < 2 ^ 23) \/
  (2 ^ 23 <= Zpos m < 2 ^ 24 /\ -149 <= e <= 104).
Proof.
  unfold valid_binary, bounded, canonical_mantissa, fexp, emin.
  intros H. apply andb_true_iff in H as [H1 H2].
  apply Z.leb_le in H2. apply Z.eqb_eq in H1.
  pose proof (digits2_pos_bounds m) as [B1 B2].
  destruct (Z.lt_ge_cases (Zpos (digits2_pos m)) 24) as [L|G].
  - left. split; [lia|].
    apply Z.lt_le_trans with (2 ^ Zpos (digits2_pos m)); [lia|].
    apply Z.pow_le_mono_r; lia.
  - right. assert (D : Zpos (digits2_pos m) = 24) by lia.
    rewrite D in B1, B2. change (24 - 1) with 23 in B1. lia.
Qed.

Lemma valid_binary32_of_ranges (s : bool) (m : positive) (e : Z) :
  (e = -149 /\ Zpos m < 2 ^ 23) \/
  (2 ^ 23 <= Zpos m < 2 ^ 24 /\ -149 <= e <= 104) ->
  valid_binary 24 128 (S754_finite s m e) = true.
Proof.
  unfold valid_binary, bounded, canonical_mantissa, fexp, emin.
  intros H. apply andb_true_iff. split; [|apply Z.leb_le; lia].
  pose proof (digits2_pos_bounds m) as [B1 B2].
  destruct H as [[-> H]|[H He]].
  - assert (Zpos (digits2_pos m) <= 23).
    { assert (L : 2 ^ (Zpos (digits2_pos m) - 1) < 2 ^ 23) by lia.
      apply Z.pow_lt_mono_r_iff in L; lia. }
    replace (Z.max _ _) with (-149) by lia. reflexivity.
  - rewrite (digits2_pos_unique m 24) by (change (24 - 1) with 23; lia).
    replace (Z.max _ _) with e by lia.
    apply Z.eqb_refl.
Qed.

(** X1.  Writing a [float] to a register and reading the register back as a
    [float] gives the value written: [u2f (f2u x) = x] for every binary32
    value [x] (a zero of either sign, a subnormal or normal number, an
    infinity; the NaN of the model carries no payload).  [f2u x] is a 32-bit
    pattern. *)
Theorem u2f_f2u (x : F32.t) :
  valid_binary 24 128 x = true ->
  AppDriver.u2f (AppDriver.f2u x) = x /\ 0 <= AppDriver.f2u x < 2 ^ 32.
Proof.
  intros V. unfold AppDriver.u2f. destruct x as [s|s| |s m e].
  - destruct s; split; (reflexivity || (cbn; lia)).
  - destruct s; split; (reflexivity || (cbn; lia)).
  - split; [reflexivity|cbn; lia].
  - destruct (valid_binary32_finite s m e V) as [[-> H]|[H He]].
    + rewrite f2u_subnormal by exact H.
      split; [|apply pattern_fields; lia].
      rewrite f32_from_hex_pattern by lia. reflexivity.
    + rewrite f2u_normal by lia.
      split; [|apply pattern_fields; lia].
      rewrite f32_from_hex_pattern by lia.
      destruct (Z.eqb_spec (e + 150) 0xFF) as [Q|_]; [lia|].
      destruct (Z.eqb_spec (e + 150) 0) as [Q|_]; [lia|].
      replace (Zpos m - 2 ^ 23 + 2 ^ 23) with (Zpos m) by lia.
      replace (e + 150 - 150) with e by lia. reflexivity.
Qed.

Lemma u2f_f2u_witness :
  valid_binary 24 128 neg_denorm_min = true /\
  AppDriver.u2f (AppDriver.f2u neg_denorm_min) = neg_denorm_min /\
  0 <= AppDriver.f2u neg_denorm_min < 2 ^ 32.
Proof. split; [reflexivity|apply (u2f_f2u neg_denorm_min); reflexivity]. Defined.

(** X2.  Every 32-bit pattern read from a register is a binary32 value, and
    unless that value is a NaN, writing it back gives the same pattern. *)
Theorem f2u_u2f (u : Z) :
  0 <= u < 2 ^ 32 ->
  valid_binary 24 128 (AppDriver.u2f u) = true /\
  (is_nan (AppDriver.u2f u) = false -> AppDriver.f2u (AppDriver.u2f u) = u).
Proof.
  intros Hu. destruct (pattern_exists u Hu) as (s & E & f & HE & Hf & ->).
  unfold AppDriver.u2f. rewrite f32_from_hex_pattern by assumption.
  destruct (Z.eqb_spec E 0xFF) as [->|N1].
  - destruct (Z.eqb_spec f 0) as [->|N2].
    + split; [reflexivity|]. intros _. destruct s; reflexivity.
    + split; [reflexivity|]. discriminate.
  - destruct (Z.eqb_spec E 0) as [->|N2].
    + destruct f as [|p|p]; [| |lia].
      * split; [reflexivity|]. intros _. destruct s; reflexivity.
      * split; [apply valid_binary32_of_ranges; left; lia|].
        intros _. apply f2u_subnormal. lia.
    + destruct (f + 2 ^ 23) as [|p|p] eqn:Q; [lia| |lia].
      split; [apply valid_binary32_of_ranges; right; lia|].
      intros _. rewrite f2u_normal by lia. f_equal; lia.
Qed.

Lemma f2u_u2f_witness :
  0 <= 0x3C864B8B < 2 ^ 32 /\
  valid_binary 24 128 (AppDriver.u2f 0x3C864B8B) = true /\
  (is_nan (AppDriver.u2f 0x3C864B8B) = false ->
   AppDriver.f2u (AppDriver.u2f 0x3C864B8B) = 0x3C864B8B).
Proof. split; [lia|apply (f2u_u2f 0x3C864B8B); lia]. Defined.

(** ** The status register and the unit conversion *)

(** X3.  The speed count decoded from the status register is the 16-bit
    two's-complement reading of the register's low half: it lies in
    [-32768, 32767], the upper 16 bits of the register do not influence it,
    and a count [c] of that range stored as [c mod 2^16] below any upper
    half [hi] is read back as [c]. *)
Theorem status_spdcnt_decodes (hi c : Z) :
  - 2 ^ 15 <= c < 2 ^ 15 ->
  AppDriver.status_spdcnt (Z.lor (Z.shiftl hi 16) (c mod 2 ^ 16)) = c /\
  forall raw, - 2 ^ 15 <= AppDriver.status_spdcnt raw < 2 ^ 15.
Proof.
  intros Hc. split.
  - unfold AppDriver.status_spdcnt, AppDriver.to_int16.
    change 0xFFFF with (Z.ones 16).
    pose proof (Z.mod_pos_bound c (2 ^ 16) ltac:(lia)) as Hm.
    assert (E : Z.land (Z.lor (Z.shiftl hi 16) (c mod 2 ^ 16)) (Z.ones 16)
                = c mod 2 ^ 16).
    { rewrite Z.land_ones, lor_shiftl_add by lia.
      rewrite (Z.add_comm (hi * 2 ^ 16)), Z.mod_add by lia.
      apply Z.mod_mod; lia. }
    rewrite E, Zplus_mod_idemp_l, Z.mod_small by lia. lia.
  - intros raw. unfold AppDriver.status_spdcnt, AppDriver.to_int16.
    pose proof (Z.mod_pos_bound (Z.land raw 0xFFFF + 2 ^ 15) (2 ^ 16)
                  ltac:(lia)). lia.
Qed.

Lemma status_spdcnt_decodes_witness :
  - 2 ^ 15 <= -2 < 2 ^ 15 /\
  AppDriver.status_spdcnt (Z.lor (Z.shiftl 0x1234 16) (-2 mod 2 ^ 16)) = -2 /\
  forall raw, - 2 ^ 15 <= AppDriver.status_spdcnt raw < 2 ^ 15.
Proof. split; [lia|apply (status_spdcnt_decodes 0x1234 (-2)); lia]. Defined.

(** Negating the sign given to the rounding negates the result. *)
Lemma binary_round_aux_opp (prec emax : Z) (s : bool) (m e : Z) (l : location) :
  binary_round_aux prec emax (negb s) m e l
  = SFopp (binary_round_aux prec emax s m e l).
Proof.
  unfold binary_round_aux.
  destruct (shr_fexp prec emax m e l) as [mrs1 e1].
  destruct (shr_fexp prec emax _ e1 loc_Exact) as [mrs2 e2].
  destruct (shr_m mrs2); [reflexivity| |reflexivity].
  destruct (e2 <=? emax - prec); reflexivity.
Qed.

Lemma SFmul_opp_l (prec emax : Z) (x y : spec_float) :
  SFmul prec emax (SFopp x) y = SFopp (SFmul prec emax x y).
Proof.
  destruct x as [sx|sx| |sx mx ex], y as [sy|sy| |sy my ey]; cbn;
    try reflexivity; try (now destruct sx, sy).
  rewrite <- binary_round_aux_opp. now destruct sx, sy.
Qed.

(** The factor [(float)(TWO_PI/60.0)] of [rpm_to_radps]. *)
Lemma rpm_factor_value :
  F32.of_double (F64.div AppDriver.TWO_PI (F64.of_int 60))
  = S754_finite false 14055248 (-27).
Proof. vm_compute. reflexivity. Qed.


(** Rounding never turns a non-negative mantissa into a NaN, whatever the
    format. *)
Lemma shr_nonneg (mrs : shr_record) (e n : Z) :
  0 <= shr_m mrs -> 0 <= shr_m (fst (shr mrs e n)).
Proof.
  intros H. unfold shr. destruct n as [|p|p]; cbn [fst]; try assumption.
  rewrite iter_shr_1_div by assumption. apply Z.div_pos; lia.
Qed.

Lemma shr_fexp_nonneg (prec emax m e : Z) (l : location) :
  0 <= m -> 0 <= shr_m (fst (shr_fexp prec emax m e l)).
Proof.
  intros H. unfold shr_fexp. apply shr_nonneg.
  rewrite shr_m_record_of_loc. exact H.
Qed.

Lemma round_nearest_even_nonneg (m : Z) (l : location) :
  0 <= m -> 0 <= round_nearest_even m l.
Proof.
  intros H. destruct l as [|[]]; cbn [round_nearest_even]; try lia.
  destruct (Z.even m); lia.
Qed.

Lemma binary_round_aux_signbit
      (prec emax : Z) (s : bool) (m e : Z) (l : location) :
  0 <= m -> signbit_is s (binary_round_aux prec emax s m e l) = true.
Proof.
  intros H. unfold binary_round_aux.
  pose proof (shr_fexp_nonneg prec emax m e l H) as H1.
  destruct (shr_fexp prec emax m e l) as [mrs1 e1]. cbn [fst] in H1.
  pose proof (shr_fexp_nonneg prec emax _ e1 loc_Exact
                (round_nearest_even_nonneg _ (loc_of_shr_record mrs1) H1)) as H2.
  destruct (shr_fexp prec emax _ e1 loc_Exact) as [mrs2 e2]. cbn [fst] in H2.
  destruct (shr_m mrs2); [| |lia]; [|destruct (e2 <=? emax - prec)];
    cbn; now destruct s.
Qed.

Lemma signbit_is_not_nan (s : bool) (x : spec_float) :
  signbit_is s x = true -> is_nan x = false.
Proof. destruct x; [reflexivity|reflexivity|discriminate|reflexivity]. Qed.

Lemma signbit_is_eqb (s0 s : bool) (x : spec_float) :
  signbit_is s0 x = true -> signbit_is s x = Bool.eqb s s0.
Proof. destruct x as [[]|[]| |[] ? ?], s0, s; cbn; congruence. Qed.

(** X4.  [rpm_to_radps] is odd, keeps the sign of its argument (of zeros
    too), and yields a NaN only for a NaN: the factor [(float)(TWO_PI/60.0)]
    is a positive finite constant. *)
Theorem rpm_to_radps_odd (rpm : F32.t) :
  AppDriver.rpm_to_radps (F32.neg rpm) = F32.neg (AppDriver.rpm_to_radps rpm) /\
  is_nan (AppDriver.rpm_to_radps rpm) = is_nan rpm /\
  forall s, signbit_is s (AppDriver.rpm_to_radps rpm) = signbit_is s rpm.
Proof.
  unfold AppDriver.rpm_to_radps. rewrite rpm_factor_value.
  unfold F32.mul, F32.neg. split; [apply SFmul_opp_l|].
  assert (S : forall s m e,
             signbit_is s (SFmul F32.prec F32.emax (S754_finite s m e)
                                 (S754_finite false 14055248 (-27))) = true).
  { intros s m e. cbn [SFmul]. rewrite xorb_false_r.
    apply binary_round_aux_signbit. lia. }
  split.
  - destruct rpm as [s|s| |s m e]; try reflexivity.
    cbn [is_nan]. apply signbit_is_not_nan with s, S.
  - intros s. destruct rpm as [s'|s'| |s' m e]; try reflexivity.
    + now destruct s, s'.
    + now destruct s, s'.
    + rewrite (signbit_is_eqb s' s) by apply S. reflexivity.
Qed.

(** ** Line input: [read_line_echo] and [ask_double] *)

Lemma isprint_not_control (ch : Z) :
  AppDriver.isprint ch = true ->
  (ch =? 13) || (ch =? 10) = false /\ (ch =? 8) || (ch =? 127) = false.
Proof.
  unfold AppDriver.isprint. intros H. apply andb_true_iff in H as [H1 H2].
  apply Z.leb_le in H1. apply Z.leb_le in H2.
  destruct (Z.eqb_spec ch 13), (Z.eqb_spec ch 10),
    (Z.eqb_spec ch 8), (Z.eqb_spec ch 127);
    first [lia | split; reflexivity].
Qed.

Lemma forallb_firstn {A : Type} (f : A -> bool) (l : list A) :
  forall n, forallb f l = true -> forallb f (firstn n l) = true.
Proof.
  induction l as [|a l IH]; intros [|n] H; try reflexivity.
  cbn [forallb firstn] in *. apply andb_true_iff in H as [H1 H2].
  now rewrite H1, IH.
Qed.

(** What one call leaves behind, whatever the input. *)
Lemma read_line_loop_inv (maxlen : Z) (input : list Z) :
  forall buf out l,
    AppDriver.read_line_loop maxlen buf out input = Some l ->
    (Z.of_nat (length buf) <= Z.max 0 (maxlen - 1) ->
     Z.of_nat (length (AppDriver.text l)) <= Z.max 0 (maxlen - 1)) /\
    (forallb AppDriver.isprint buf = true ->
     forallb AppDriver.isprint (AppDriver.text l) = true) /\
    exists pre nl,
      input = pre ++ nl :: AppDriver.remaining l /\
      is_newline nl = true /\
      forallb (fun ch => negb (is_newline ch)) pre = true.
Proof.
  induction input as [|ch input IH]; intros buf out l; cbn [AppDriver.read_line_loop];
    [discriminate|].
  fold (is_newline ch).
  destruct (is_newline ch) eqn:Hnl.
  - intros H. injection H as <-. cbn [AppDriver.text AppDriver.remaining].
    split; [tauto|]. split; [tauto|].
    exists [], ch. repeat split. exact Hnl.
  - assert (K : forall buf' out',
               AppDriver.read_line_loop maxlen buf' out' input = Some l ->
               exists pre nl,
                 ch :: input = pre ++ nl :: AppDriver.remaining l /\
                 is_newline nl = true /\
                 forallb (fun ch => negb (is_newline ch)) pre = true).
    { intros buf' out' H. destruct (IH _ _ _ H) as (_ & _ & pre & nl & -> & N & P).
      exists (ch :: pre), nl. repeat split; [exact N|].
      cbn [forallb]. rewrite Hnl, P. reflexivity. }
    destruct ((ch =? 8) || (ch =? 127)).
    + destruct (Z.ltb_spec 0 (Z.of_nat (length buf))) as [L|G]; intros H.
      * destruct (IH _ _ _ H) as (B & P & _).
        split; [|split; [|exact (K _ _ H)]].
        -- intros Hb. apply B.
           destruct buf as [|b buf]; [cbn in L; lia|].
           rewrite removelast_firstn_len, length_firstn. lia.
        -- intros Hp. apply P.
           rewrite removelast_firstn_len. now apply forallb_firstn.
      * destruct (IH _ _ _ H) as (B & P & _).
        split; [exact B|]. split; [exact P|exact (K _ _ H)].
    + destruct (AppDriver.isprint ch) eqn:Hp.
      * destruct (Z.ltb_spec (Z.of_nat (length buf)) (maxlen - 1)) as [L|G];
          intros H; destruct (IH _ _ _ H) as (B & P & _).
        -- split; [|split; [|exact (K _ _ H)]].
           ++ intros _. apply B. rewrite length_app. cbn [length]. lia.
           ++ intros Hb. apply P. rewrite forallb_app, Hb. cbn. now rewrite Hp.
        -- split; [exact B|]. split; [exact P|exact (K _ _ H)].
      * intros H. destruct (IH _ _ _ H) as (B & P & _).
        split; [exact B|]. split; [exact P|exact (K _ _ H)].
Qed.

(** Without a line terminator in the input the loop never returns. *)
Lemma read_line_loop_none (maxlen : Z) (input : list Z) :
  forall buf out,
    forallb (fun ch => negb (is_newline ch)) input = true ->
    AppDriver.read_line_loop maxlen buf out input = None.
Proof.
  induction input as [|ch input IH]; intros buf out H; [reflexivity|].
  cbn [forallb] in H. apply andb_true_iff in H as [H1 H2].
  cbn [AppDriver.read_line_loop]. fold (is_newline ch).
  destruct (is_newline ch); [discriminate|].
  destruct ((ch =? 8) || (ch =? 127)).
  - destruct (0 <? _); apply IH, H2.
  - destruct (AppDriver.isprint ch); [destruct (_ <? _)|]; apply IH, H2.
Qed.

Lemma read_line_buffer_bounds (maxlen : Z) (input : list Z) (l : AppDriver.Line) :
  1 <= maxlen ->
  AppDriver.read_line_echo maxlen input = Some l ->
  0 <= Z.of_nat (length (AppDriver.text l)) <= maxlen - 1 /\
  forallb AppDriver.isprint (AppDriver.text l) = true.
Proof.
  intros Hm H. destruct (read_line_loop_inv _ _ _ _ _ H) as (B & P & _).
  cbn [length forallb] in B, P. split; [|now apply P]. lia.
Qed.

(** X5.  [read_line_echo] never writes outside the caller's buffer: for a
    buffer of [maxlen >= 1] characters the returned length [n] satisfies
    [0 <= n <= maxlen - 1], so that the terminating store [buf[n] = 0] is
    inside the buffer, and every character stored is a printable one. *)
Theorem read_line_echo_in_buffer (maxlen : Z) (input : list Z) (l : AppDriver.Line) :
  1 <= maxlen ->
  AppDriver.read_line_echo maxlen input = Some l ->
  0 <= Z.of_nat (length (AppDriver.text l)) <= maxlen - 1 /\
  forallb AppDriver.isprint (AppDriver.text l) = true.
Proof.
  intros Hm H. exact (read_line_buffer_bounds maxlen input l Hm H).
Qed.

Lemma read_line_echo_in_buffer_witness :
  1 <= 5 /\
  AppDriver.read_line_echo 5 [49; 50; 8; 51; 52; 53; 54; 55; 13; 65]
  = Some (AppDriver.mkLine [49; 51; 52; 53]
            [49; 50; 8; 32; 8; 51; 52; 53; 13; 10] [65]) /\
  0 <= Z.of_nat (length [49; 51; 52; 53]) <= 5 - 1 /\
  forallb AppDriver.isprint [49; 51; 52; 53] = true.
Proof.
  split; [lia|]. split; [reflexivity|].
  apply (read_line_echo_in_buffer 5 [49; 50; 8; 51; 52; 53; 54; 55; 13; 65]
           (AppDriver.mkLine [49; 51; 52; 53]
              [49; 50; 8; 32; 8; 51; 52; 53; 13; 10] [65]));
    [lia|reflexivity].
Defined.

(** X6.  [read_line_echo] returns exactly at the first carriage return or
    line feed: when it returns, it has consumed the input up to and
    including the first of them and nothing beyond; when the input holds
    neither, it does not return. *)
Theorem read_line_echo_stops_at_newline (maxlen : Z) (input : list Z) :
  match AppDriver.read_line_echo maxlen input with
  | Some l =>
      exists pre nl,
        input = pre ++ nl :: AppDriver.remaining l /\
        is_newline nl = true /\
        forallb (fun ch => negb (is_newline ch)) pre = true
  | None => forallb (fun ch => negb (is_newline ch)) input = true
  end.
Proof.
  destruct (AppDriver.read_line_echo maxlen input) as [l|] eqn:H.
  - exact (proj2 (proj2 (read_line_loop_inv _ _ _ _ _ H))).
  - destruct (forallb (fun ch => negb (is_newline ch)) input) eqn:F;
      [reflexivity|].
    assert (E : existsb is_newline input = true).
    { clear H. induction input as [|c input IH]; [discriminate|].
      cbn [forallb existsb] in *. destruct (is_newline c); [reflexivity|].
      apply IH, F. }
    clear F. exfalso. revert H. unfold AppDriver.read_line_echo.
    generalize (@nil Z) at 1. generalize (@nil Z) at 1.
    induction input as [|c input IH]; intros buf out; [discriminate|].
    cbn [existsb] in E. cbn [AppDriver.read_line_loop]. fold (is_newline c).
    destruct (is_newline c); [discriminate|]. cbn [orb] in E.
    destruct ((c =? 8) || (c =? 127)).
    + destruct (0 <? _); apply IH, E.
    + destruct (AppDriver.isprint c); [destruct (_ <? _)|]; apply IH, E.
Qed.

(** A run of printable characters is stored and echoed up to the
    capacity; the rest of the run is dropped without echo. *)
Lemma read_line_loop_printable (maxlen : Z) (s : list Z) :
  forall buf out tail,
    forallb AppDriver.isprint s = true ->
    let t := firstn (Z.to_nat (maxlen - 1) - length buf) s in
    AppDriver.read_line_loop maxlen buf out (s ++ tail)
    = AppDriver.read_line_loop maxlen (buf ++ t) (out ++ t) tail.
Proof.
  induction s as [|ch s IH]; intros buf out tail H; cbn zeta.
  - rewrite firstn_nil, !app_nil_r. reflexivity.
  - cbn [forallb] in H. apply andb_true_iff in H as [H1 H2].
    destruct (isprint_not_control ch H1) as [N1 N2].
    cbn [app AppDriver.read_line_loop]. rewrite N1, N2, H1.
    destruct (Z.ltb_spec (Z.of_nat (length buf)) (maxlen - 1)) as [L|G].
    + rewrite IH by exact H2. rewrite length_app. cbn [length].
      replace (Z.to_nat (maxlen - 1) - length buf)%nat
        with (S (Z.to_nat (maxlen - 1) - (length buf + 1)))%nat by lia.
      cbn [firstn]. rewrite <- !app_assoc. reflexivity.
    + rewrite IH by exact H2.
      replace (Z.to_nat (maxlen - 1) - length buf)%nat with O by lia.
      reflexivity.
Qed.

(** X7.  A line of printable characters ended by a carriage return or a line
    feed is returned cut to [maxlen - 1] characters; exactly the stored
    characters are echoed, followed by CR LF, and the input after the
    terminator is left unread. *)
Theorem read_line_echo_plain_line (maxlen : Z) (s : list Z) (nl : Z) (rest : list Z) :
  forallb AppDriver.isprint s = true ->
  is_newline nl = true ->
  let t := firstn (Z.to_nat (maxlen - 1)) s in
  AppDriver.read_line_echo maxlen (s ++ nl :: rest)
  = Some (AppDriver.mkLine t (t ++ [13; 10]) rest).
Proof.
  intros Hs Hnl. cbn zeta. unfold AppDriver.read_line_echo.
  rewrite read_line_loop_printable by exact Hs.
  cbn [length app AppDriver.read_line_loop]. rewrite Nat.sub_0_r.
  fold (is_newline nl). rewrite Hnl. reflexivity.
Qed.

Lemma read_line_echo_plain_line_witness :
  forallb AppDriver.isprint [49; 46; 53; 101; 45; 51] = true /\
  is_newline 13 = true /\
  AppDriver.read_line_echo 4 ([49; 46; 53; 101; 45; 51] ++ 13 :: [10; 50])
  = Some (AppDriver.mkLine [49; 46; 53] ([49; 46; 53] ++ [13; 10]) [10; 50]).
Proof.
  split; [reflexivity|]. split; [reflexivity|].
  apply (read_line_echo_plain_line 4 [49; 46; 53; 101; 45; 51] 13 [10; 50]);
    reflexivity.
Defined.

(** A run of [k] backspace or delete characters removes the last [k]
    stored characters (all of them when fewer are stored) and echoes one
    erase sequence per removed character. *)
Lemma read_line_loop_erase (maxlen : Z) (k : nat) :
  forall bs buf out tail,
    forallb is_erase bs = true -> length bs = k ->
    AppDriver.read_line_loop maxlen buf out (bs ++ tail)
    = AppDriver.read_line_loop maxlen
        (firstn (length buf - k) buf)
        (out ++ concat (repeat [8; 32; 8] (Nat.min k (length buf)))) tail.
Proof.
  induction k as [|k IH]; intros bs buf out tail Hbs Hlen.
  - destruct bs; [|discriminate]. rewrite Nat.sub_0_r, firstn_all.
    cbn [Nat.min repeat concat app]. rewrite app_nil_r. reflexivity.
  - destruct bs as [|b bs]; [discriminate|]. injection Hlen as Hlen.
    cbn [forallb] in Hbs. apply andb_true_iff in Hbs as [Hb Hbs].
    cbn [app AppDriver.read_line_loop].
    assert (N : (b =? 13) || (b =? 10) = false).
    { unfold is_erase in Hb.
      destruct (Z.eqb_spec b 8), (Z.eqb_spec b 127); try discriminate; subst;
        reflexivity. }
    rewrite N. fold (is_erase b). rewrite Hb.
    destruct buf as [|c buf].
    + cbn [length Z.of_nat]. change (0 <? 0) with false. cbv iota.
      rewrite (IH bs [] out tail Hbs Hlen). cbn [length].
      rewrite !firstn_nil, !Nat.min_0_r. reflexivity.
    + assert (L : (0 <? Z.of_nat (length (c :: buf))) = true)
        by (apply Z.ltb_lt; cbn [length]; lia).
      assert (R : removelast (c :: buf) = firstn (length buf) (c :: buf))
        by (rewrite removelast_firstn_len; reflexivity).
      assert (RL : length (firstn (length buf) (c :: buf)) = length buf)
        by (rewrite length_firstn; cbn [length]; lia).
      rewrite L, R, (IH bs _ _ tail Hbs Hlen), RL, firstn_firstn.
      cbn [length].
      replace (Nat.min (length buf - k) (length buf)) with (length buf - k)%nat
        by lia.
      replace (S (length buf) - S k)%nat with (length buf - k)%nat by lia.
      replace (Nat.min (S k) (S (length buf)))
        with (S (Nat.min k (length buf))) by lia.
      cbn [repeat concat]. rewrite <- !app_assoc. reflexivity.
Qed.

(** X8.  Backspace editing.  After a line of printable characters that fits
    the buffer, [k] backspace (8) or delete (127) characters take the last
    [k] characters back, stopping silently at the empty line; each removal
    is echoed as backspace, blank, backspace. *)
Theorem read_line_echo_backspace
        (maxlen : Z) (s bs : list Z) (nl : Z) (rest : list Z) :
  forallb AppDriver.isprint s = true ->
  Z.of_nat (length s) < maxlen ->
  forallb is_erase bs = true ->
  is_newline nl = true ->
  AppDriver.read_line_echo maxlen (s ++ bs ++ nl :: rest)
  = Some (AppDriver.mkLine
            (firstn (length s - length bs) s)
            (s ++ concat (repeat [8; 32; 8] (Nat.min (length bs) (length s)))
               ++ [13; 10])
            rest).
Proof.
  intros Hs Hlen Hbs Hnl. unfold AppDriver.read_line_echo.
  rewrite read_line_loop_printable by exact Hs.
  cbn [length app]. rewrite Nat.sub_0_r.
  rewrite firstn_all2 by lia.
  rewrite (read_line_loop_erase maxlen (length bs) bs s s (nl :: rest) Hbs eq_refl).
  cbn [AppDriver.read_line_loop]. fold (is_newline nl). rewrite Hnl.
  rewrite <- app_assoc. reflexivity.
Qed.

Lemma read_line_echo_backspace_witness :
  forallb AppDriver.isprint [49; 50] = true /\
  Z.of_nat (length [49; 50]) < 8 /\
  forallb is_erase [8; 127; 8] = true /\
  is_newline 10 = true /\
  AppDriver.read_line_echo 8 ([49; 50] ++ [8; 127; 8] ++ 10 :: [51])
  = Some (AppDriver.mkLine [] [49; 50; 8; 32; 8; 8; 32; 8; 13; 10] [51]).
Proof.
  split; [reflexivity|]. split; [cbn; lia|]. split; [reflexivity|].
  split; [reflexivity|].
  apply (read_line_echo_backspace 8 [49; 50] [8; 127; 8] 10 [51]);
    first [reflexivity | cbn; lia].
Defined.

(** Each call consumes at least the line terminator. *)
Lemma read_line_echo_consumes (maxlen : Z) (input : list Z) (l : AppDriver.Line) :
  AppDriver.read_line_echo maxlen input = Some l ->
  (length (AppDriver.remaining l) < length input)%nat.
Proof.
  intros H.
  destruct (read_line_loop_inv _ _ _ _ _ H) as (_ & _ & pre & nl & -> & _).
  rewrite length_app. cbn [length]. lia.
Qed.

(** The turns granted to [ask_double] are enough: more change nothing. *)
Lemma ask_double_turns_enough (strtod : list Z -> option F64.t) (fuel : nat) :
  forall fuel' input,
    (length input < fuel)%nat -> (length input < fuel')%nat ->
    AppDriver.ask_double_turns strtod fuel input
    = AppDriver.ask_double_turns strtod fuel' input.
Proof.
  induction fuel as [|fuel IH]; intros fuel' input H H'; [lia|].
  destruct fuel' as [|fuel']; [lia|]. cbn [AppDriver.ask_double_turns].
  destruct (AppDriver.read_line_echo 128 input) as [l|] eqn:E; [|reflexivity].
  pose proof (read_line_echo_consumes _ _ _ E) as C.
  rewrite (IH fuel' (AppDriver.remaining l)) by lia. reflexivity.
Qed.

(** One turn of the loop of [ask_double], with the turns of the model
    counted out. *)
Lemma ask_double_loop (strtod : list Z -> option F64.t) (input : list Z) :
  AppDriver.ask_double strtod input
  = match AppDriver.read_line_echo 128 input with
    | None => None
    | Some l =>
        match AppDriver.text l with
        | [] => AppDriver.ask_double strtod (AppDriver.remaining l)
        | _ :: _ =>
            match strtod (AppDriver.text l) with
            | Some v => Some (v, AppDriver.remaining l)
            | None => AppDriver.ask_double strtod (AppDriver.remaining l)
            end
        end
    end.
Proof.
  unfold AppDriver.ask_double at 1. cbn [AppDriver.ask_double_turns].
  destruct (AppDriver.read_line_echo 128 input) as [l|] eqn:E; [|reflexivity].
  pose proof (read_line_echo_consumes _ _ _ E) as C.
  assert (R : AppDriver.ask_double_turns strtod (length input) (AppDriver.remaining l)
              = AppDriver.ask_double strtod (AppDriver.remaining l)).
  { apply ask_double_turns_enough; lia. }
  rewrite R. destruct (AppDriver.text l) as [|c t]; [reflexivity|].
  cbn [length]. destruct (Z.leb_spec (Z.of_nat (S (length t))) 0); [lia|].
  reflexivity.
Qed.

(** What a typed line leaves in [char line[128]]: its first 127
    characters. *)
Lemma read_line_echo_text (s : list Z) (nl : Z) (rest : list Z) :
  forallb AppDriver.isprint s = true ->
  is_newline nl = true ->
  AppDriver.read_line_echo 128 (s ++ nl :: rest)
  = Some (AppDriver.mkLine (firstn 127 s) (firstn 127 s ++ [13; 10]) rest).
Proof.
  intros Hs Hnl. unfold AppDriver.read_line_echo.
  rewrite read_line_loop_printable by exact Hs.
  cbn [length app AppDriver.read_line_loop]. rewrite Nat.sub_0_r.
  fold (is_newline nl). rewrite Hnl. reflexivity.
Qed.

(** X9.  [ask_double] returns the first number typed.  Whatever lines come
    first that are empty or on which [strtod] converts nothing (each of
    printable characters and ended by CR or LF, of any length: [strtod]
    sees the first 127 characters of a line), the call skips them all and
    returns [strtod]'s conversion of the first 127 characters of the first
    line that converts, leaving the input after that line's terminator
    unread. *)
Theorem ask_double_first_number
        (strtod : list Z -> option F64.t)
        (skipped : list (list Z * Z)) (s : list Z) (nl : Z)
        (rest : list Z) (v : F64.t) :
  Forall (fun ln => forallb AppDriver.isprint (fst ln) = true /\
                    is_newline (snd ln) = true /\
                    (fst ln = [] \/ strtod (firstn 127 (fst ln)) = None))
         skipped ->
  forallb AppDriver.isprint s = true ->
  s <> [] ->
  is_newline nl = true ->
  strtod (firstn 127 s) = Some v ->
  AppDriver.ask_double strtod
    (concat (map (fun ln => fst ln ++ [snd ln]) skipped) ++ s ++ nl :: rest)
  = Some (v, rest).
Proof.
  intros Hsk Hs Hne Hnl Hv.
  induction Hsk as [|[t n] skipped (Ht & Hn & Hrej) Hsk IH].
  - cbn [map concat app]. rewrite ask_double_loop, (read_line_echo_text s nl rest Hs Hnl).
    cbn [AppDriver.text AppDriver.remaining].
    destruct s as [|c s]; [now elim Hne|]. cbn [firstn] in Hv |- *.
    rewrite Hv. reflexivity.
  - cbn [map concat fst snd] in *. rewrite <- !app_assoc. cbn [app].
    rewrite ask_double_loop, (read_line_echo_text t n _ Ht Hn).
    cbn [AppDriver.text AppDriver.remaining].
    destruct Hrej as [->|Hrej]; [exact IH|].
    rewrite Hrej. destruct (firstn 127 t); exact IH.
Qed.

Lemma ask_double_first_number_witness :
  Forall (fun ln => forallb AppDriver.isprint (fst ln) = true /\
                    is_newline (snd ln) = true /\
                    (fst ln = [] \/
                     (fun s => match s with [49] => Some F64.zero | _ => None end)
                       (firstn 127 (fst ln)) = None))
         [([], 13); ([50], 13)] /\
  AppDriver.ask_double
    (fun s => match s with [49] => Some F64.zero | _ => None end)
    (concat (map (fun ln => fst ln ++ [snd ln]) [([], 13); ([50], 13)])
       ++ [49] ++ 13 :: [10; 50])
  = Some (F64.zero, [10; 50]).
Proof.
  assert (H : Forall (fun ln => forallb AppDriver.isprint (fst ln) = true /\
                    is_newline (snd ln) = true /\
                    (fst ln = [] \/
                     (fun s => match s with [49] => Some F64.zero | _ => None end)
                       (firstn 127 (fst ln)) = None))
         [([], 13); ([50], 13)]).
  { constructor; [split; [reflexivity|split; [reflexivity|left; reflexivity]]|].
    constructor; [split; [reflexivity|split; [reflexivity|right; reflexivity]]|].
    constructor. }
  split; [exact H|].
  apply (ask_double_first_number
           (fun s => match s with [49] => Some F64.zero | _ => None end)
           [([], 13); ([50], 13)] [49] 13 [10; 50] F64.zero H);
    first [reflexivity | discriminate].
Defined.

(** X10.  A value returned by [ask_double] is always the conversion of a
    non-empty line of at most 127 printable characters, and at least one
    character of the input has been consumed. *)
Theorem ask_double_result
        (strtod : list Z -> option F64.t) (input rest : list Z) (v : F64.t) :
  AppDriver.ask_double strtod input = Some (v, rest) ->
  exists s,
    s <> [] /\ (length s <= 127)%nat /\
    forallb AppDriver.isprint s = true /\
    strtod s = Some v /\
    (length rest < length input)%nat.
Proof.
  unfold AppDriver.ask_double. generalize (S (length input)) as fuel.
  intros fuel. revert input.
  induction fuel as [|fuel IH]; intros input H; [discriminate|].
  cbn [AppDriver.ask_double_turns] in H.
  destruct (AppDriver.read_line_echo 128 input) as [l|] eqn:E; [|discriminate].
  pose proof (read_line_echo_consumes _ _ _ E) as C.
  assert (K : AppDriver.ask_double_turns strtod fuel (AppDriver.remaining l)
              = Some (v, rest) ->
              exists s,
                s <> [] /\ (length s <= 127)%nat /\
                forallb AppDriver.isprint s = true /\
                strtod s = Some v /\ (length rest < length input)%nat).
  { intros H'. destruct (IH _ H') as (s & S1 & S2 & S3 & S4 & S5).
    exists s. repeat split; try assumption. lia. }
  destruct (Z.leb_spec (Z.of_nat (length (AppDriver.text l))) 0) as [L|G];
    [exact (K H)|].
  destruct (strtod (AppDriver.text l)) as [v'|] eqn:Sd; [|exact (K H)].
  injection H as <- <-.
  destruct (read_line_buffer_bounds 128 input l ltac:(lia) E) as [B P].
  exists (AppDriver.text l). repeat split; try assumption; try lia.
  intros Q. rewrite Q in G. cbn in G. lia.
Qed.

Lemma ask_double_result_witness :
  exists s,
    s <> [] /\ (length s <= 127)%nat /\
    forallb AppDriver.isprint s = true /\
    (fun s => match s with [49] => Some F64.zero | _ => None end) s
    = Some F64.zero /\
    (length [10; 50] < length [13; 50; 13; 49; 13; 10; 50])%nat.
Proof.
  apply (ask_double_result
           (fun s => match s with [49] => Some F64.zero | _ => None end)
           [13; 50; 13; 49; 13; 10; 50] [10; 50] F64.zero).
  reflexivity.
Defined.

(* ================================================================== *)
(** * NaN in the two controllers *)
(* ================================================================== *)

Lemma SFadd_nan_l (x : spec_float) : SFadd F32.prec F32.emax S754_nan x = S754_nan.
Proof. reflexivity. Qed.

Lemma SFadd_nan_r (x : spec_float) : SFadd F32.prec F32.emax x S754_nan = S754_nan.
Proof. now destruct x. Qed.

Lemma SFsub_nan_l (x : spec_float) : SFsub F32.prec F32.emax S754_nan x = S754_nan.
Proof. reflexivity. Qed.

Lemma SFsub_nan_r (x : spec_float) : SFsub F32.prec F32.emax x S754_nan = S754_nan.
Proof. now destruct x. Qed.

Lemma SFmul_nan_l (x : spec_float) : SFmul F32.prec F32.emax S754_nan x = S754_nan.
Proof. reflexivity. Qed.

Lemma SFmul_nan_r (x : spec_float) : SFmul F32.prec F32.emax x S754_nan = S754_nan.
Proof. now destruct x. Qed.

Lemma is_nan_eq (x : spec_float) : is_nan x = true -> x = S754_nan.
Proof. destruct x; try discriminate. reflexivity. Qed.

(** A NaN accumulator stays a NaN. *)
Lemma accumulate_nan (ts : list F32.t) : accumulate S754_nan ts = S754_nan.
Proof. induction ts as [|t ts IH]; [reflexivity|exact IH]. Qed.

(** One NaN term makes the sum a NaN, from whatever start. *)
Lemma accumulate_nan_term (ts : list F32.t) :
  forall init, existsb is_nan ts = true -> accumulate init ts = S754_nan.
Proof.
  induction ts as [|t ts IH]; intros init H; [discriminate|].
  rewrite accumulate_cons. cbn [existsb] in H.
  destruct (is_nan t) eqn:Ht.
  - rewrite (is_nan_eq t Ht), SFadd_nan_r. apply accumulate_nan.
  - apply IH, H.
Qed.

Lemma sum_in_order_nan_term (ts : list F32.t) :
  existsb is_nan ts = true -> sum_in_order ts = S754_nan.
Proof.
  destruct ts as [|t ts]; [discriminate|]. cbn [existsb sum_in_order].
  destruct (is_nan t) eqn:Ht.
  - intros _. rewrite (is_nan_eq t Ht). apply accumulate_nan.
  - apply accumulate_nan_term.
Qed.

(** A NaN setpoint or measurement is a NaN among the nine terms. *)
Lemma nine_terms_nan (s : DeltaPid2TapAw) (w x : F32.t) :
  is_nan w || is_nan x = true -> existsb is_nan (nine_terms s w x) = true.
Proof.
  intros H. unfold nine_terms. cbn [existsb].
  destruct (is_nan w) eqn:Hw.
  - rewrite (is_nan_eq w Hw). unfold F32.mul at 2. rewrite SFmul_nan_r.
    cbn [is_nan]. now rewrite orb_true_r.
  - cbn [orb] in H. rewrite (is_nan_eq x H). unfold F32.mul at 5.
    rewrite SFmul_nan_r. cbn [is_nan]. now rewrite !orb_true_r.
Qed.

(** One poisoned step of a controller of the shape of [step_result]. *)
Lemma step_result_nan (dy : F32.t) (s : DeltaPid2TapAw) (w x : F32.t) :
  is_nan dy || is_nan (y_unsat_1 s) = true ->
  is_nan (fst (step_result dy s w x)) = true /\
  is_nan (y_unsat_1 (snd (step_result dy s w x))) = true.
Proof.
  intros H. unfold step_result. cbn [fst snd y_unsat_1].
  assert (E : F32.add (y_unsat_1 s) dy = S754_nan).
  { unfold F32.add. destruct (is_nan dy) eqn:Hd.
    - rewrite (is_nan_eq dy Hd). apply SFadd_nan_r.
    - cbn [orb] in H. rewrite (is_nan_eq _ H). reflexivity. }
  rewrite E. split; [|reflexivity]. now apply clamp_nan.
Qed.

Section NanRun.
Variable stp : DeltaPid2TapAw -> F32.t -> F32.t -> F32.t * DeltaPid2TapAw.
Hypothesis stp_nan :
  forall s w x,
    is_nan w || is_nan x || is_nan (y_unsat_1 s) = true ->
    is_nan (fst (stp s w x)) = true /\
    is_nan (y_unsat_1 (snd (stp s w x))) = true.

Lemma run_steps_nan (inputs : list (F32.t * F32.t)) :
  forall s,
    is_nan (y_unsat_1 s) = true ->
    forallb is_nan (run_steps stp s inputs) = true.
Proof.
  induction inputs as [|[w x] inputs IH]; intros s H; [reflexivity|].
  cbn [run_steps].
  destruct (stp_nan s w x) as [H1 H2]; [now rewrite H, orb_true_r|].
  destruct (stp s w x) as [y s']. cbn [fst snd] in *. cbn [forallb].
  now rewrite H1, IH.
Qed.

Lemma run_steps_poisoned (inputs : list (F32.t * F32.t)) (s : DeltaPid2TapAw)
      (w x : F32.t) :
  is_nan w || is_nan x || is_nan (y_unsat_1 s) = true ->
  forallb is_nan (run_steps stp s ((w, x) :: inputs)) = true.
Proof.
  intros H. cbn [run_steps]. destruct (stp_nan s w x H) as [H1 H2].
  destruct (stp s w x) as [y s']. cbn [fst snd] in *. cbn [forallb].
  now rewrite H1, run_steps_nan.
Qed.
End NanRun.

Lemma step_rn_nan (s : DeltaPid2TapAw) (w x : F32.t) :
  is_nan w || is_nan x || is_nan (y_unsat_1 s) = true ->
  is_nan (fst (PidMyDigit.step s w x)) = true /\
  is_nan (y_unsat_1 (snd (PidMyDigit.step s w x))) = true.
Proof.
  intros H. rewrite (step_rn_unfold s w x). apply step_result_nan.
  destruct (is_nan w || is_nan x) eqn:Hwx.
  - now rewrite (accumulate_nan_term _ _ (nine_terms_nan s w x Hwx)).
  - cbn [orb] in H. rewrite H. apply orb_true_r.
Qed.

Lemma step_expr_nan (s : DeltaPid2TapAw) (w x : F32.t) :
  is_nan w || is_nan x || is_nan (y_unsat_1 s) = true ->
  is_nan (fst (PidCompare.step s w x)) = true /\
  is_nan (y_unsat_1 (snd (PidCompare.step s w x))) = true.
Proof.
  intros H. rewrite (step_expr_unfold s w x). apply step_result_nan.
  destruct (is_nan w || is_nan x) eqn:Hwx.
  - now rewrite (sum_in_order_nan_term _ (nine_terms_nan s w x Hwx)).
  - cbn [orb] in H. rewrite H. apply orb_true_r.
Qed.

Lemma step_last_nan (s : DeltaPid2TapAw) (w x : F32.t) :
  is_nan w || is_nan x || is_nan (y_unsat_1 s) = true ->
  is_nan (fst (PidLastCompare.step s w x)) = true /\
  is_nan (y_unsat_1 (snd (PidLastCompare.step s w x))) = true.
Proof. rewrite (step_last_is_step_rn s w x). apply step_rn_nan. Qed.

(** X11.  A NaN is permanent in the delta-form controller.  Once the setpoint,
    the measurement or the stored accumulator is a NaN, the output of that
    step and of every later step is a NaN, whatever the later inputs are;
    [step] has no path that clears it.  This holds for the controller of
    each of the three files. *)
Theorem delta_nan_is_permanent
        (s : DeltaPid2TapAw) (w x : F32.t) (inputs : list (F32.t * F32.t)) :
  is_nan w || is_nan x || is_nan (y_unsat_1 s) = true ->
  forallb is_nan (run_steps PidMyDigit.step s ((w, x) :: inputs)) = true /\
  forallb is_nan (run_steps PidCompare.step s ((w, x) :: inputs)) = true /\
  forallb is_nan (run_steps PidLastCompare.step s ((w, x) :: inputs)) = true.
Proof.
  intros H. split; [|split].
  - exact (run_steps_poisoned _ step_rn_nan inputs s w x H).
  - exact (run_steps_poisoned _ step_expr_nan inputs s w x H).
  - exact (run_steps_poisoned _ step_last_nan inputs s w x H).
Qed.

Lemma delta_nan_is_permanent_witness :
  forallb is_nan
    (run_steps PidMyDigit.step (new_DeltaPid2TapAw YSAT)
               ((W_TGT, S754_nan) :: [(W_TGT, F32.zero); (F32.zero, F32.zero)]))
  = true.
Proof.
  apply (delta_nan_is_permanent (new_DeltaPid2TapAw YSAT) W_TGT S754_nan
           [(W_TGT, F32.zero); (F32.zero, F32.zero)]).
  reflexivity.
Defined.

(** ** The general PID controller of [pid_compare.cpp] *)

Lemma SFleb_of_ltb (x y : spec_float) : SFltb x y = true -> SFleb x y = true.
Proof.
  unfold SFltb, SFleb. destruct (SFcompare x y) as [[]|]; try discriminate;
    reflexivity.
Qed.

(** [std::max(lo, std::min(u, hi))] *)
Lemma saturation_in_range (u lo hi : F32.t) :
  F32.leb lo hi = true ->
  F32.leb lo (Compare.fmax lo (Compare.fmin u hi)) = true /\
  F32.leb (Compare.fmax lo (Compare.fmin u hi)) hi = true.
Proof.
  unfold F32.leb, F32.ltb, Compare.fmax, Compare.fmin, F32.ltb. intros H.
  destruct (SFleb_not_nan _ _ H) as [Hlo Hhi].
  destruct (SFltb hi u) eqn:E1.
  - destruct (SFltb lo hi) eqn:E2.
    + split; [exact H|now apply SFleb_refl].
    + split; [now apply SFleb_refl|exact H].
  - destruct (SFltb lo u) eqn:E2.
    + destruct (SFltb_not_nan _ _ E2) as [_ Hu].
      split; [now apply SFleb_of_ltb|now apply SFleb_of_not_ltb].
    + split; [now apply SFleb_refl|exact H].
Qed.

Lemma saturation_nan (lo hi : F32.t) :
  Compare.fmax lo (Compare.fmin S754_nan hi) = lo.
Proof.
  unfold Compare.fmax, Compare.fmin, F32.ltb.
  destruct hi as [[]|[]| |[] ? ?], lo as [[]|[]| |[] ? ?]; reflexivity.
Qed.

(** X12.  The general PID controller never leaves its output range.  When
    [output_min <= output_max], [calculate] returns a value in
    [[output_min, output_max]] for every state, setpoint and measurement,
    a NaN included, and stores that value as the previous saturated
    output; the limits themselves are not changed. *)
Theorem general_output_in_range
        (g : Compare.GeneralPidControllerF32) (setpoint measurement : F32.t) :
  F32.leb (Compare.output_min g) (Compare.output_max g) = true ->
  let y := fst (Compare.calculate g setpoint measurement) in
  let g' := snd (Compare.calculate g setpoint measurement) in
  F32.leb (Compare.output_min g) y = true /\
  F32.leb y (Compare.output_max g) = true /\
  Compare.saturated_output_prev g' = y /\
  Compare.output_min g' = Compare.output_min g /\
  Compare.output_max g' = Compare.output_max g.
Proof.
  intros H. cbn zeta. unfold Compare.calculate.
  cbn [fst snd Compare.saturated_output_prev Compare.output_min
       Compare.output_max].
  match goal with
  | |- F32.leb _ (Compare.fmax ?lo (Compare.fmin ?u ?hi)) = true /\ _ =>
      destruct (saturation_in_range u lo hi H) as [H1 H2]
  end.
  repeat split; [exact H1|exact H2].
Qed.

Lemma general_output_in_range_witness :
  let g := Compare.pid_general Compare.init in
  F32.leb (Compare.output_min g) (fst (Compare.calculate g W_TGT S754_nan))
  = true /\
  F32.leb (fst (Compare.calculate g W_TGT S754_nan)) (Compare.output_max g)
  = true.
Proof.
  cbv zeta.
  destruct (general_output_in_range (Compare.pid_general Compare.init)
              W_TGT S754_nan) as (H1 & H2 & _); [reflexivity|].
  split; [exact H1|exact H2].
Defined.

(** X13.  In the general PID controller a NaN does not reach the output but
    pins it to the lower limit.  When the measurement, the setpoint or the
    stored integral term is a NaN, [calculate] returns [output_min] and the
    integral term it stores is a NaN, so the same holds for every later
    call; the delta-form controller fed the same values returns a NaN. *)
Theorem general_nan_pins_output
        (g : Compare.GeneralPidControllerF32) (setpoint measurement : F32.t) :
  is_nan setpoint || is_nan measurement || is_nan (Compare.integral_term g)
  = true ->
  fst (Compare.calculate g setpoint measurement) = Compare.output_min g /\
  is_nan (Compare.integral_term (snd (Compare.calculate g setpoint measurement)))
  = true /\
  Compare.output_min (snd (Compare.calculate g setpoint measurement))
  = Compare.output_min g.
Proof.
  intros H. unfold Compare.calculate.
  cbn [fst snd Compare.integral_term Compare.output_min].
  match goal with
  | |- Compare.fmax _ (Compare.fmin (F32.add (F32.add ?p ?i) ?d) _) = _ /\ _ =>
      assert (E : i = S754_nan)
  end.
  { unfold F32.add, F32.mul, F32.sub.
    destruct (is_nan (Compare.integral_term g)) eqn:Hi.
    - rewrite (is_nan_eq _ Hi). reflexivity.
    - rewrite orb_false_r in H.
      assert (Q : SFsub F32.prec F32.emax setpoint measurement = S754_nan).
      { destruct (is_nan setpoint) eqn:Hs.
        - rewrite (is_nan_eq _ Hs). reflexivity.
        - cbn [orb] in H. rewrite (is_nan_eq _ H). apply SFsub_nan_r. }
      rewrite Q, SFadd_nan_l, SFmul_nan_r, SFmul_nan_l. apply SFadd_nan_r. }
  rewrite E. unfold F32.add at 1 2. rewrite SFadd_nan_r, SFadd_nan_l.
  rewrite saturation_nan. repeat split.
Qed.

Lemma general_nan_pins_output_witness :
  fst (Compare.calculate (Compare.pid_general Compare.init) W_TGT S754_nan)
  = F32.neg YSAT.
Proof.
  apply (general_nan_pins_output (Compare.pid_general Compare.init)
           W_TGT S754_nan).
  reflexivity.
Defined.

(* ================================================================== *)
(** * The tallies of the two harnesses *)
(* ================================================================== *)

(** Comparison of two finite numbers of the same sign: by exponent, then
    by mantissa. *)
Lemma SFltb_same_sign (s : bool) (m1 m2 : positive) (e1 e2 : Z) :
  SFltb (S754_finite s m1 e1) (S754_finite s m2 e2)
  = if s then (e2 <? e1) || ((e1 =? e2) && (Zpos m2 <? Zpos m1))
    else (e1 <? e2) || ((e1 =? e2) && (Zpos m1 <? Zpos m2)).
Proof.
  unfold SFltb, SFcompare.
  change (Pos.compare_cont Eq m1 m2) with (m1 ?= m2)%positive.
  destruct s; destruct (Z.compare_spec e1 e2) as [E|E|E];
    destruct (Pos.compare_spec m1 m2) as [M|M|M]; cbn [CompOpp];
    destruct (Z.ltb_spec e2 e1), (Z.ltb_spec e1 e2), (Z.eqb_spec e1 e2),
      (Z.ltb_spec (Zpos m2) (Zpos m1)), (Z.ltb_spec (Zpos m1) (Zpos m2));
    try lia; reflexivity.
Qed.

(** If [m < e] and not [m < r], then not [e < r]: a running maximum that
    moves up stays an upper bound of what it bounded before. *)
Lemma SFltb_raise (m e r : spec_float) :
  SFltb m e = true -> SFltb m r = false -> SFltb e r = false.
Proof.
  destruct m as [sm|sm| |sm mm em], e as [se|se| |se me ee],
    r as [sr|sr| |sr mr er];
    try reflexivity; try discriminate;
    try (destruct sm, se, sr; cbn; congruence);
    try (destruct sm, se; cbn; congruence);
    try (destruct sm, sr; cbn; congruence);
    try (destruct se, sr; cbn; congruence);
    try (destruct sm; cbn; congruence);
    try (destruct se; cbn; congruence);
    try (destruct sr; cbn; congruence).
  destruct sm, se, sr; try (cbn; congruence);
    rewrite !SFltb_same_sign; intros H1 H2;
    apply orb_true_iff in H1; apply orb_false_iff in H2;
    destruct H2 as [H2 H3]; apply andb_false_iff in H3;
    apply orb_false_iff; rewrite andb_false_iff;
    rewrite ?Z.ltb_lt, ?Z.ltb_ge, ?Z.eqb_eq, ?Z.eqb_neq,
      ?andb_true_iff in *;
    rewrite ?Z.ltb_lt, ?Z.ltb_ge, ?Z.eqb_eq, ?Z.eqb_neq in *; lia.
Qed.

Lemma SFltb_irrefl (x : spec_float) : SFltb x x = false.
Proof.
  destruct (is_nan x) eqn:H.
  - now rewrite (is_nan_eq x H).
  - unfold SFltb. now rewrite SFcompare_refl.
Qed.

(** ** The comparison with the golden trace ([pid_last_compare.cpp]) *)

Lemma compare_from_counts (sim : list F32.t) :
  forall ref i t0,
    LastCompare.pass (LastCompare.compare_from i sim ref t0)
    = LastCompare.pass t0
      + Z.of_nat (length (filter within_tol (combine sim ref))) /\
    LastCompare.fail (LastCompare.compare_from i sim ref t0)
    = LastCompare.fail t0
      + Z.of_nat (length (filter (fun p => negb (within_tol p))
                                 (combine sim ref))).
Proof.
  induction sim as [|s sim IH]; intros [|r ref] i t0;
    cbn [LastCompare.compare_from combine filter length]; try lia.
  change (within_tol (s, r)) with (F32.leb (F32.fabs (F32.sub s r)) tol_1e_3).
  destruct (F32.leb (F32.fabs (F32.sub s r)) tol_1e_3); cbn [negb].
  - destruct (IH ref (i + 1) (LastCompare.mkTally (LastCompare.pass t0 + 1)
                                (LastCompare.fail t0) (LastCompare.max_err t0)
                                (LastCompare.max_i t0))) as [-> ->].
    cbn [LastCompare.pass LastCompare.fail length]. lia.
  - cbn [LastCompare.pass LastCompare.fail LastCompare.max_err LastCompare.max_i].
    destruct (F32.ltb (LastCompare.max_err t0) (F32.fabs (F32.sub s r)));
      match goal with
      | |- context [LastCompare.compare_from _ _ _ ?t] =>
          destruct (IH ref (i + 1) t) as [-> ->]
      end;
      cbn [LastCompare.pass LastCompare.fail length]; lia.
Qed.

Lemma filter_partition_length {A : Type} (f : A -> bool) (l : list A) :
  (length (filter f l) + length (filter (fun a => negb (f a)) l))%nat
  = length l.
Proof.
  induction l as [|a l IH]; [reflexivity|]. cbn [filter].
  destruct (f a); cbn [negb length]; lia.
Qed.

(** X14.  The summary line of the golden-trace comparison.  The loop compares
    the common prefix of the simulated and the reference outputs: PASS is
    the number of pairs with [|sim - ref| <= 1e-3], FAIL the number of the
    others (a NaN error counts as a failure), the two add up to
    [min(ref_count, sim_count)], and FAIL is 0 exactly when every compared
    pair is within the tolerance. *)
Theorem golden_compare_counts (sim ref : list F32.t) :
  let t := LastCompare.compare sim ref in
  let rows := combine sim ref in
  LastCompare.pass t = Z.of_nat (length (filter within_tol rows)) /\
  LastCompare.fail t
  = Z.of_nat (length (filter (fun p => negb (within_tol p)) rows)) /\
  LastCompare.pass t + LastCompare.fail t
  = Z.of_nat (Nat.min (length sim) (length ref)) /\
  (LastCompare.fail t = 0 <-> forallb within_tol rows = true).
Proof.
  cbv zeta. unfold LastCompare.compare.
  destruct (compare_from_counts sim ref 0
              (LastCompare.mkTally 0 0 F32.zero (-1))) as [P F].
  cbn [LastCompare.pass LastCompare.fail] in P, F.
  pose proof (filter_partition_length within_tol (combine sim ref)) as L.
  rewrite length_combine in L.
  split; [lia|]. split; [lia|]. split; [lia|].
  rewrite F, <- filter_negb_empty. lia.
Qed.

Lemma golden_compare_counts_witness :
  forallb within_tol (combine [f_3; f_7] [f_3; f_7; f_1000]) = true /\
  LastCompare.fail (LastCompare.compare [f_3; f_7] [f_3; f_7; f_1000]) = 0.
Proof.
  split; [reflexivity|].
  apply (proj2 (proj2 (proj2 (proj2
           (golden_compare_counts [f_3; f_7] [f_3; f_7; f_1000]))))).
  reflexivity.
Defined.

(** The running maximum of the comparison loop. *)
Lemma compare_from_max (sim : list F32.t) :
  forall ref i t0,
    0 <= i ->
    let t := LastCompare.compare_from i sim ref t0 in
    let rows := combine sim ref in
    (forall x, F32.ltb (LastCompare.max_err t0) x = false ->
               F32.ltb (LastCompare.max_err t) x = false) /\
    (forall p, In p rows -> within_tol p = false ->
               F32.ltb (LastCompare.max_err t) (err_of p) = false) /\
    ((LastCompare.max_i t = LastCompare.max_i t0 /\
      LastCompare.max_err t = LastCompare.max_err t0) \/
     exists j p,
       nth_error rows j = Some p /\
       LastCompare.max_i t = i + Z.of_nat j /\
       within_tol p = false /\
       err_of p = LastCompare.max_err t).
Proof.
  induction sim as [|s sim IH]; intros [|r ref] i t0 Hi; cbv zeta;
    cbn [LastCompare.compare_from combine];
    try (split; [tauto|]; split; [intros p []|left; split; reflexivity]).
  change (F32.fabs (F32.sub s r)) with (err_of (s, r)).
  change (F32.leb (err_of (s, r)) tol_1e_3) with (within_tol (s, r)).
  destruct (within_tol (s, r)) eqn:W.
  - destruct (IH ref (i + 1)
                (LastCompare.mkTally (LastCompare.pass t0 + 1)
                   (LastCompare.fail t0) (LastCompare.max_err t0)
                   (LastCompare.max_i t0)) ltac:(lia)) as (M & U & A).
    cbn [LastCompare.max_err LastCompare.max_i] in M, U, A.
    split; [exact M|]. split.
    + intros p [<-|Hp] Wp; [congruence|now apply U].
    + destruct A as [A|(j & p & Hj & Hm & Wp & Ep)]; [now left|right].
      exists (S j), p. cbn [nth_error]. repeat split; try assumption. lia.
  - cbn [LastCompare.pass LastCompare.fail LastCompare.max_err LastCompare.max_i].
    destruct (F32.ltb (LastCompare.max_err t0) (err_of (s, r))) eqn:Lt.
    + destruct (IH ref (i + 1)
                  (LastCompare.mkTally (LastCompare.pass t0)
                     (LastCompare.fail t0 + 1) (err_of (s, r)) i)
                  ltac:(lia)) as (M & U & A).
      cbn [LastCompare.max_err LastCompare.max_i] in M, U, A.
      split; [|split].
      * intros x Hx. apply M. exact (SFltb_raise _ _ _ Lt Hx).
      * intros p [<-|Hp] Wp; [apply M, SFltb_irrefl|now apply U].
      * right. destruct A as [[A1 A2]|(j & p & Hj & Hm & Wp & Ep)].
        -- exists O, (s, r). cbn [nth_error]. repeat split;
             [lia|exact W|now rewrite A2].
        -- exists (S j), p. cbn [nth_error]. repeat split; try assumption. lia.
    + destruct (IH ref (i + 1)
                  (LastCompare.mkTally (LastCompare.pass t0)
                     (LastCompare.fail t0 + 1) (LastCompare.max_err t0)
                     (LastCompare.max_i t0))
                  ltac:(lia)) as (M & U & A).
      cbn [LastCompare.max_err LastCompare.max_i] in M, U, A.
      split; [exact M|]. split.
      * intros p [<-|Hp] Wp; [apply M, Lt|now apply U].
      * destruct A as [A|(j & p & Hj & Hm & Wp & Ep)]; [now left|right].
        exists (S j), p. cbn [nth_error]. repeat split; try assumption. lia.
Qed.

(** X15.  The reported worst case of the golden-trace comparison.  No failing
    pair has an error above the reported [max_err]; and either no index is
    reported ([max_i = -1] with [max_err = 0.0f], which also happens when
    every failing error is a NaN or a zero), or [max_i] is the index of a
    compared pair that fails the tolerance and whose error is exactly
    [max_err]. *)
Theorem golden_compare_max (sim ref : list F32.t) :
  let t := LastCompare.compare sim ref in
  let rows := combine sim ref in
  (forall p, In p rows -> within_tol p = false ->
             F32.ltb (LastCompare.max_err t) (err_of p) = false) /\
  ((LastCompare.max_i t = -1 /\ LastCompare.max_err t = F32.zero) \/
   exists p,
     0 <= LastCompare.max_i t /\
     nth_error rows (Z.to_nat (LastCompare.max_i t)) = Some p /\
     within_tol p = false /\
     err_of p = LastCompare.max_err t).
Proof.
  cbv zeta. unfold LastCompare.compare.
  destruct (compare_from_max sim ref 0
              (LastCompare.mkTally 0 0 F32.zero (-1)) ltac:(lia))
    as (_ & U & A).
  cbn [LastCompare.max_err LastCompare.max_i] in A.
  split; [exact U|].
  destruct A as [A|(j & p & Hj & Hm & Wp & Ep)]; [now left|right].
  exists p. rewrite Hm. cbn [Z.add]. rewrite Nat2Z.id.
  repeat split; try assumption. lia.
Qed.

Lemma golden_compare_max_witness :
  let t := LastCompare.compare [f_3; f_7; f_1000] [f_3; f_1000; f_7] in
  In (f_7, f_1000) (combine [f_3; f_7; f_1000] [f_3; f_1000; f_7]) /\
  within_tol (f_7, f_1000) = false /\
  F32.ltb (LastCompare.max_err t) (err_of (f_7, f_1000)) = false.
Proof.
  cbv zeta. split; [right; left; reflexivity|]. split; [reflexivity|].
  apply (proj1 (golden_compare_max [f_3; f_7; f_1000] [f_3; f_1000; f_7])).
  - right; left; reflexivity.
  - reflexivity.
Defined.

(** ** The controller-against-controller loop ([pid_compare.cpp]) *)

(** What one iteration prints and how it moves the running maximum. *)
Lemma iteration_row (n : Z) (l l' : Compare.Loop) (row : Compare.Row) :
  Compare.iteration n l = Some (row, l') ->
  Compare.row_n row = n /\
  Compare.row_abs_err row
  = F32.fabs (F32.sub (Compare.row_y_g row) (Compare.row_y_d row)) /\
  Compare.row_ok row
  = F32.leb (Compare.row_abs_err row) Compare.ABS_TOL
    || F32.leb (Compare.row_rel_err row) Compare.REL_TOL /\
  (if F32.ltb (Compare.max_abs_err l) (Compare.row_abs_err row)
   then Compare.max_abs_err l' = Compare.row_abs_err row /\
        Compare.max_rel_err l' = Compare.row_rel_err row /\
        Compare.max_err_n l' = n
   else Compare.max_abs_err l' = Compare.max_abs_err l /\
        Compare.max_rel_err l' = Compare.max_rel_err l /\
        Compare.max_err_n l' = Compare.max_err_n l).
Proof.
  unfold Compare.iteration, bind.
  destruct (EncCompare.sample _ _) as [r|]; [|discriminate].
  destruct (Compare.calculate _ _ _) as [y_g pg].
  destruct (PidCompare.step _ _ _) as [y_d pd].
  destruct (F32.ltb (Compare.max_abs_err l) _) eqn:Lt;
    intros H; injection H as <- <-;
    cbn [Compare.row_n Compare.row_abs_err Compare.row_rel_err
         Compare.row_ok Compare.row_y_g Compare.row_y_d
         Compare.max_abs_err Compare.max_rel_err Compare.max_err_n];
    rewrite Lt; repeat split.
Qed.

Lemma seq_offset (n : Z) (k : nat) :
  map (fun j => n + Z.of_nat j) (seq 1 k)
  = map (fun j => n + 1 + Z.of_nat j) (seq 0 k).
Proof.
  rewrite <- seq_shift, map_map. apply map_ext. intros j. lia.
Qed.

(** X16.  The table and the verdict of the controller-against-controller
    harness.  A loop of [k] iterations started at sample number [n] prints
    [k] rows numbered [n, n+1, ..., n+k-1]; a row is marked as a mismatch
    exactly when its absolute error exceeds ABS_TOL and its relative error
    exceeds REL_TOL (or one of them is a NaN); the mismatch counter grows by
    the number of marked rows; and, started with the counter at 0, the exit
    status is 0 exactly when no row is marked. *)
Theorem compare_loop_rows
        (k : nat) (n : Z) (l l' : Compare.Loop) (rows : list Compare.Row) :
  Compare.loop k n l = Some (rows, l') ->
  length rows = k /\
  map Compare.row_n rows = map (fun j => n + Z.of_nat j) (seq 0 k) /\
  Forall (fun r => Compare.row_ok r
                   = F32.leb (Compare.row_abs_err r) Compare.ABS_TOL
                     || F32.leb (Compare.row_rel_err r) Compare.REL_TOL) rows /\
  Compare.mismatch_cnt l'
  = Compare.mismatch_cnt l
    + Z.of_nat (length (filter (fun r => negb (Compare.row_ok r)) rows)) /\
  (Compare.mismatch_cnt l = 0 ->
   (Compare.exit_status l' = 0 <-> forallb Compare.row_ok rows = true)).
Proof.
  intros H. pose proof (loop_mismatch _ _ _ _ _ H) as M.
  assert (R : length rows = k /\
              map Compare.row_n rows = map (fun j => n + Z.of_nat j) (seq 0 k) /\
              Forall (fun r => Compare.row_ok r
                               = F32.leb (Compare.row_abs_err r) Compare.ABS_TOL
                                 || F32.leb (Compare.row_rel_err r)
                                            Compare.REL_TOL) rows).
  { clear M. revert n l l' rows H.
    induction k as [|k IH]; intros n l l' rows H.
    - injection H as <- <-. repeat split. constructor.
    - cbn [Compare.loop] in H. unfold bind in H.
      destruct (Compare.iteration n l) as [[row l1]|] eqn:Hit; [|discriminate].
      cbn [fst snd] in H.
      destruct (Compare.loop k (n + 1) l1) as [[rows1 l2]|] eqn:Hl;
        [|discriminate].
      injection H as <- <-. cbn [fst snd].
      destruct (IH _ _ _ _ Hl) as (I1 & I2 & I3).
      destruct (iteration_row _ _ _ _ Hit) as (J1 & _ & J3 & _).
      split; [cbn [length]; now rewrite I1|]. split.
      + cbn [seq map]. rewrite J1, I2, seq_offset. f_equal. lia.
      + constructor; assumption. }
  destruct R as (R1 & R2 & R3).
  split; [exact R1|]. split; [exact R2|]. split; [exact R3|].
  split; [exact M|]. intros H0. unfold Compare.exit_status.
  rewrite <- filter_negb_empty, M, H0.
  destruct (Z.eqb_spec
              (0 + Z.of_nat (length (filter (fun r => negb (Compare.row_ok r))
                                            rows))) 0) as [E|E].
  - split; [lia|reflexivity].
  - split; [discriminate|lia].
Qed.

Lemma compare_loop_rows_witness :
  exists rows l',
    Compare.loop 3 0 Compare.init = Some (rows, l') /\
    length rows = 3%nat /\
    map Compare.row_n rows = [0; 1; 2] /\
    Compare.exit_status l' = 0.
Proof.
  eexists _, _. split; [vm_compute; reflexivity|].
  split; [reflexivity|]. split; [reflexivity|].
  refine (proj2 (proj2 (proj2 (proj2 (proj2
            (compare_loop_rows 3 0 Compare.init _ _ _)))) _) _).
  - vm_compute; reflexivity.
  - reflexivity.
  - vm_compute; reflexivity.
Defined.

(** X17.  The worst case reported by the controller-against-controller
    harness.  After the loop no printed row has an absolute error above
    [max_abs_err]; and either the three maximum variables are still what
    they were before the loop (no row exceeded the initial maximum), or
    they are the absolute error, the relative error and the sample number
    of one and the same printed row. *)
Theorem compare_loop_max
        (k : nat) (n : Z) (l l' : Compare.Loop) (rows : list Compare.Row) :
  Compare.loop k n l = Some (rows, l') ->
  (forall r, In r rows ->
             F32.ltb (Compare.max_abs_err l') (Compare.row_abs_err r) = false) /\
  ((Compare.max_abs_err l' = Compare.max_abs_err l /\
    Compare.max_rel_err l' = Compare.max_rel_err l /\
    Compare.max_err_n l' = Compare.max_err_n l) \/
   exists r,
     In r rows /\
     Compare.row_abs_err r = Compare.max_abs_err l' /\
     Compare.row_rel_err r = Compare.max_rel_err l' /\
     Compare.row_n r = Compare.max_err_n l').
Proof.
  revert n l l' rows.
  assert (G : forall k n l l' rows,
             Compare.loop k n l = Some (rows, l') ->
             (forall x, F32.ltb (Compare.max_abs_err l) x = false ->
                        F32.ltb (Compare.max_abs_err l') x = false) /\
             (forall r, In r rows ->
                        F32.ltb (Compare.max_abs_err l') (Compare.row_abs_err r)
                        = false) /\
             ((Compare.max_abs_err l' = Compare.max_abs_err l /\
               Compare.max_rel_err l' = Compare.max_rel_err l /\
               Compare.max_err_n l' = Compare.max_err_n l) \/
              exists r,
                In r rows /\
                Compare.row_abs_err r = Compare.max_abs_err l' /\
                Compare.row_rel_err r = Compare.max_rel_err l' /\
                Compare.row_n r = Compare.max_err_n l')).
  { clear k. induction k as [|k IH]; intros n l l' rows H.
    - injection H as <- <-. split; [tauto|]. split; [intros r []|].
      left. repeat split.
    - cbn [Compare.loop] in H. unfold bind in H.
      destruct (Compare.iteration n l) as [[row l1]|] eqn:Hit; [|discriminate].
      cbn [fst snd] in H.
      destruct (Compare.loop k (n + 1) l1) as [[rows1 l2]|] eqn:Hl;
        [|discriminate].
      injection H as <- <-. cbn [fst snd].
      destruct (IH _ _ _ _ Hl) as (M & U & A).
      destruct (iteration_row _ _ _ _ Hit) as (J1 & _ & _ & J4).
      destruct (F32.ltb (Compare.max_abs_err l) (Compare.row_abs_err row))
        eqn:Lt; destruct J4 as (K1 & K2 & K3).
      + split; [|split].
        * intros x Hx. apply M. rewrite K1. exact (SFltb_raise _ _ _ Lt Hx).
        * intros r [<-|Hr]; [|now apply U].
          apply M. rewrite K1. apply SFltb_irrefl.
        * right. destruct A as [(A1 & A2 & A3)|(r & Hr & A1 & A2 & A3)].
          -- exists row. split; [now left|]. now rewrite A1, A2, A3, J1.
          -- exists r. split; [now right|]. now repeat split.
      + split; [|split].
        * intros x Hx. apply M. now rewrite K1.
        * intros r [<-|Hr]; [|now apply U]. apply M. now rewrite K1.
        * destruct A as [(A1 & A2 & A3)|(r & Hr & A1 & A2 & A3)].
          -- left. now rewrite A1, A2, A3.
          -- right. exists r. split; [now right|]. now repeat split. }
  intros n l l' rows H. destruct (G k n l l' rows H) as (_ & U & A).
  split; assumption.
Qed.

Lemma compare_loop_max_witness :
  exists rows l',
    Compare.loop 3 0 Compare.init = Some (rows, l') /\
    forall r, In r rows ->
              F32.ltb (Compare.max_abs_err l') (Compare.row_abs_err r) = false.
Proof.
  eexists _, _. split; [vm_compute; reflexivity|].
  refine (proj1 (compare_loop_max 3 0 Compare.init _ _ _)).
  vm_compute; reflexivity.
Defined.

(* ================================================================== *)
(** * The closed-loop table of [PID_MY_DIGIT.cpp] *)
(* ================================================================== *)

(** X18.  The golden-trace harness simulates the loop of [PID_MY_DIGIT.cpp].
    From equal controller, encoder and plant states, the outputs that
    [pid_last_compare.cpp] collects in [y_sim] over [k] iterations are the
    [y] column of the first [k] rows that [PID_MY_DIGIT.cpp] prints over
    [k + j] iterations, bit for bit. *)
Theorem golden_sim_is_table_prefix (k j : nat) :
  forall (n : Z) (ctrl : DeltaPid2TapAw) (enc : EncoderFloor) (x_true : F32.t)
         (rows : list MyDigit.Row),
    MyDigit.simulate (k + j) n ctrl enc x_true = Some rows ->
    LastCompare.simulate k ctrl enc x_true
    = Some (firstn k (map MyDigit.row_y rows)).
Proof.
  induction k as [|k IH]; intros n ctrl enc x_true rows H; [reflexivity|].
  cbn [Nat.add MyDigit.simulate] in H. cbn [LastCompare.simulate].
  change (EncLastCompare.sample enc x_true) with (EncMyDigit.sample enc x_true).
  unfold bind in *.
  destruct (EncMyDigit.sample enc x_true) as [r|]; [|discriminate].
  rewrite (step_last_is_step_rn ctrl W_TGT (x_meas r)).
  destruct (PidMyDigit.step ctrl W_TGT (x_meas r)) as [y ctrl'].
  destruct (MyDigit.simulate (k + j) (n + 1) ctrl' (enc' r) _) as [rest|] eqn:E;
    [|discriminate].
  injection H as <-. rewrite (IH _ _ _ _ _ E). reflexivity.
Qed.

Lemma golden_sim_is_table_prefix_witness :
  exists rows,
    MyDigit.main = Some (rows, 0) /\
    length rows = 201%nat /\
    LastCompare.y_sim = Some (firstn 101 (map MyDigit.row_y rows)).
Proof.
  eexists. split; [vm_compute; reflexivity|]. split; [reflexivity|].
  refine (golden_sim_is_table_prefix 101 100 0 _ _ _ _ _).
  vm_compute; reflexivity.
Defined.

(** ** Rounding to binary32, by cases *)

Lemma round_nearest_even_bounds (q : Z) (l : location) :
  q <= round_nearest_even q l <= q + 1.
Proof.
  destruct l as [|[]]; cbn [round_nearest_even]; try lia.
  destruct (Z.even q); lia.
Qed.

(** The right shift chosen by [fexp]: the new exponent and the quotient. *)
Lemma shr_fexp_quotient (m e : Z) (l : location) :
  0 <= m ->
  let E := Z.max e (Z.max (Zdigits2 m + e - 24) (-149)) in
  snd (shr_fexp 24 128 m e l) = E /\
  shr_m (fst (shr_fexp 24 128 m e l)) = m / 2 ^ (E - e).
Proof.
  intros Hm E. unfold shr_fexp, shr, fexp, emin.
  change (3 - 128 - 24) with (-149).
  destruct (Z.max (Zdigits2 m + e - 24) (-149) - e) as [|p|p] eqn:Hn;
    cbn [fst snd].
  - replace (E - e) with 0 by lia. rewrite shr_m_record_of_loc.
    split; [lia|]. now rewrite Z.div_1_r.
  - rewrite iter_shr_1_div by (rewrite shr_m_record_of_loc; exact Hm).
    rewrite shr_m_record_of_loc.
    replace (E - e) with (Zpos p) by lia. split; [lia|reflexivity].
  - replace (E - e) with 0 by lia. rewrite shr_m_record_of_loc.
    split; [lia|]. now rewrite Z.div_1_r.
Qed.

Lemma Zdigits2_bounds (m : Z) :
  0 <= m -> 0 <= Zdigits2 m /\ m < 2 ^ Zdigits2 m.
Proof.
  intros H. destruct m as [|p|p]; [cbn; lia| |lia].
  cbn [Zdigits2]. pose proof (digits2_pos_bounds p). lia.
Qed.

Lemma Zdigits2_le (m k : Z) :
  0 <= m < 2 ^ k -> 0 <= k -> Zdigits2 m <= k.
Proof.
  intros H Hk. destruct m as [|p|p]; [cbn; lia| |lia].
  cbn [Zdigits2]. pose proof (digits2_pos_bounds p) as [B _].
  assert (L : 2 ^ (Zpos (digits2_pos p) - 1) < 2 ^ k) by lia.
  apply Z.pow_lt_mono_r_iff in L; lia.
Qed.

(** The outcomes of one rounding: with [E] the exponent chosen for the
    value and [q] the mantissa cut to that exponent, the result is a zero
    (when [q] is 0), the number [q] or [q + 1] at [E], the power of two
    above at [E + 1], or the infinity (when [E] is out of range). *)
Lemma binary_round_aux_cases (s : bool) (m e : Z) (l : location) :
  0 <= m ->
  let E := Z.max e (Z.max (Zdigits2 m + e - 24) (-149)) in
  let q := m / 2 ^ (E - e) in
  (binary_round_aux 24 128 s m e l = S754_zero s /\ q = 0) \/
  (exists m3,
     binary_round_aux 24 128 s m e l = S754_finite s m3 E /\
     q <= Zpos m3 <= q + 1 /\ Zpos m3 < 2 ^ 24) \/
  (binary_round_aux 24 128 s m e l = S754_finite s (2 ^ 23) (E + 1) /\
   q + 1 = 2 ^ 24) \/
  (binary_round_aux 24 128 s m e l = S754_infinity s /\ 104 <= E).
Proof.
  intros Hm E q. unfold binary_round_aux.
  destruct (shr_fexp_quotient m e l Hm) as [He Hq]. fold E in He, Hq. fold q in Hq.
  destruct (shr_fexp 24 128 m e l) as [mrs1 e1]. cbn [fst snd] in He, Hq.
  subst e1. rewrite Hq.
  pose proof (round_nearest_even_bounds q (loc_of_shr_record mrs1)) as Hr.
  assert (Hq0 : 0 <= q) by (apply Z.div_pos; lia).
  assert (Hq24 : q < 2 ^ 24).
  { destruct (Zdigits2_bounds m Hm) as [D0 D1].
    apply Z.div_lt_upper_bound; [lia|].
    rewrite <- Z.pow_add_r by lia.
    apply Z.lt_le_trans with (2 ^ Zdigits2 m); [exact D1|].
    apply Z.pow_le_mono_r; lia. }
  set (r := round_nearest_even q (loc_of_shr_record mrs1)) in *.
  destruct (shr_fexp_quotient r E loc_Exact ltac:(lia)) as [He2 Hq2].
  destruct (shr_fexp 24 128 r E loc_Exact) as [mrs2 e2].
  cbn [fst snd] in He2, Hq2. rewrite Hq2, He2. clear Hq2 He2 mrs2 e2.
  destruct (Z.lt_ge_cases r (2 ^ 24)) as [Lt|Ge].
  - pose proof (Zdigits2_le r 24 ltac:(lia) ltac:(lia)) as Hd.
    replace (Z.max E (Z.max (Zdigits2 r + E - 24) (-149))) with E by lia.
    rewrite Z.sub_diag, Z.div_1_r.
    destruct r as [|p|p] eqn:Er; [left; split; [reflexivity|lia]| |lia].
    destruct (Z.leb_spec E (128 - 24)); [|right; right; right; split; [reflexivity|lia]].
    right; left. exists p. repeat split; lia.
  - assert (Er : r = 2 ^ 24) by lia.
    rewrite Er. change (Zdigits2 (2 ^ 24)) with 25.
    replace (Z.max E (Z.max (25 + E - 24) (-149))) with (E + 1) by lia.
    replace (E + 1 - E) with 1 by lia. change (2 ^ 24 / 2 ^ 1) with (Zpos (2 ^ 23)).
    cbv iota. destruct (Z.leb_spec (E + 1) (128 - 24));
      [|right; right; right; split; [reflexivity|lia]].
    right; right; left. split; [reflexivity|lia].
Qed.

(** ** The duty column *)

Lemma SFleb_same_sign_pos (m1 m2 : positive) (e1 e2 : Z) :
  SFleb (S754_finite false m1 e1) (S754_finite false m2 e2)
  = (e1 <? e2) || ((e1 =? e2) && (Zpos m1 <=? Zpos m2)).
Proof.
  unfold SFleb, SFcompare.
  change (Pos.compare_cont Eq m1 m2) with (m1 ?= m2)%positive.
  destruct (Z.compare_spec e1 e2) as [E|E|E];
    destruct (Pos.compare_spec m1 m2) as [M|M|M];
    destruct (Z.ltb_spec e1 e2), (Z.eqb_spec e1 e2),
      (Z.leb_spec (Zpos m1) (Zpos m2));
    try lia; reflexivity.
Qed.

Lemma Zdigits2_mul_le (a b : positive) (ka kb : Z) :
  Zpos a < 2 ^ ka -> Zpos b < 2 ^ kb -> 0 <= ka -> 0 <= kb ->
  Zdigits2 (Zpos (a * b)) <= ka + kb.
Proof.
  intros Ha Hb Hka Hkb. apply Zdigits2_le; [|lia].
  rewrite Z.pow_add_r by lia. rewrite Pos2Z.inj_mul. split; [lia|].
  apply Z.mul_lt_mono_nonneg; lia.
Qed.

(** [|y| * (1/12)] for [|y| <= 12]: at most 1.0f. *)
Lemma mul_recip_le_one (my : positive) (ey : Z) :
  Zpos my < 2 ^ 24 ->
  ey < -20 \/ (ey = -20 /\ Zpos my <= 12582912) ->
  let r := F32.mul (S754_finite false my ey) RECIP_YSAT in
  r = S754_zero false \/
  exists m3 e3,
    r = S754_finite false m3 e3 /\
    ((e3 <= -24 /\ Zpos m3 < 2 ^ 24) \/ (e3 = -23 /\ m3 = (2 ^ 23)%positive)).
Proof.
  intros Hm Hy r.
  destruct (Z.eq_dec ey (-20)) as [->|Ne];
    [destruct (Pos.eq_dec my 12582912) as [->|Nm]|].
  - right. exists (2 ^ 23)%positive, (-23). split; [reflexivity|now right].
  - assert (Hm' : Zpos my < 12582912) by lia. clear Hy Nm.
    subst r. unfold F32.mul, F32.prec, F32.emax, RECIP_YSAT, SFmul. cbn [xorb].
    assert (D : Zdigits2 (Zpos (my * 11184811)) <= 47).
    { apply Zdigits2_le; [|lia]. rewrite Pos2Z.inj_mul. lia. }
    pose proof (binary_round_aux_cases false (Zpos (my * 11184811))
                  (-20 + -27) loc_Exact ltac:(lia)) as C.
    cbv zeta in C.
    set (E := Z.max (-20 + -27)
                    (Z.max (Zdigits2 (Zpos (my * 11184811)) + (-20 + -27) - 24)
                           (-149))) in *.
    assert (HE : E <= -24) by lia.
    destruct C as [[C _]|[(m3 & C & B1 & B2)|[[C B]|[C B]]]]; rewrite C.
    + now left.
    + right. exists m3, E. split; [reflexivity|left; lia].
    + right. exists (2 ^ 23)%positive, (E + 1). split; [reflexivity|].
      assert (Q : E + 1 = -23 \/ E + 1 <= -24) by lia.
      destruct Q as [Q|Q]; [right; split; [exact Q|reflexivity]|left].
      split; [exact Q|reflexivity].
    + lia.
  - assert (He : ey <= -21) by lia. clear Hy Ne.
    subst r. unfold F32.mul, F32.prec, F32.emax, RECIP_YSAT, SFmul. cbn [xorb].
    assert (D : Zdigits2 (Zpos (my * 11184811)) <= 24 + 24).
    { apply Zdigits2_mul_le; lia. }
    pose proof (binary_round_aux_cases false (Zpos (my * 11184811))
                  (ey + -27) loc_Exact ltac:(lia)) as C.
    cbv zeta in C.
    set (E := Z.max (ey + -27)
                    (Z.max (Zdigits2 (Zpos (my * 11184811)) + (ey + -27) - 24)
                           (-149))) in *.
    assert (HE : E <= -24) by lia.
    destruct C as [[C _]|[(m3 & C & B1 & B2)|[[C B]|[C B]]]]; rewrite C.
    + now left.
    + right. exists m3, E. split; [reflexivity|left; lia].
    + right. exists (2 ^ 23)%positive, (E + 1). split; [reflexivity|].
      assert (Q : E + 1 = -23 \/ E + 1 <= -24) by lia.
      destruct Q as [Q|Q]; [right; split; [exact Q|reflexivity]|left].
      split; [exact Q|reflexivity].
    + lia.
Qed.

(** A value of at most 1.0f times 100.0f: between 0 and 100. *)
Lemma mul_100_in_range (m3 : positive) (e3 : Z) :
  (e3 <= -24 /\ Zpos m3 < 2 ^ 24) \/ (e3 = -23 /\ m3 = (2 ^ 23)%positive) ->
  let d := F32.mul (S754_finite false m3 e3) MyDigit.f_100 in
  F32.leb F32.zero d = true /\ F32.leb d MyDigit.f_100 = true.
Proof.
  intros [[He Hm]|[-> ->]] d; [|split; reflexivity].
  subst d. unfold F32.mul, F32.prec, F32.emax, MyDigit.f_100, SFmul. cbn [xorb].
  assert (D : Zdigits2 (Zpos (m3 * 13107200)) <= 24 + 24).
  { apply Zdigits2_mul_le; lia. }
  pose proof (binary_round_aux_cases false (Zpos (m3 * 13107200))
                (e3 + -17) loc_Exact ltac:(lia)) as C.
  cbv zeta in C.
  set (E := Z.max (e3 + -17)
                  (Z.max (Zdigits2 (Zpos (m3 * 13107200)) + (e3 + -17) - 24)
                         (-149))) in *.
  assert (HE : E <= -17) by lia.
  assert (Q : E = -17 ->
              Zpos (m3 * 13107200) / 2 ^ (E - (e3 + -17)) < 13107200).
  { intros EE. apply Z.div_lt_upper_bound; [apply Z.pow_pos_nonneg; lia|].
    rewrite Pos2Z.inj_mul.
    assert (P24 : 2 ^ 24 <= 2 ^ (E - (e3 + -17)))
      by (apply Z.pow_le_mono_r; lia).
    generalize dependent (2 ^ (E - (e3 + -17))). intros pw _ P24. lia. }
  unfold F32.leb, F32.zero.
  destruct C as [[C _]|[(m' & C & B1 & B2)|[[C B]|[C B]]]]; rewrite C.
  - split; reflexivity.
  - split; [reflexivity|]. rewrite SFleb_same_sign_pos.
    destruct (Z.ltb_spec E (-17)) as [L|G]; [reflexivity|].
    assert (EE : E = -17) by lia. specialize (Q EE).
    rewrite EE. cbn [Z.eqb orb andb]. apply Z.leb_le. lia.
  - split; [reflexivity|]. rewrite SFleb_same_sign_pos.
    destruct (Z.ltb_spec (E + 1) (-17)) as [L|G]; [reflexivity|].
    destruct (Z.eq_dec E (-17)) as [EE|NE]; [specialize (Q EE); lia|].
    replace (E + 1) with (-17) by lia. reflexivity.
  - lia.
Qed.

(** X19.  The duty column stays within 0 and 100 percent.  For every binary32
    output [y] with [|y| <= YSAT] (12.0f), the value
    [mul_rn(mul_rn(fabs(y), RECIP_YSAT), 100.0f)] satisfies
    [0 <= duty <= 100] although [RECIP_YSAT] is 1/12 rounded up; at
    [|y| = YSAT] it is exactly 100.0f; and it depends on [|y|] only. *)
Theorem duty_in_range (y : F32.t) :
  valid_binary 24 128 y = true ->
  F32.leb (F32.fabs y) YSAT = true ->
  F32.leb F32.zero (MyDigit.duty_of y) = true /\
  F32.leb (MyDigit.duty_of y) MyDigit.f_100 = true /\
  (F32.fabs y = YSAT -> MyDigit.duty_of y = MyDigit.f_100) /\
  MyDigit.duty_of (F32.neg y) = MyDigit.duty_of y.
Proof.
  intros V H.
  assert (S : MyDigit.duty_of (F32.neg y) = MyDigit.duty_of y).
  { unfold MyDigit.duty_of. f_equal. f_equal. now destruct y. }
  assert (F : F32.fabs y = YSAT -> MyDigit.duty_of y = MyDigit.f_100).
  { unfold MyDigit.duty_of. intros ->. reflexivity. }
  enough (R : F32.leb F32.zero (MyDigit.duty_of y) = true /\
              F32.leb (MyDigit.duty_of y) MyDigit.f_100 = true)
    by (destruct R; repeat split; assumption).
  clear S F. destruct y as [s|s| |s m e]; try discriminate.
  - split; reflexivity.
  - unfold MyDigit.duty_of, mul_rn. cbn [F32.fabs SFabs] in *.
    unfold F32.leb, YSAT in H. rewrite SFleb_same_sign_pos in H.
    assert (Hm : Zpos m < 2 ^ 24).
    { destruct (valid_binary32_finite s m e V) as [[_ L]|[L _]]; lia. }
    assert (Hy : e < -20 \/ (e = -20 /\ Zpos m <= 12582912)).
    { apply orb_true_iff in H as [H|H]; [left; now apply Z.ltb_lt|right].
      apply andb_true_iff in H as [H1 H2]. split; [now apply Z.eqb_eq|].
      now apply Z.leb_le. }
    destruct (mul_recip_le_one m e Hm Hy) as [R|(m3 & e3 & R & B)];
      rewrite R.
    + split; reflexivity.
    + exact (mul_100_in_range m3 e3 B).
Qed.

Lemma duty_in_range_witness :
  valid_binary 24 128 (F32.neg f_7) = true /\
  F32.leb (F32.fabs (F32.neg f_7)) YSAT = true /\
  F32.leb F32.zero (MyDigit.duty_of (F32.neg f_7)) = true /\
  F32.leb (MyDigit.duty_of (F32.neg f_7)) MyDigit.f_100 = true.
Proof.
  split; [reflexivity|]. split; [reflexivity|].
  destruct (duty_in_range (F32.neg f_7)) as (H1 & H2 & _);
    [reflexivity|reflexivity|].
  split; [exact H1|exact H2].
Defined.

(** ** The measurement handed to the controller *)

Lemma Pos_iter_xO (m d : positive) :
  Zpos (Pos.iter xO m d) = Zpos m * 2 ^ Zpos d.
Proof.
  induction d as [|d IH] using Pos.peano_ind.
  - cbn [Pos.iter]. rewrite Pos2Z.inj_xO. change (2 ^ 1) with 2. lia.
  - rewrite Pos.iter_succ, Pos2Z.inj_xO, IH, Pos2Z.inj_succ.
    rewrite Z.pow_succ_r by lia. lia.
Qed.

(** [(float)z] for a non-zero [int]: a number of the sign of [z], never an
    infinity. *)
Lemma of_int_nonzero (z : Z) :
  z <> 0 -> - 2 ^ 31 <= z <= 2 ^ 31 ->
  exists m e,
    F32.of_int z = S754_finite (z <? 0) m e /\
    Zpos m < 2 ^ 24 /\ -23 <= e <= 9.
Proof.
  intros Hz Hr.
  assert (G : forall (s : bool) (p : positive),
             Zpos p <= 2 ^ 31 ->
             exists m e,
               binary_round 24 128 s p 0 = S754_finite s m e /\
               Zpos m < 2 ^ 24 /\ -23 <= e <= 9).
  { intros s p Hp. unfold binary_round, shl_align, fexp, emin.
    change (3 - 128 - 24) with (-149).
    pose proof (digits2_pos_bounds p) as [B1 B2].
    assert (Hd : 1 <= Zpos (digits2_pos p) <= 32).
    { split; [lia|].
      assert (L : 2 ^ (Zpos (digits2_pos p) - 1) < 2 ^ 32) by lia.
      apply Z.pow_lt_mono_r_iff in L; lia. }
    destruct (Z.max (Zpos (digits2_pos p) + 0 - 24) (-149) - 0) as [|k|k] eqn:Hk.
    - pose proof (binary_round_aux_cases s (Zpos p) 0 loc_Exact ltac:(lia)) as C.
      cbv zeta in C. cbn [Zdigits2] in C.
      replace (Z.max 0 (Z.max (Zpos (digits2_pos p) + 0 - 24) (-149)))
        with 0 in C by lia.
      rewrite Z.sub_diag, Z.div_1_r in C.
      destruct C as [[C Q]|[(m3 & C & Q1 & Q2)|[[C Q]|[C Q]]]]; try lia.
      + exists m3, 0. split; [exact C|lia].
      + exists (2 ^ 23)%positive, (0 + 1). split; [exact C|]. split; [reflexivity|lia].
    - pose proof (binary_round_aux_cases s (Zpos p) 0 loc_Exact ltac:(lia)) as C.
      cbv zeta in C. cbn [Zdigits2] in C.
      replace (Z.max 0 (Z.max (Zpos (digits2_pos p) + 0 - 24) (-149)))
        with (Zpos k) in C by lia.
      assert (Q0 : 0 < Zpos p / 2 ^ (Zpos k - 0)).
      { apply Z.div_str_pos. split; [apply Z.pow_pos_nonneg; lia|].
        apply Z.le_trans with (2 ^ (Zpos (digits2_pos p) - 1)); [|exact B1].
        apply Z.pow_le_mono_r; lia. }
      destruct C as [[C Q]|[(m3 & C & Q1 & Q2)|[[C Q]|[C Q]]]]; try lia.
      + exists m3, (Zpos k). split; [exact C|lia].
      + exists (2 ^ 23)%positive, (Zpos k + 1). split; [exact C|].
        split; [reflexivity|lia].
    - pose proof (binary_round_aux_cases s (Zpos (Pos.iter xO p k))
                    (Z.max (Zpos (digits2_pos p) + 0 - 24) (-149))
                    loc_Exact ltac:(lia)) as C.
      cbv zeta in C. cbn [Zdigits2] in C.
      assert (Dk : Zpos (digits2_pos (Pos.iter xO p k))
                   = Zpos (digits2_pos p) + Zpos k).
      { apply digits2_pos_unique. rewrite Pos_iter_xO.
        replace (Zpos (digits2_pos p) + Zpos k - 1)
          with ((Zpos (digits2_pos p) - 1) + Zpos k) by lia.
        rewrite !Z.pow_add_r by lia.
        assert (0 < 2 ^ Zpos k) by (apply Z.pow_pos_nonneg; lia). nia. }
      rewrite Dk in C.
      replace (Z.max (Zpos (digits2_pos p) + 0 - 24) (-149))
        with (Zpos (digits2_pos p) - 24) in * by lia.
      replace (Z.max (Zpos (digits2_pos p) - 24)
                 (Z.max (Zpos (digits2_pos p) + Zpos k
                         + (Zpos (digits2_pos p) - 24) - 24) (-149)))
        with (Zpos (digits2_pos p) - 24) in C by lia.
      rewrite Z.sub_diag, Z.div_1_r in C.
      destruct C as [[C Q]|[(m3 & C & Q1 & Q2)|[[C Q]|[C Q]]]]; try lia.
      + exists m3, (Zpos (digits2_pos p) - 24). split; [exact C|lia].
      + exists (2 ^ 23)%positive, (Zpos (digits2_pos p) - 24 + 1).
        split; [exact C|]. split; [reflexivity|lia]. }
  unfold F32.of_int, of_Z, binary_normalize, F32.prec, F32.emax.
  destruct z as [|p|p]; [lia| |].
  - apply G. lia.
  - apply G. lia.
Qed.

(** A non-zero [int] times [INT2RADS]: a non-zero number of the same
    sign. *)
Lemma mul_INT2RADS_finite (s : bool) (m : positive) (e : Z) :
  Zpos m < 2 ^ 24 -> -23 <= e <= 9 ->
  exists m' e', F32.mul (S754_finite s m e) INT2RADS = S754_finite s m' e'.
Proof.
  intros Hm He. unfold F32.mul, F32.prec, F32.emax, INT2RADS, SFmul.
  rewrite xorb_false_r.
  assert (D : Zdigits2 (Zpos (m * 15780592)) <= 24 + 24).
  { apply Zdigits2_mul_le; lia. }
  assert (D1 : 24 <= Zdigits2 (Zpos (m * 15780592))).
  { cbn [Zdigits2].
    pose proof (digits2_pos_bounds (m * 15780592)) as [_ B].
    rewrite Pos2Z.inj_mul in B.
    assert (L : 2 ^ 23 < 2 ^ Zpos (digits2_pos (m * 15780592))) by lia.
    apply Z.pow_lt_mono_r_iff in L; lia. }
  pose proof (binary_round_aux_cases s (Zpos (m * 15780592)) (e + -24)
                loc_Exact ltac:(lia)) as C.
  cbv zeta in C.
  set (E := Z.max (e + -24)
                  (Z.max (Zdigits2 (Zpos (m * 15780592)) + (e + -24) - 24)
                         (-149))) in *.
  assert (HE : E <= 9) by lia.
  assert (Q0 : 0 < Zpos (m * 15780592) / 2 ^ (E - (e + -24))).
  { apply Z.div_str_pos. split; [apply Z.pow_pos_nonneg; lia|].
    pose proof (digits2_pos_bounds (m * 15780592)) as [B _].
    cbn [Zdigits2] in *.
    apply Z.le_trans with (2 ^ (Zpos (digits2_pos (m * 15780592)) - 1));
      [|exact B].
    apply Z.pow_le_mono_r; lia. }
  destruct C as [[C Q]|[(m3 & C & Q1 & Q2)|[[C Q]|[C Q]]]]; try lia.
  - exists m3, E. exact C.
  - exists (2 ^ 23)%positive, (E + 1). exact C.
Qed.

Lemma long_to_int_range (d : Z) : - 2 ^ 31 <= long_to_int d < 2 ^ 31.
Proof.
  unfold long_to_int.
  pose proof (Z.mod_pos_bound (d + 2 ^ 31) (2 ^ 32) ltac:(lia)). lia.
Qed.

(** What every successful [quantize] hands back when the conversion factor
    is [INT2RADS]. *)
Lemma quantize_measurement (e : EncoderFloor) (r : Sample) :
  int2radfac e = INT2RADS ->
  quantize e = Some r ->
  in_int (spdcnt r) = true /\
  is_finite (x_meas r) = true /\
  is_zero (x_meas r) = (spdcnt r =? 0) /\
  signbit_is (spdcnt r <? 0) (x_meas r) = true /\
  int2radfac (enc' r) = INT2RADS.
Proof.
  intros Hf H.
  destruct (quantize_some _ _ H) as (C_now & _ & He & _ & Hs & Hx).
  pose proof (long_to_int_range (C_now - C_prev e)) as R. rewrite <- Hs in R.
  split.
  { unfold in_int, INT_MIN, INT_MAX. apply andb_true_iff.
    split; apply Z.leb_le; lia. }
  rewrite Hx, Hf, He. cbn [int2radfac set_C_prev]. unfold mul_rn.
  destruct (Z.eqb_spec (spdcnt r) 0) as [->|Nz].
  - repeat split; try reflexivity. exact Hf.
  - destruct (of_int_nonzero (spdcnt r) Nz ltac:(lia)) as (m & ez & -> & Hm & Hez).
    destruct (mul_INT2RADS_finite (spdcnt r <? 0) m ez Hm Hez) as (m' & e' & ->).
    cbn [is_finite is_zero signbit_is]. repeat split; try assumption.
    now destruct (spdcnt r <? 0).
Qed.

(** X20.  The measurement handed to the controller.  For an encoder whose
    conversion factor is [INT2RADS] (as constructed in the three files,
    and [sample] never changes it), every [sample] call that returns hands
    back a count within the range of [int] and a finite measurement: never
    an infinity or a NaN, zero exactly when the count is zero, and of the
    sign of the count. *)
Theorem encoder_measurement_finite (e : EncoderFloor) (x_true : F32.t) (r : Sample) :
  int2radfac e = INT2RADS ->
  EncMyDigit.sample e x_true = Some r \/
  EncLastCompare.sample e x_true = Some r \/
  EncCompare.sample e x_true = Some r ->
  in_int (spdcnt r) = true /\
  is_finite (x_meas r) = true /\
  is_zero (x_meas r) = (spdcnt r =? 0) /\
  signbit_is (spdcnt r <? 0) (x_meas r) = true /\
  int2radfac (enc' r) = INT2RADS.
Proof.
  intros Hf [H|[H|H]]; revert H;
    unfold EncMyDigit.sample, EncLastCompare.sample, EncCompare.sample;
    apply quantize_measurement; exact Hf.
Qed.

Lemma encoder_measurement_finite_witness :
  exists r,
    EncCompare.sample (EncCompare.new_EncoderFloor Ts_0_005) f_1000 = Some r /\
    spdcnt r = 1063 /\
    is_finite (x_meas r) = true /\
    is_zero (x_meas r) = (spdcnt r =? 0).
Proof.
  eexists. split; [vm_compute; reflexivity|]. split; [reflexivity|].
  refine (let H := encoder_measurement_finite
                     (EncCompare.new_EncoderFloor Ts_0_005) f_1000 _ _ _ in
          conj (proj1 (proj2 H)) (proj1 (proj2 (proj2 H)))).
  - reflexivity.
  - right; right. vm_compute; reflexivity.
Defined.

(** ** Standstill *)

(** Adding a zero leaves the angle as it is, up to the sign of a zero. *)
Lemma add_zero_keeps (theta z : F32.t) :
  is_zero z = true ->
  (F32.add theta z = theta \/
   (is_zero theta = true /\ is_zero (F32.add theta z) = true)) /\
  (F32.add z theta = theta \/
   (is_zero theta = true /\ is_zero (F32.add z theta) = true)).
Proof.
  destruct z as [sz| | |]; try discriminate. intros _.
  destruct theta as [st|st| |st mt et]; cbn;
    try (split; left; reflexivity).
  split; right; split; try reflexivity; now destruct st, sz.
Qed.

Lemma mul_zero_finite (x y : F32.t) :
  is_zero x = true -> is_finite y = true -> is_zero (F32.mul x y) = true.
Proof. destruct x, y; try discriminate; reflexivity. Qed.

(** The count does not see the sign of a zero angle. *)
Lemma count_of_zero_angle (e : EncoderFloor) (t1 t2 : F32.t) :
  is_zero t1 = true -> is_zero t2 = true ->
  count_of (set_theta_rad e t1) = count_of (set_theta_rad e t2).
Proof.
  unfold count_of. cbn [theta_rad rad_per_cnt set_theta_rad].
  destruct t1 as [s1| | |], t2 as [s2| | |]; try discriminate. intros _ _.
  destruct (rad_per_cnt e) as [sr|sr| |sr mr er]; try reflexivity;
    destruct s1, s2, sr; reflexivity.
Qed.

Lemma quantize_standstill (e : EncoderFloor) (th : F32.t) :
  synced e ->
  is_finite (int2radfac e) = true ->
  th = theta_rad e \/ (is_zero (theta_rad e) = true /\ is_zero th = true) ->
  exists r,
    quantize (set_theta_rad e th) = Some r /\
    spdcnt r = 0 /\ is_zero (x_meas r) = true /\
    C_prev (enc' r) = C_prev e.
Proof.
  intros Hs Hf Hth.
  assert (Hc : count_of (set_theta_rad e th) = Some (C_prev e)).
  { destruct Hth as [->|[Z1 Z2]].
    - destruct e; exact Hs.
    - rewrite (count_of_zero_angle e th (theta_rad e) Z2 Z1).
      destruct e; exact Hs. }
  unfold count_of in Hc. unfold quantize, bind, long_sub. rewrite Hc.
  cbn [C_prev set_theta_rad]. rewrite Z.sub_diag.
  change (in_long 0) with true. cbv iota. eexists. split; [reflexivity|].
  cbn [spdcnt x_meas enc' C_prev set_C_prev int2radfac].
  change (long_to_int 0) with 0. repeat split.
  unfold mul_rn. apply mul_zero_finite; [reflexivity|exact Hf].
Qed.

(** X21.  Standstill.  For an encoder whose stored count is the floor of its
    angle and whose [Ts] and conversion factor are finite, a [sample] call
    with a true velocity of zero (of either sign) returns, emits the count
    0 and a zero measurement, and leaves the stored count as it was; this
    holds for the fused and the unfused angle update alike. *)
Theorem encoder_standstill (e : EncoderFloor) (x_true : F32.t) :
  synced e ->
  is_finite (Ts e) = true ->
  is_finite (int2radfac e) = true ->
  is_zero x_true = true ->
  (exists r, EncMyDigit.sample e x_true = Some r /\
             spdcnt r = 0 /\ is_zero (x_meas r) = true /\
             C_prev (enc' r) = C_prev e) /\
  (exists r, EncLastCompare.sample e x_true = Some r /\
             spdcnt r = 0 /\ is_zero (x_meas r) = true /\
             C_prev (enc' r) = C_prev e) /\
  (exists r, EncCompare.sample e x_true = Some r /\
             spdcnt r = 0 /\ is_zero (x_meas r) = true /\
             C_prev (enc' r) = C_prev e).
Proof.
  intros Hs HT Hf Hx.
  pose proof (mul_zero_finite x_true (Ts e) Hx HT) as Hz.
  destruct (add_zero_keeps (theta_rad e) _ Hz) as [A1 A2].
  assert (F : F32.fmaf x_true (Ts e) (theta_rad e)
              = F32.add (F32.mul x_true (Ts e)) (theta_rad e)).
  { destruct x_true; try discriminate. reflexivity. }
  split; [|split].
  - unfold EncMyDigit.sample. rewrite F. now apply quantize_standstill.
  - unfold EncLastCompare.sample. rewrite F. now apply quantize_standstill.
  - unfold EncCompare.sample. now apply quantize_standstill.
Qed.

Lemma encoder_standstill_witness :
  exists r,
    EncCompare.sample enc_after_3 neg_zero = Some r /\
    spdcnt r = 0 /\ is_zero (x_meas r) = true /\
    C_prev (enc' r) = C_prev enc_after_3.
Proof.
  refine (proj2 (proj2 (encoder_standstill enc_after_3 neg_zero _ _ _ _)));
    vm_compute; reflexivity.
Defined.

(* ================================================================== *)
(** * The time constants of [app.c] *)
(* ================================================================== *)

Lemma SFdiv_core_nonneg (prec emax : Z) (m1 m2 : positive) (e1 e2 : Z) :
  0 <= fst (fst (SFdiv_core_binary prec emax (Zpos m1) e1 (Zpos m2) e2)).
Proof.
  unfold SFdiv_core_binary.
  set (s := _ - _ - _).
  set (m' := match s with Z0 => Zpos m1 | Zpos _ => Z.shiftl (Zpos m1) s
                     | Zneg _ => 0 end).
  assert (H : 0 <= m').
  { subst m'. destruct s; [lia| |lia]. apply Z.shiftl_nonneg. lia. }
  pose proof (Z_div_mod m' (Zpos m2) ltac:(lia)) as D.
  destruct (Z.div_eucl m' (Zpos m2)) as [q r]. cbn [fst].
  destruct D as [D1 D2]. nia.
Qed.

(** A positive number divided by a non-negative one: non-negative, and
    not a NaN. *)
Lemma SFdiv_pos_signbit (prec emax : Z) (m : positive) (e : Z) (y : spec_float) :
  signbit_is false y = true ->
  signbit_is false (SFdiv prec emax (S754_finite false m e) y) = true.
Proof.
  destruct y as [[]|[]| |[] my ey]; try discriminate; intros _;
    try reflexivity.
  cbn [SFdiv xorb].
  pose proof (SFdiv_core_nonneg prec emax m my e ey) as H.
  destruct (SFdiv_core_binary prec emax (Zpos m) e (Zpos my) ey) as [[q e'] l].
  cbn [fst] in H. now apply binary_round_aux_signbit.
Qed.

Lemma gt_zero_signbit (x : F64.t) :
  App.gt x App.d0 = true -> signbit_is false x = true.
Proof. destruct x as [[]|[]| |[] m e]; try discriminate; reflexivity. Qed.

Lemma Ts_sec_value : App.Ts_sec = S754_finite false 5764607523034235 (-60).
Proof. vm_compute. reflexivity. Qed.

Lemma d1_value : App.d1 = S754_finite false 4503599627370496 (-52).
Proof. vm_compute. reflexivity. Qed.

Lemma d1e30_not_below_d1e20 : F64.ltb App.d1e30 App.d1e20 = false.
Proof. vm_compute. reflexivity. Qed.

(** X22.  Whatever is entered for the gains, the filter coefficient [a = 1/N]
    and the factor [Ts/Ti] that [compute_coeffs] uses are never negative
    and never a NaN: the guards [N > 0], [Ki > 0 && Kp > 0] and
    [Ti < 1e20] let only a non-negative divisor through, and an unordered
    comparison selects the constant branch. *)
Theorem time_constants_nonnegative (Kp Ki Kd N : F64.t) :
  let tc := App.compute_time_constants Kp Ki Kd N in
  signbit_is false (snd tc) = true /\
  signbit_is false (App.Ts_over_Ti_of (fst (fst tc))) = true.
Proof.
  cbv zeta. unfold App.compute_time_constants. cbn [fst snd]. split.
  - destruct (App.gt N App.d0) eqn:HN; [|reflexivity].
    rewrite d1_value. unfold F64.div.
    apply SFdiv_pos_signbit, gt_zero_signbit, HN.
  - unfold App.Ts_over_Ti_of.
    destruct (App.gt Ki App.d0 && App.gt Kp App.d0) eqn:G;
      [|now rewrite d1e30_not_below_d1e20].
    apply andb_true_iff in G as [GKi GKp].
    destruct (F64.ltb (F64.div Kp Ki) App.d1e20) eqn:L; [|reflexivity].
    pose proof (gt_zero_signbit _ GKi) as SKi.
    pose proof (gt_zero_signbit _ GKp) as SKp.
    assert (S : signbit_is false (F64.div Kp Ki) = true).
    { unfold F64.div in *. clear GKi GKp.
      destruct Kp as [[]|[]| |[] mp ep]; try discriminate SKp.
      - destruct Ki as [[]|[]| |[] mi ei]; try discriminate SKi;
          try reflexivity; discriminate L.
      - destruct Ki as [[]|[]| |[] mi ei]; try discriminate SKi;
          try reflexivity; discriminate L.
      - now apply SFdiv_pos_signbit. }
    rewrite Ts_sec_value. unfold F64.div in *.
    apply SFdiv_pos_signbit, S.
Qed.

(* ================================================================== *)
(** * The controller at rest *)
(* ================================================================== *)

(** One [step(0, 0)] on a reset controller gives the reset controller
    back. *)
Lemma step_at_rest (s : DeltaPid2TapAw) :
  F32.ltb (YSAT_ s) (F32.neg (YSAT_ s)) = false ->
  PidMyDigit.step (reset s) F32.zero F32.zero = (F32.zero, reset s) /\
  PidCompare.step (reset s) F32.zero F32.zero = (F32.zero, reset s).
Proof.
  intros HY. destruct s as [Y a b c d e f g h i]. cbn [YSAT_] in HY.
  pose proof (clamp_zero Y HY) as Cz. unfold F32.neg, F32.zero in Cz.
  split; unfold_step; cbn; rewrite !Cz; reflexivity.
Qed.

Section AtRest.
Variable stp : DeltaPid2TapAw -> F32.t -> F32.t -> F32.t * DeltaPid2TapAw.
Variable r : DeltaPid2TapAw.
Hypothesis stp_rest : stp r F32.zero F32.zero = (F32.zero, r).

Lemma run_steps_at_rest (n : nat) :
  run_steps stp r (repeat (F32.zero, F32.zero) n) = repeat F32.zero n.
Proof.
  induction n as [|n IH]; [reflexivity|].
  cbn [repeat run_steps]. rewrite stp_rest, IH. reflexivity.
Qed.
End AtRest.

(** X23.  A controller at rest stays at rest.  With a limit that meets the
    precondition of [std::clamp], the reset state is a fixed point of
    [step(0, 0)]: the call returns +0.0 and leaves every history field at
    +0.0, so any number of [step(0, 0)] calls after [reset()] (or after
    construction) return +0.0, in all three files. *)
Theorem rest_is_fixed_point (s : DeltaPid2TapAw) (n : nat) :
  F32.ltb (YSAT_ s) (F32.neg (YSAT_ s)) = false ->
  let zeros := repeat (F32.zero, F32.zero) n in
  snd (PidMyDigit.step (reset s) F32.zero F32.zero) = reset s /\
  snd (PidCompare.step (reset s) F32.zero F32.zero) = reset s /\
  snd (PidLastCompare.step (reset s) F32.zero F32.zero) = reset s /\
  run_steps PidMyDigit.step (reset s) zeros = repeat F32.zero n /\
  run_steps PidCompare.step (reset s) zeros = repeat F32.zero n /\
  run_steps PidLastCompare.step (reset s) zeros = repeat F32.zero n.
Proof.
  intros HY zeros. destruct (step_at_rest s HY) as [H1 H2].
  assert (H3 : PidLastCompare.step (reset s) F32.zero F32.zero
               = (F32.zero, reset s))
    by (rewrite step_last_is_step_rn; exact H1).
  rewrite H1, H2, H3. cbn [snd]. repeat split.
  - exact (run_steps_at_rest _ _ H1 n).
  - exact (run_steps_at_rest _ _ H2 n).
  - exact (run_steps_at_rest _ _ H3 n).
Qed.

Lemma rest_is_fixed_point_witness :
  let s := snd (PidMyDigit.step (new_DeltaPid2TapAw YSAT) W_TGT F32.zero) in
  F32.ltb (YSAT_ s) (F32.neg (YSAT_ s)) = false /\
  run_steps PidCompare.step (reset s) (repeat (F32.zero, F32.zero) 5)
  = repeat F32.zero 5.
Proof.
  cbv zeta. split; [vm_compute; reflexivity|].
  refine (proj1 (proj2 (proj2 (proj2 (proj2
            (rest_is_fixed_point
               (snd (PidMyDigit.step (new_DeltaPid2TapAw YSAT) W_TGT F32.zero))
               5 _)))))).
  vm_compute; reflexivity.
Defined.

(* ================================================================== *)
(** * Rounding in any format *)
(* ================================================================== *)

Section RoundingShape.
Variables prec emax : Z.
Hypothesis prec_pos : 0 < prec.

(** The right shift chosen by [fexp]: the new exponent and the quotient. *)
Lemma shr_fexp_gen (m e : Z) (l : location) :
  0 <= m ->
  let E := Z.max e (Z.max (Zdigits2 m + e - prec) (3 - emax - prec)) in
  snd (shr_fexp prec emax m e l) = E /\
  shr_m (fst (shr_fexp prec emax m e l)) = m / 2 ^ (E - e) /\
  (E = e -> fst (shr_fexp prec emax m e l) = shr_record_of_loc m l).
Proof.
  intros Hm E. unfold shr_fexp, shr, fexp, emin.
  destruct (Z.max (Zdigits2 m + e - prec) (3 - emax - prec) - e) as [|p|p] eqn:Hn;
    cbn [fst snd].
  - replace (E - e) with 0 by lia. rewrite shr_m_record_of_loc.
    split; [lia|]. split; [now rewrite Z.div_1_r|reflexivity].
  - rewrite iter_shr_1_div by (rewrite shr_m_record_of_loc; exact Hm).
    rewrite shr_m_record_of_loc.
    replace (E - e) with (Zpos p) by lia.
    split; [lia|]. split; [reflexivity|lia].
  - replace (E - e) with 0 by lia. rewrite shr_m_record_of_loc.
    split; [lia|]. split; [now rewrite Z.div_1_r|reflexivity].
Qed.

Lemma loc_of_shr_record_of_loc (m : Z) (l : location) :
  loc_of_shr_record (shr_record_of_loc m l) = l.
Proof. destruct l as [|[]]; reflexivity. Qed.

(** The outcome of one rounding.  With [E] the exponent chosen for the
    value and [q] the mantissa cut to that exponent, the rounded mantissa
    [r] is [q] or [q + 1] (it is [q] when nothing was cut), and the result
    is the zero, the number [r * 2^E] or the infinity. *)
Lemma binary_round_aux_gen (s : bool) (m e : Z) (l : location) :
  0 <= m ->
  let E := Z.max e (Z.max (Zdigits2 m + e - prec) (3 - emax - prec)) in
  let q := m / 2 ^ (E - e) in
  exists r,
    q <= r <= q + 1 /\ r <= 2 ^ prec /\
    (E = e -> l = loc_Exact -> r = q) /\
    ((r = 0 /\ binary_round_aux prec emax s m e l = S754_zero s) \/
     (exists m3,
        r = Zpos m3 /\ r < 2 ^ prec /\
        binary_round_aux prec emax s m e l
        = if E <=? emax - prec then S754_finite s m3 E
          else S754_infinity s) \/
     (exists m3,
        r = 2 ^ prec /\ Zpos m3 = 2 ^ (prec - 1) /\
        binary_round_aux prec emax s m e l
        = if E + 1 <=? emax - prec then S754_finite s m3 (E + 1)
          else S754_infinity s)).
Proof.
  intros Hm E q. unfold binary_round_aux.
  destruct (shr_fexp_gen m e l Hm) as (He & Hq & Hx).
  fold E in He, Hq, Hx. fold q in Hq.
  destruct (shr_fexp prec emax m e l) as [mrs1 e1]. cbn [fst snd] in He, Hq, Hx.
  subst e1. rewrite Hq.
  pose proof (round_nearest_even_bounds q (loc_of_shr_record mrs1)) as Hr.
  assert (Hq0 : 0 <= q) by (apply Z.div_pos; lia).
  assert (Hqp : q < 2 ^ prec).
  { destruct (Zdigits2_bounds m Hm) as [D0 D1].
    apply Z.div_lt_upper_bound; [lia|].
    rewrite <- Z.pow_add_r by lia.
    apply Z.lt_le_trans with (2 ^ Zdigits2 m); [exact D1|].
    apply Z.pow_le_mono_r; lia. }
  assert (Hex : E = e -> l = loc_Exact ->
                round_nearest_even q (loc_of_shr_record mrs1) = q).
  { intros H1 H2. rewrite (Hx H1), loc_of_shr_record_of_loc, H2. reflexivity. }
  set (r := round_nearest_even q (loc_of_shr_record mrs1)) in *.
  exists r. split; [exact Hr|]. split; [lia|]. split; [exact Hex|].
  destruct (shr_fexp_gen r E loc_Exact ltac:(lia)) as (He2 & Hq2 & _).
  destruct (shr_fexp prec emax r E loc_Exact) as [mrs2 e2].
  cbn [fst snd] in He2, Hq2. rewrite Hq2, He2. clear Hq2 He2 mrs2 e2.
  assert (HE : 3 - emax - prec <= E) by lia.
  destruct (Z.lt_ge_cases r (2 ^ prec)) as [Lt|Ge].
  - pose proof (Zdigits2_le r prec ltac:(lia) ltac:(lia)) as Hd.
    replace (Z.max E (Z.max (Zdigits2 r + E - prec) (3 - emax - prec))) with E by lia.
    rewrite Z.sub_diag, Z.div_1_r.
    destruct r as [|p|p] eqn:Er; [left; split; reflexivity| |lia].
    right; left. exists p. split; [reflexivity|]. split; [exact Lt|reflexivity].
  - assert (Er : r = 2 ^ prec) by lia.
    assert (Dr : Zdigits2 r = prec + 1).
    { rewrite Er.
      assert (P : 0 < 2 ^ prec) by (apply Z.pow_pos_nonneg; lia).
      destruct (2 ^ prec) as [|p|p] eqn:E2; try lia.
      cbn [Zdigits2]. apply digits2_pos_unique. rewrite <- E2.
      replace (prec + 1 - 1) with prec by lia.
      rewrite Z.pow_add_r by lia. lia. }
    rewrite Dr.
    replace (Z.max E (Z.max (prec + 1 + E - prec) (3 - emax - prec))) with (E + 1) by lia.
    replace (E + 1 - E) with 1 by lia.
    assert (Half : r / 2 ^ 1 = 2 ^ (prec - 1)).
    { rewrite Er. change (2 ^ 1) with 2.
      replace prec with (1 + (prec - 1)) at 1 by lia.
      rewrite Z.pow_add_r by lia. change (2 ^ 1) with 2.
      rewrite Z.mul_comm, Z.div_mul by lia. reflexivity. }
    rewrite Half.
    assert (P : 0 < 2 ^ (prec - 1)) by (apply Z.pow_pos_nonneg; lia).
    destruct (2 ^ (prec - 1)) as [|p|p] eqn:E2; try lia.
    right; right. exists p. split; [exact Er|]. split; reflexivity.
Qed.
End RoundingShape.

(* ================================================================== *)
(** * Magnitudes through the operations *)
(* ================================================================== *)

Lemma div_pow2_lt (m d n : Z) :
  0 <= m < 2 ^ d -> 0 <= n <= d -> m / 2 ^ n < 2 ^ (d - n).
Proof.
  intros Hm Hn. apply Z.div_lt_upper_bound; [lia|].
  rewrite <- Z.pow_add_r by lia. replace (n + (d - n)) with d by lia. lia.
Qed.

Lemma div_pow2_zero (m d n : Z) :
  0 <= m < 2 ^ d -> 0 <= d <= n -> m / 2 ^ n = 0.
Proof.
  intros Hm Hn. apply Z.div_small. split; [lia|].
  apply Z.lt_le_trans with (2 ^ d); [lia|]. apply Z.pow_le_mono_r; lia.
Qed.

Lemma div_pow2_ge (m d n : Z) :
  2 ^ (d - 1) <= m -> 0 <= n <= d - 1 -> 2 ^ (d - 1 - n) <= m / 2 ^ n.
Proof.
  intros Hm Hn. apply Z.div_le_lower_bound; [lia|].
  rewrite <- Z.pow_add_r by lia. replace (n + (d - 1 - n)) with (d - 1) by lia.
  exact Hm.
Qed.

Lemma below_mono (M M' : Z) (x : spec_float) :
  M <= M' -> below M x = true -> below M' x = true.
Proof.
  intros H. destruct x as [s|s| |s m e]; cbn; try easy.
  intros B. apply Z.leb_le in B. apply Z.leb_le. lia.
Qed.

Lemma below_finite (M : Z) (x : spec_float) :
  below M x = true -> is_finite x = true.
Proof. destruct x; easy. Qed.

Lemma below_zero (M : Z) (x : spec_float) :
  is_zero x = true -> below M x = true.
Proof. destruct x; easy. Qed.

Lemma below_opp (M : Z) (x : spec_float) : below M (SFopp x) = below M x.
Proof. destruct x; reflexivity. Qed.

Section Magnitude.
Variables prec emax : Z.
Hypothesis prec_pos : 0 < prec.

(** One rounding raises the magnitude by at most one binade and does not
    overflow while a binade is left under the largest number. *)
Lemma binary_round_aux_below (M : Z) (s : bool) (m e : Z) (l : location) :
  0 <= m -> Zdigits2 m + e <= M ->
  3 - emax - prec <= M -> M <= emax - prec ->
  below (M + 1) (binary_round_aux prec emax s m e l) = true.
Proof.
  intros Hm HM Hlo Hhi.
  destruct (Zdigits2_bounds m Hm) as [D0 D1].
  pose proof (binary_round_aux_gen prec emax prec_pos s m e l Hm) as G.
  cbv zeta in G.
  set (E := Z.max e (Z.max (Zdigits2 m + e - prec) (3 - emax - prec))) in *.
  set (d := Zdigits2 m) in *.
  assert (HE : E <= M) by lia.
  assert (Hn : 0 <= E - e) by lia.
  set (n := E - e) in *.
  destruct G as (r & Hr & Hr2 & _ & [[_ ->]|[(m3 & Hr3 & Hlt & ->)|(m3 & Hr3 & Hm3 & ->)]]).
  - reflexivity.
  - replace (E <=? emax - prec) with true by (symmetry; apply Z.leb_le; lia).
    cbn [below]. apply Z.leb_le.
    destruct (Z.le_gt_cases n d) as [C|C].
    + pose proof (div_pow2_lt m d n ltac:(lia) ltac:(lia)) as Q.
      assert (P : 0 < 2 ^ (d - n)) by (apply Z.pow_pos_nonneg; lia).
      assert (B : Zdigits2 (Zpos m3) <= d - n + 1).
      { apply Zdigits2_le; [|lia]. rewrite Z.pow_add_r by lia.
        change (2 ^ 1) with 2. lia. }
      cbn [Zdigits2] in B. lia.
    + pose proof (div_pow2_zero m d n ltac:(lia) ltac:(lia)) as Q.
      assert (m3 = 1%positive) by lia. subst m3. cbn [digits2_pos]. lia.
  - assert (P1 : 0 < 2 ^ (prec - 1)) by (apply Z.pow_pos_nonneg; lia).
    assert (P2 : 2 ^ prec = 2 * 2 ^ (prec - 1)).
    { replace prec with (1 + (prec - 1)) at 1 by lia.
      rewrite Z.pow_add_r by lia. reflexivity. }
    assert (Dm3 : Zpos (digits2_pos m3) = prec).
    { apply digits2_pos_unique. lia. }
    assert (C : prec + n <= d).
    { destruct (Z.le_gt_cases (prec + n) d) as [C|C]; [exact C|exfalso].
      assert (Q : m / 2 ^ n < 2 ^ (prec - 1)).
      { destruct (Z.le_gt_cases n d) as [C'|C'].
        - apply Z.lt_le_trans with (2 ^ (d - n)).
          + apply div_pow2_lt; lia.
          + apply Z.pow_le_mono_r; lia.
        - rewrite (div_pow2_zero m d n); lia. }
      lia. }
    replace (E + 1 <=? emax - prec) with true by (symmetry; apply Z.leb_le; lia).
    cbn [below]. apply Z.leb_le. lia.
Qed.

(** Aligning a mantissa to a smaller exponent keeps the value. *)
Lemma shl_align_value (m : positive) (e e' : Z) :
  let r := shl_align m e e' in
  snd r = Z.min e e' /\ Zpos (fst r) = Zpos m * 2 ^ (e - snd r).
Proof.
  unfold shl_align. destruct (e' - e) as [|p|p] eqn:D; cbn [fst snd].
  - split; [lia|]. rewrite Z.sub_diag. cbn. lia.
  - split; [lia|]. rewrite Z.sub_diag. cbn. lia.
  - split; [lia|]. rewrite Pos_iter_xO. f_equal. f_equal. lia.
Qed.

Lemma shl_align_digits (m : positive) (e e' : Z) :
  let r := shl_align m e e' in
  Zpos (digits2_pos (fst r)) + snd r = Zpos (digits2_pos m) + e.
Proof.
  cbv zeta. destruct (shl_align_value m e e') as [H1 H2].
  set (r := shl_align m e e') in *.
  assert (H : 0 <= e - snd r) by lia.
  pose proof (digits2_pos_bounds m) as [B1 B2].
  assert (Zpos (digits2_pos (fst r)) = Zpos (digits2_pos m) + (e - snd r)); [|lia].
  apply digits2_pos_unique. rewrite H2.
  replace (Zpos (digits2_pos m) + (e - snd r) - 1)
    with ((Zpos (digits2_pos m) - 1) + (e - snd r)) by lia.
  rewrite !Z.pow_add_r by lia.
  assert (P : 0 < 2 ^ (e - snd r)) by (apply Z.pow_pos_nonneg; lia).
  split; [apply Z.mul_le_mono_nonneg_r; lia|apply Z.mul_lt_mono_pos_r; lia].
Qed.

(** The rounding of a number given with an exact mantissa. *)
Lemma binary_round_below (M : Z) (s : bool) (m : positive) (e : Z) :
  Zpos (digits2_pos m) + e <= M ->
  3 - emax - prec <= M -> M <= emax - 1 -> 2 <= emax ->
  below (M + 1) (binary_round prec emax s m e) = true.
Proof.
  intros HM Hlo Hhi Hemax. unfold binary_round.
  pose proof (shl_align_value m e (fexp prec emax (Zpos (digits2_pos m) + e))) as V.
  pose proof (shl_align_digits m e (fexp prec emax (Zpos (digits2_pos m) + e))) as D.
  cbv zeta in V, D.
  destruct (shl_align m e _) as [mz ez]. cbn [fst snd] in V, D.
  destruct V as [V1 V2]. unfold fexp, emin in V1.
  pose proof (binary_round_aux_gen prec emax prec_pos s (Zpos mz) ez loc_Exact
                ltac:(lia)) as G.
  cbv zeta in G. cbn [Zdigits2] in G.
  set (d := Zpos (digits2_pos m)) in *.
  set (d' := Zpos (digits2_pos mz)) in *.
  set (F := Z.max (d + e - prec) (3 - emax - prec)) in *.
  replace (Z.max ez (Z.max (d' + ez - prec) (3 - emax - prec))) with F in G by lia.
  pose proof (digits2_pos_bounds mz) as [B1 B2]. fold d' in B1, B2.
  assert (Hd' : 0 < d') by (unfold d'; lia).
  set (n := F - ez) in *.
  assert (Hn : 0 <= n) by lia.
  destruct G as (r & Hr & Hr2 & _ & [[_ ->]|[(m3 & Hr3 & Hlt & ->)|(m3 & Hr3 & Hm3 & ->)]]).
  - reflexivity.
  - replace (F <=? emax - prec) with true by (symmetry; apply Z.leb_le; lia).
    cbn [below]. apply Z.leb_le.
    destruct (Z.le_gt_cases n d') as [C|C].
    + pose proof (div_pow2_lt (Zpos mz) d' n ltac:(lia) ltac:(lia)) as Q.
      assert (P : 0 < 2 ^ (d' - n)) by (apply Z.pow_pos_nonneg; lia).
      assert (B : Zdigits2 (Zpos m3) <= d' - n + 1).
      { apply Zdigits2_le; [|lia]. rewrite Z.pow_add_r by lia.
        change (2 ^ 1) with 2. lia. }
      cbn [Zdigits2] in B. lia.
    + pose proof (div_pow2_zero (Zpos mz) d' n ltac:(lia) ltac:(lia)) as Q.
      assert (m3 = 1%positive) by lia. subst m3. cbn [digits2_pos]. lia.
  - assert (P1 : 0 < 2 ^ (prec - 1)) by (apply Z.pow_pos_nonneg; lia).
    assert (P2 : 2 ^ prec = 2 * 2 ^ (prec - 1)).
    { replace prec with (1 + (prec - 1)) at 1 by lia.
      rewrite Z.pow_add_r by lia. reflexivity. }
    assert (Dm3 : Zpos (digits2_pos m3) = prec).
    { apply digits2_pos_unique. lia. }
    assert (C : prec + n <= d').
    { destruct (Z.le_gt_cases (prec + n) d') as [C|C]; [exact C|exfalso].
      assert (Q : Zpos mz / 2 ^ n < 2 ^ (prec - 1)).
      { destruct (Z.le_gt_cases n d') as [C'|C'].
        - apply Z.lt_le_trans with (2 ^ (d' - n)).
          + apply div_pow2_lt; lia.
          + apply Z.pow_le_mono_r; lia.
        - rewrite (div_pow2_zero (Zpos mz) d' n); lia. }
      lia. }
    replace (F + 1 <=? emax - prec) with true by (symmetry; apply Z.leb_le; lia).
    cbn [below]. apply Z.leb_le. lia.
Qed.
End Magnitude.

Section MagnitudeOps.
Variables prec emax : Z.
Hypothesis prec_pos : 0 < prec.
Hypothesis emax_ge : 2 <= emax.

Lemma SFmul_below (M1 M2 : Z) (x y : spec_float) :
  below M1 x = true -> below M2 y = true ->
  3 - emax - prec <= M1 + M2 -> M1 + M2 <= emax - prec ->
  below (M1 + M2 + 1) (SFmul prec emax x y) = true.
Proof.
  intros Hx Hy Hlo Hhi.
  destruct x as [sx|sx| |sx mx ex], y as [sy|sy| |sy my ey];
    try discriminate; try reflexivity.
  cbn [below] in Hx, Hy. apply Z.leb_le in Hx, Hy. cbn [SFmul].
  apply (binary_round_aux_below prec emax prec_pos); try lia.
  pose proof (digits2_pos_bounds mx) as [_ Bx].
  pose proof (digits2_pos_bounds my) as [_ By].
  pose proof (Zdigits2_mul_le mx my _ _ Bx By ltac:(lia) ltac:(lia)). lia.
Qed.

Lemma SFadd_below (M : Z) (x y : spec_float) :
  below M x = true -> below M y = true ->
  3 - emax - prec <= M + 1 -> M + 1 <= emax - 1 ->
  below (M + 2) (SFadd prec emax x y) = true.
Proof.
  intros Hx Hy Hlo Hhi.
  destruct x as [sx|sx| |sx mx ex], y as [sy|sy| |sy my ey];
    try discriminate.
  - now destruct sx, sy.
  - cbn [SFadd]. apply below_mono with M; [lia|exact Hy].
  - cbn [SFadd]. apply below_mono with M; [lia|exact Hx].
  - cbn [below] in Hx, Hy. apply Z.leb_le in Hx, Hy. cbn [SFadd].
    set (ez := Z.min ex ey).
    pose proof (shl_align_value mx ex ez) as Vx.
    pose proof (shl_align_digits mx ex ez) as Dx.
    pose proof (shl_align_value my ey ez) as Vy.
    pose proof (shl_align_digits my ey ez) as Dy.
    cbv zeta in Vx, Dx, Vy, Dy.
    destruct (shl_align mx ex ez) as [X ex']. destruct (shl_align my ey ez) as [Y ey'].
    cbn [fst snd] in *. destruct Vx as [Vx _], Vy as [Vy _].
    assert (ex' = ez) by lia. assert (ey' = ez) by lia. subst ex' ey'.
    pose proof (digits2_pos_bounds X) as [_ BX].
    pose proof (digits2_pos_bounds Y) as [_ BY].
    pose proof (digits2_pos_bounds mx) as [_ Bmx].
    assert (Hez : 0 <= M - ez) by lia.
    assert (PX : Zpos X < 2 ^ (M - ez)).
    { apply Z.lt_le_trans with (2 ^ Zpos (digits2_pos X)); [exact BX|].
      apply Z.pow_le_mono_r; lia. }
    assert (PY : Zpos Y < 2 ^ (M - ez)).
    { apply Z.lt_le_trans with (2 ^ Zpos (digits2_pos Y)); [exact BY|].
      apply Z.pow_le_mono_r; lia. }
    assert (S : Z.abs (cond_Zopp sx (Zpos X) + cond_Zopp sy (Zpos Y))
                < 2 ^ (M - ez + 1)).
    { rewrite Z.pow_add_r by lia. change (2 ^ 1) with 2.
      destruct sx, sy; cbn [cond_Zopp]; lia. }
    destruct (cond_Zopp sx (Zpos X) + cond_Zopp sy (Zpos Y)) as [|p|p];
      cbn [binary_normalize]; [reflexivity| |].
    + replace (M + 2) with (M + 1 + 1) by lia.
      apply (binary_round_below prec emax prec_pos); try lia.
      pose proof (Zdigits2_le (Zpos p) (M - ez + 1) ltac:(lia) ltac:(lia)) as B.
      cbn [Zdigits2] in B. lia.
    + replace (M + 2) with (M + 1 + 1) by lia.
      apply (binary_round_below prec emax prec_pos); try lia.
      pose proof (Zdigits2_le (Zpos p) (M - ez + 1) ltac:(lia) ltac:(lia)) as B.
      cbn [Zdigits2] in B. lia.
Qed.

(** The quotient and exponent that [SFdiv] hands to the rounding. *)
Lemma SFdiv_core_below (mx my : positive) (ex ey : Z) :
  let c := SFdiv_core_binary prec emax (Zpos mx) ex (Zpos my) ey in
  let D := Zpos (digits2_pos mx) + ex - (Zpos (digits2_pos my) + ey) in
  0 <= fst (fst c) /\
  Zdigits2 (fst (fst c)) + snd (fst c) <= Z.max (D + 1) (3 - emax - prec).
Proof.
  cbv zeta. unfold SFdiv_core_binary. cbn [Zdigits2].
  set (dx := Zpos (digits2_pos mx)). set (dy := Zpos (digits2_pos my)).
  set (e' := Z.min (fexp prec emax (dx + ex - (dy + ey))) (ex - ey)).
  set (s := ex - ey - e').
  assert (Hs : 0 <= s) by (unfold s, e'; lia).
  assert (He' : e' <= Z.max (dx + ex - (dy + ey) - prec) (3 - emax - prec))
    by (unfold e', fexp, emin; apply Z.le_min_l).
  set (m' := match s with Z0 => Zpos mx | Zpos _ => Z.shiftl (Zpos mx) s
                        | Zneg _ => 0 end).
  assert (Hm' : m' = Zpos mx * 2 ^ s).
  { unfold m'. destruct s as [|p|p] eqn:Es; [cbn; lia| |lia].
    now rewrite Z.shiftl_mul_pow2 by lia. }
  pose proof (Z_div_mod m' (Zpos my) ltac:(lia)) as DM.
  destruct (Z.div_eucl m' (Zpos my)) as [q r]. cbn [fst snd].
  destruct DM as [DM1 DM2].
  pose proof (digits2_pos_bounds mx) as [_ Bx]. fold dx in Bx.
  pose proof (digits2_pos_bounds my) as [By _]. fold dy in By.
  assert (Ps : 0 < 2 ^ s) by (apply Z.pow_pos_nonneg; lia).
  assert (Hq : 0 <= q) by nia.
  split; [exact Hq|].
  destruct (Z.eq_dec q 0) as [->|Nq]; [cbn [Zdigits2]; lia|].
  assert (Hdy : 0 < dy) by (unfold dy; lia).
  assert (U : m' < 2 ^ (dx + s)).
  { rewrite Hm', Z.pow_add_r by (unfold dx; lia).
    apply Z.mul_lt_mono_pos_r; lia. }
  assert (Pd : 0 < 2 ^ (dy - 1)) by (apply Z.pow_pos_nonneg; lia).
  assert (V : q * 2 ^ (dy - 1) < 2 ^ (dx + s)) by nia.
  assert (W : dy - 1 < dx + s).
  { apply (Z.pow_lt_mono_r_iff 2); [lia|unfold dx; lia|]. nia. }
  assert (B : Zdigits2 q <= dx + s - dy + 1).
  { apply Zdigits2_le; [|lia]. split; [lia|].
    apply Z.mul_lt_mono_pos_r with (2 ^ (dy - 1)); [lia|].
    rewrite <- Z.pow_add_r by lia.
    replace (dx + s - dy + 1 + (dy - 1)) with (dx + s) by lia. exact V. }
  unfold s in B. lia.
Qed.

Lemma SFdiv_below (M L : Z) (x y : spec_float) :
  below M x = true -> above L y = true ->
  3 - emax - prec <= M - L + 1 -> M - L + 1 <= emax - prec ->
  below (M - L + 2) (SFdiv prec emax x y) = true.
Proof.
  intros Hx Hy Hlo Hhi.
  destruct x as [sx|sx| |sx mx ex], y as [sy|sy| |sy my ey];
    try discriminate; try reflexivity.
  cbn [below above] in Hx, Hy. apply Z.leb_le in Hx, Hy. cbn [SFdiv].
  pose proof (SFdiv_core_below mx my ex ey) as C. cbv zeta in C.
  destruct (SFdiv_core_binary prec emax (Zpos mx) ex (Zpos my) ey) as [[q e'] l].
  cbn [fst snd] in C. destruct C as [C1 C2].
  replace (M - L + 2) with (M - L + 1 + 1) by lia.
  apply (binary_round_aux_below prec emax prec_pos); lia.
Qed.

Lemma of_wider_below (M : Z) (x : spec_float) :
  below M x = true ->
  3 - emax - prec <= M -> M <= emax - 1 ->
  below (M + 1) (of_wider prec emax x) = true.
Proof.
  intros Hx Hlo Hhi. destruct x as [s|s| |s m e]; try discriminate.
  - reflexivity.
  - cbn [below] in Hx. apply Z.leb_le in Hx. cbn [of_wider].
    apply (binary_round_below prec emax prec_pos); lia.
Qed.

(** Signs. *)
Lemma nonneg_cases (x : spec_float) :
  nonneg x = true ->
  is_finite x = true ->
  is_zero x = true \/ exists m e, x = S754_finite false m e.
Proof.
  destruct x as [s|s| |[] m e]; try discriminate; intros _ _.
  - now left.
  - right. now exists m, e.
Qed.

Lemma binary_round_aux_nonneg (m e : Z) (l : location) :
  0 <= m -> nonneg (binary_round_aux prec emax false m e l) = true.
Proof.
  intros Hm.
  pose proof (binary_round_aux_signbit prec emax false m e l Hm) as S.
  destruct (binary_round_aux prec emax false m e l) as [[]|[]| |[] m3 e3];
    try discriminate; reflexivity.
Qed.

Lemma SFmul_nonneg (x y : spec_float) :
  nonneg x = true -> nonneg y = true ->
  is_finite x = true -> is_finite y = true ->
  nonneg (SFmul prec emax x y) = true.
Proof.
  intros Hx Hy Fx Fy.
  destruct (nonneg_cases x Hx Fx) as [Zx|(mx & ex & ->)],
           (nonneg_cases y Hy Fy) as [Zy|(my & ey & ->)].
  - destruct x, y; try discriminate; reflexivity.
  - destruct x; try discriminate; reflexivity.
  - destruct y; try discriminate; reflexivity.
  - cbn [SFmul xorb]. apply binary_round_aux_nonneg. lia.
Qed.

Lemma SFdiv_nonneg (x : spec_float) (my : positive) (ey : Z) :
  nonneg x = true -> is_finite x = true ->
  nonneg (SFdiv prec emax x (S754_finite false my ey)) = true.
Proof.
  intros Hx Fx.
  destruct (nonneg_cases x Hx Fx) as [Zx|(mx & ex & ->)].
  - destruct x as [[]| | |]; try discriminate; reflexivity.
  - cbn [SFdiv xorb].
    pose proof (SFdiv_core_below mx my ex ey) as C. cbv zeta in C.
    destruct (SFdiv_core_binary prec emax (Zpos mx) ex (Zpos my) ey) as [[q e'] l].
    cbn [fst snd] in C. apply binary_round_aux_nonneg. lia.
Qed.

(** In the normal range a rounding does not lower the binade. *)
Lemma binary_round_above (L : Z) (s : bool) (m : positive) (e : Z) :
  L <= Zpos (digits2_pos m) + e ->
  3 - emax <= L -> Zpos (digits2_pos m) + e <= emax - 1 ->
  exists m3 e3,
    binary_round prec emax s m e = S754_finite s m3 e3 /\
    L <= Zpos (digits2_pos m3) + e3.
Proof.
  intros HL Hlo Hhi. unfold binary_round.
  pose proof (shl_align_value m e (fexp prec emax (Zpos (digits2_pos m) + e))) as V.
  pose proof (shl_align_digits m e (fexp prec emax (Zpos (digits2_pos m) + e))) as D.
  cbv zeta in V, D.
  destruct (shl_align m e _) as [mz ez]. cbn [fst snd] in V, D.
  destruct V as [V1 V2]. unfold fexp, emin in V1.
  pose proof (binary_round_aux_gen prec emax prec_pos s (Zpos mz) ez loc_Exact
                ltac:(lia)) as G.
  cbv zeta in G. cbn [Zdigits2] in G.
  set (d := Zpos (digits2_pos m)) in *.
  set (d' := Zpos (digits2_pos mz)) in *.
  replace (Z.max ez (Z.max (d' + ez - prec) (3 - emax - prec)))
    with (d + e - prec) in G by lia.
  pose proof (digits2_pos_bounds mz) as [B1 B2]. fold d' in B1, B2.
  set (n := d + e - prec - ez) in *.
  assert (Hn : 0 <= n <= d' - 1) by lia.
  pose proof (div_pow2_ge (Zpos mz) d' n B1 Hn) as Q.
  replace (d' - 1 - n) with (prec - 1) in Q by lia.
  assert (P1 : 0 < 2 ^ (prec - 1)) by (apply Z.pow_pos_nonneg; lia).
  destruct G as (r & Hr & Hr2 & _ & [[R0 _]|[(m3 & Hr3 & Hlt & ->)|(m3 & Hr3 & Hm3 & ->)]]).
  - lia.
  - replace (d + e - prec <=? emax - prec) with true
      by (symmetry; apply Z.leb_le; lia).
    exists m3, (d + e - prec). split; [reflexivity|].
    pose proof (digits2_pos_bounds m3) as [_ B3].
    assert (W : 2 ^ (prec - 1) < 2 ^ Zpos (digits2_pos m3)) by lia.
    apply Z.pow_lt_mono_r_iff in W; lia.
  - replace (d + e - prec + 1 <=? emax - prec) with true
      by (symmetry; apply Z.leb_le; lia).
    exists m3, (d + e - prec + 1). split; [reflexivity|].
    assert (Dm3 : Zpos (digits2_pos m3) = prec).
    { apply digits2_pos_unique.
      replace prec with (1 + (prec - 1)) at 2 by lia.
      rewrite Z.pow_add_r by lia. change (2 ^ 1) with 2. lia. }
    lia.
Qed.

(** Adding something non-negative to a positive normal number gives a
    positive number that is not smaller in magnitude. *)
Lemma SFadd_pos_above (L M : Z) (mx : positive) (ex : Z) (y : spec_float) :
  above L (S754_finite false mx ex) = true ->
  below M (S754_finite false mx ex) = true ->
  below M y = true -> nonneg y = true ->
  3 - emax <= L -> M + 1 <= emax - 1 ->
  exists m e,
    SFadd prec emax (S754_finite false mx ex) y = S754_finite false m e /\
    L <= Zpos (digits2_pos m) + e.
Proof.
  intros Hx Bx By Ny Hlo Hhi.
  cbn [above below] in Hx, Bx. apply Z.leb_le in Hx, Bx.
  destruct (nonneg_cases y Ny (below_finite M y By)) as [Zy|(my & ey & ->)].
  - destruct y; try discriminate. exists mx, ex. split; [reflexivity|exact Hx].
  - cbn [below] in By. apply Z.leb_le in By. cbn [SFadd cond_Zopp].
    set (ez := Z.min ex ey).
    pose proof (shl_align_value mx ex ez) as Vx.
    pose proof (shl_align_digits mx ex ez) as Dx.
    pose proof (shl_align_value my ey ez) as Vy.
    pose proof (shl_align_digits my ey ez) as Dy.
    cbv zeta in Vx, Dx, Vy, Dy.
    destruct (shl_align mx ex ez) as [X ex']. destruct (shl_align my ey ez) as [Y ey'].
    cbn [fst snd] in *. destruct Vx as [Vx _], Vy as [Vy _].
    assert (ex' = ez) by lia. assert (ey' = ez) by lia. subst ex' ey'.
    change (Zpos X + Zpos Y) with (Zpos (X + Y)). cbn [binary_normalize].
    pose proof (digits2_pos_mono X (X + Y) ltac:(lia)) as Mo.
    pose proof (digits2_pos_bounds X) as [_ BX].
    pose proof (digits2_pos_bounds Y) as [_ BY].
    assert (Hez : 0 <= M - ez).
    { pose proof (digits2_pos_bounds mx). lia. }
    assert (PX : Zpos X < 2 ^ (M - ez)).
    { apply Z.lt_le_trans with (2 ^ Zpos (digits2_pos X)); [exact BX|].
      apply Z.pow_le_mono_r; lia. }
    assert (PY : Zpos Y < 2 ^ (M - ez)).
    { apply Z.lt_le_trans with (2 ^ Zpos (digits2_pos Y)); [exact BY|].
      apply Z.pow_le_mono_r; lia. }
    assert (S : Zpos (X + Y) < 2 ^ (M - ez + 1)).
    { rewrite Z.pow_add_r by lia. change (2 ^ 1) with 2. lia. }
    pose proof (Zdigits2_le (Zpos (X + Y)) (M - ez + 1) ltac:(lia) ltac:(lia)) as B.
    cbn [Zdigits2] in B.
    apply binary_round_above; lia.
Qed.
End MagnitudeOps.

(* ================================================================== *)
(** * Lower bounds through the operations *)
(* ================================================================== *)


Lemma above_mono (L L' : Z) (x : spec_float) :
  L' <= L -> above L x = true -> above L' x = true.
Proof.
  intros H. destruct x as [s|s| |s m e]; cbn; try easy.
  intros B. apply Z.leb_le in B. apply Z.leb_le. lia.
Qed.

Lemma moderate_mono (K K' : Z) (x : spec_float) :
  K <= K' -> moderate K x = true -> moderate K' x = true.
Proof.
  intros H. unfold moderate. destruct (is_zero x); [reflexivity|].
  cbn [orb]. intros M. apply andb_prop in M as [M1 M2].
  rewrite (above_mono (- K) (- K') x ltac:(lia) M1).
  now rewrite (below_mono K K' x H M2).
Qed.



Section LowerBounds.
Variables prec emax : Z.
Hypothesis prec_pos : 0 < prec.
Hypothesis emax_ge : 2 <= emax.





End LowerBounds.

(* ================================================================== *)
(** * The coefficient derivation on moderate gains *)
(* ================================================================== *)

Lemma F64_mul_below (M1 M2 M : Z) (x y : F64.t) :
  below M1 x = true -> below M2 y = true ->
  (-1074 <=? M1 + M2) && (M1 + M2 <=? 971) && (M1 + M2 + 1 <=? M) = true ->
  below M (F64.mul x y) = true.
Proof.
  intros Hx Hy C. apply andb_prop in C as [C C3]. apply andb_prop in C as [C1 C2].
  apply Z.leb_le in C1, C2, C3.
  apply below_mono with (M1 + M2 + 1); [exact C3|].
  apply (SFmul_below 53 1024); try assumption; lia.
Qed.

Lemma F64_add_below (M1 M2 M : Z) (x y : F64.t) :
  below M1 x = true -> below M2 y = true ->
  (-1075 <=? Z.max M1 M2) && (Z.max M1 M2 <=? 1021)
  && (Z.max M1 M2 + 2 <=? M) = true ->
  below M (F64.add x y) = true.
Proof.
  intros Hx Hy C. apply andb_prop in C as [C C3]. apply andb_prop in C as [C1 C2].
  apply Z.leb_le in C1, C2, C3.
  apply below_mono with (Z.max M1 M2 + 2); [exact C3|].
  apply (SFadd_below 53 1024); try lia.
  - apply below_mono with M1; [lia|exact Hx].
  - apply below_mono with M2; [lia|exact Hy].
Qed.

Lemma F64_div_below (M1 L M : Z) (x y : F64.t) :
  below M1 x = true -> above L y = true ->
  (-1075 <=? M1 - L) && (M1 - L <=? 970) && (M1 - L + 2 <=? M) = true ->
  below M (F64.div x y) = true.
Proof.
  intros Hx Hy C. apply andb_prop in C as [C C3]. apply andb_prop in C as [C1 C2].
  apply Z.leb_le in C1, C2, C3.
  apply below_mono with (M1 - L + 2); [exact C3|].
  apply (SFdiv_below 53 1024); try assumption; lia.
Qed.

Lemma F64_neg_below (M : Z) (x : F64.t) :
  below M x = true -> below M (F64.neg x) = true.
Proof. intros H. unfold F64.neg. now rewrite below_opp. Qed.

(** A double below 2^127 is stored as a finite [float]. *)
Lemma of_double_finite (M : Z) (x : F64.t) :
  below M x = true -> (M <=? 127) = true ->
  is_finite (F32.of_double x) = true.
Proof.
  intros Hx C. apply Z.leb_le in C.
  destruct (Z.le_gt_cases (-149) M) as [L|L].
  - apply below_finite with (M + 1).
    apply (of_wider_below 24 128); try assumption; lia.
  - apply below_finite with (-149 + 1).
    apply (of_wider_below 24 128); try lia.
    apply below_mono with M; [lia|exact Hx].
Qed.

Lemma moderate_below (K : Z) (x : spec_float) :
  moderate K x = true -> below K x = true.
Proof.
  unfold moderate. destruct x as [s|s| |s m e]; try discriminate; [reflexivity|].
  cbn [is_zero orb]. intros H. now apply andb_prop in H.
Qed.

(** A moderate [x > 0] is a positive number that is not tiny. *)
Lemma moderate_positive (K : Z) (x : F64.t) :
  moderate K x = true -> App.gt x App.d0 = true ->
  exists m e, x = S754_finite false m e /\ above (- K) x = true.
Proof.
  unfold moderate. destruct x as [[]|[]| |[] m e]; try discriminate.
  cbn [is_zero orb]. intros H _. apply andb_prop in H as [H _].
  exists m, e. split; [reflexivity|exact H].
Qed.

Lemma d0_below (M : Z) : below M App.d0 = true.
Proof. reflexivity. Qed.

Lemma d1_below : below 1 App.d1 = true.
Proof. rewrite d1_value. reflexivity. Qed.

Lemma d2_value : App.d2 = S754_finite false 4503599627370496 (-51).
Proof. vm_compute. reflexivity. Qed.

Lemma d2_below : below 2 App.d2 = true.
Proof. rewrite d2_value. reflexivity. Qed.

Lemma Ts_sec_below : below (-7) App.Ts_sec = true.
Proof. rewrite Ts_sec_value. reflexivity. Qed.

(** The time constants of moderate gains. *)
Lemma time_constants_moderate (Kp Ki Kd N : F64.t) :
  let tc := App.compute_time_constants Kp Ki Kd N in
  moderate 20 Kp = true -> moderate 20 Kd = true -> moderate 20 N = true ->
  below 42 (snd (fst tc)) = true /\
  below 23 (snd tc) = true /\
  nonneg (snd tc) = true /\
  (nonneg Kd = true -> nonneg (snd (fst tc)) = true).
Proof.
  cbv zeta. intros HKp HKd HN. unfold App.compute_time_constants. cbn [fst snd].
  pose proof (moderate_below _ _ HKd) as BKd.
  repeat split.
  - destruct (App.gt Kp App.d0) eqn:G; [|reflexivity].
    destruct (moderate_positive _ _ HKp G) as (m & e & _ & A).
    now apply (F64_div_below 20 (-20) 42 Kd Kp).
  - destruct (App.gt N App.d0) eqn:G; [|reflexivity].
    destruct (moderate_positive _ _ HN G) as (m & e & _ & A).
    now apply (F64_div_below 1 (-20) 23 App.d1 N d1_below).
  - destruct (App.gt N App.d0) eqn:G; [|reflexivity].
    destruct (moderate_positive _ _ HN G) as (m & e & -> & A).
    apply (SFdiv_nonneg 53 1024); rewrite ?d1_value; first [reflexivity|lia].
  - intros NKd. destruct (App.gt Kp App.d0) eqn:G; [|reflexivity].
    destruct (moderate_positive _ _ HKp G) as (m & e & -> & A).
    apply (SFdiv_nonneg 53 1024);
      first [exact NKd|now apply below_finite with 20|lia].
Qed.

(** Without proportional gain [Td] is +0, and without proportional or
    integral gain [Ts/Ti] is +0, whatever the other gains are. *)
Lemma time_constants_degenerate (Kp Ki Kd N : F64.t) :
  let tc := App.compute_time_constants Kp Ki Kd N in
  (is_zero Kp = true -> snd (fst tc) = App.d0) /\
  (is_zero Ki = true \/ is_zero Kp = true ->
   App.Ts_over_Ti_of (fst (fst tc)) = App.d0).
Proof.
  cbv zeta. unfold App.compute_time_constants. cbn [fst snd]. split.
  - intros Z. destruct Kp as [[]| | |]; try discriminate; reflexivity.
  - intros [Z|Z].
    + assert (G : App.gt Ki App.d0 = false)
        by (destruct Ki as [[]| | |]; try discriminate; reflexivity).
      rewrite G. cbn [andb]. unfold App.Ts_over_Ti_of.
      now rewrite d1e30_not_below_d1e20.
    + assert (G : App.gt Kp App.d0 = false)
        by (destruct Kp as [[]| | |]; try discriminate; reflexivity).
      rewrite G, andb_false_r. unfold App.Ts_over_Ti_of.
      now rewrite d1e30_not_below_d1e20.
Qed.

(** The denominator [Ts + a*Td] of non-negative time constants is a
    positive number, not smaller than [Ts] in magnitude. *)
Lemma den_positive (Td a : F64.t) :
  below 42 Td = true -> below 23 a = true ->
  nonneg Td = true -> nonneg a = true ->
  exists m e,
    App.den_of Td a = S754_finite false m e /\
    above (-7) (App.den_of Td a) = true /\
    below 68 (App.den_of Td a) = true.
Proof.
  intros BT Ba NT Na. unfold App.den_of.
  assert (B : below 66 (F64.mul a Td) = true)
    by now apply (F64_mul_below 23 42 66 a Td).
  assert (P : nonneg (F64.mul a Td) = true).
  { apply (SFmul_nonneg 53 1024); try assumption.
    - now apply below_finite with 23.
    - now apply below_finite with 42. }
  assert (U : below 68 (F64.add App.Ts_sec (F64.mul a Td)) = true)
    by now apply (F64_add_below (-7) 66 68 _ _ Ts_sec_below B).
  revert U. unfold F64.add, F64.prec, F64.emax. rewrite Ts_sec_value. intros U.
  destruct (SFadd_pos_above 53 1024 ltac:(lia) (-7) 66
              5764607523034235 (-60) (F64.mul a Td)
              eq_refl eq_refl B P ltac:(lia) ltac:(lia)) as (m & e & E & A).
  exists m, e. rewrite E in U |- *. split; [reflexivity|]. split; [|exact U].
  cbn [above]. now apply Z.leb_le.
Qed.

(** Derives [below M e = true], for the bound [M] that the operations of
    [e] give, from the bounds of its leaves in the context. *)
Ltac bound_term e :=
  lazymatch goal with
  | _ : below _ e = true |- _ => idtac
  | _ =>
    lazymatch e with
    | F64.mul ?x ?y =>
        bound_term x; bound_term y;
        lazymatch goal with
        | Hx : below ?M1 x = true |- _ =>
          lazymatch goal with
          | Hy : below ?M2 y = true |- _ =>
              let M := eval cbv in (M1 + M2 + 1) in
              assert (below M (F64.mul x y) = true)
                by exact (F64_mul_below M1 M2 M x y Hx Hy eq_refl)
          end
        end
    | F64.add ?x ?y =>
        bound_term x; bound_term y;
        lazymatch goal with
        | Hx : below ?M1 x = true |- _ =>
          lazymatch goal with
          | Hy : below ?M2 y = true |- _ =>
              let M := eval cbv in (Z.max M1 M2 + 2) in
              assert (below M (F64.add x y) = true)
                by exact (F64_add_below M1 M2 M x y Hx Hy eq_refl)
          end
        end
    | F64.div ?x ?y =>
        bound_term x;
        lazymatch goal with
        | Hx : below ?M1 x = true |- _ =>
          lazymatch goal with
          | Hy : above ?L y = true |- _ =>
              let M := eval cbv in (M1 - L + 2) in
              assert (below M (F64.div x y) = true)
                by exact (F64_div_below M1 L M x y Hx Hy eq_refl)
          end
        end
    | F64.neg ?x =>
        bound_term x;
        lazymatch goal with
        | Hx : below ?M1 x = true |- _ =>
            assert (below M1 (F64.neg x) = true)
              by exact (F64_neg_below M1 x Hx)
        end
    end
  end.

(** Finiteness of a double, and of its [float] store, from its bound. *)
Ltac finite_by_bound :=
  lazymatch goal with
  | |- is_finite (F32.of_double ?e) = true =>
      bound_term e;
      lazymatch goal with
      | H : below ?M e = true |- _ => exact (of_double_finite M e H eq_refl)
      end
  | |- is_finite ?e = true =>
      bound_term e;
      lazymatch goal with
      | H : below ?M e = true |- _ => exact (below_finite M e H)
      end
  end.

Lemma SFdiv_zero_finite (x y : F64.t) (s : bool) (m : positive) (e : Z) :
  is_zero x = true -> y = S754_finite s m e -> is_zero (F64.div x y) = true.
Proof. intros Z ->. destruct x; try discriminate; reflexivity. Qed.

Lemma gt_zero_of_positive (m : positive) (e : Z) :
  App.gt (S754_finite false m e) App.d0 = true.
Proof. reflexivity. Qed.

(** A zero product, quotient or negation, from a zero factor. *)
Ltac zero_by_factor :=
  lazymatch goal with
  | H : is_zero ?e = true |- is_zero ?e = true => exact H
  | |- is_zero App.d0 = true => reflexivity
  | |- is_zero (F32.of_double ?x) = true => apply is_zero_of_double; zero_by_factor
  | |- is_zero (F64.neg ?x) = true => rewrite is_zero_neg; zero_by_factor
  | |- is_zero (F64.div ?x ?y) = true =>
      lazymatch goal with
      | H : y = S754_finite _ _ _ |- _ =>
          eapply (SFdiv_zero_finite x y); [zero_by_factor|exact H]
      end
  | |- is_zero (F64.mul ?x ?y) = true =>
      first [ apply SFmul_zero_l; [zero_by_factor|finite_by_bound] | apply SFmul_zero_r; [finite_by_bound|zero_by_factor] ]
  end.

Ltac split_forallb :=
  cbn [forallb]; repeat (apply andb_true_intro; split); try reflexivity.

(** C7, as amended.  With Ki = 0 the factor Ts/Ti is exactly +0, and with
    Kp = 0 both Td and Ts/Ti are exactly +0, for all gains.  For gains each
    of which is a zero or of magnitude between 2^-21 and 2^20, moreover:
    with Ki = 0 and Kd >= 0 the term a*Td*(Ts/Ti) is a zero, both
    anti-windup taps are zeros, and none of the nine coefficients is a NaN
    or an infinity, as doubles and as the stored floats; with Kp = 0 every
    term with the factor Td is a zero, the coefficients a0 and c1 .. c6
    and the tap c7b are zeros, and the nine stored floats are finite. *)
Theorem degenerate_gains (Kp Ki Kd N b c Kb : F64.t) :
  let tc := App.compute_time_constants Kp Ki Kd N in
  let Ti := fst (fst tc) in
  let Td := snd (fst tc) in
  let a := snd tc in
  let Ts_over_Ti := App.Ts_over_Ti_of Ti in
  let den := App.den_of Td a in
  let d := App.coeffs_double Kp Ki Kd N b c Kb in
  let k := App.compute_coeffs Kp Ki Kd N b c Kb in
  (is_zero Ki = true -> Ts_over_Ti = F64.zero) /\
  (is_zero Kp = true -> Td = F64.zero /\ Ts_over_Ti = F64.zero) /\
  (forallb (moderate 20) [Kp; Ki; Kd; N; b; c; Kb] = true ->
   (is_zero Ki = true -> nonneg Kd = true ->
    is_zero (F64.mul (F64.mul a Td) Ts_over_Ti) = true /\
    forallb is_zero [App.c7a d; App.c7b d; App.c7a k; App.c7b k] = true /\
    forallb is_finite (App.coeff_list d) = true /\
    forallb is_finite (App.coeff_list k) = true) /\
   (is_zero Kp = true ->
    forallb is_zero
      [F64.mul a Td; F64.mul Td c; F64.mul (F64.mul App.d2 a) Td;
       F64.mul App.d2 Td; F64.mul Kp Td; F64.div Td den;
       F64.mul Td (F64.add a App.d1)] = true /\
    forallb is_zero
      [App.a0 d; App.c1 d; App.c2 d; App.c3 d; App.c4 d; App.c5 d; App.c6 d;
       App.c7b d] = true /\
    forallb is_zero
      [App.a0 k; App.c1 k; App.c2 k; App.c3 k; App.c4 k; App.c5 k; App.c6 k;
       App.c7b k] = true /\
    forallb is_finite (App.coeff_list k) = true)).
Proof.
  cbv zeta.
  destruct (time_constants_degenerate Kp Ki Kd N) as [ZTd ETs].
  split; [intros ZKi; exact (ETs (or_introl ZKi))|].
  split; [intros ZKp; split; [exact (ZTd ZKp)|exact (ETs (or_intror ZKp))]|].
  intros Hmod. cbn [forallb] in Hmod.
  repeat (apply andb_prop in Hmod as [? Hmod]). clear Hmod.
  match goal with
  | H1 : moderate 20 Kp = true, H2 : moderate 20 Kd = true,
    H3 : moderate 20 N = true |- _ =>
      destruct (time_constants_moderate Kp Ki Kd N H1 H2 H3)
        as (BTd & Ba & Na & NTd)
  end.
  repeat match goal with
         | H : moderate 20 _ = true |- _ => apply moderate_below in H
         end.
  pose proof (d0_below 0) as Bd0. pose proof d1_below as Bd1.
  pose proof d2_below as Bd2. pose proof Ts_sec_below as BTs.
  unfold App.compute_coeffs, App.to_single, App.coeffs_double.
  destruct (App.compute_time_constants Kp Ki Kd N) as [[Ti Td] a].
  cbn [fst snd] in *.
  cbv beta iota zeta delta
      [App.coeff_list App.a0 App.c1 App.c2 App.c3 App.c4 App.c5 App.c6
       App.c7a App.c7b].
  split.
  - intros ZKi NKd. specialize (NTd NKd). rewrite (ETs (or_introl ZKi)).
    destruct (den_positive Td a BTd Ba NTd Na) as (m & e & Eden & Aden & Bden).
    set (den := App.den_of Td a) in *.
    assert (G : App.gt den App.d0 = true)
      by (rewrite Eden; apply gt_zero_of_positive).
    rewrite G. cbv iota.
    split; [zero_by_factor|]. split; [|split].
    + split_forallb; zero_by_factor.
    + split_forallb; finite_by_bound.
    + split_forallb; finite_by_bound.
  - intros ZKp. specialize (ZTd ZKp). rewrite (ETs (or_intror ZKp)).
    assert (NTd' : nonneg Td = true) by (rewrite ZTd; reflexivity).
    destruct (den_positive Td a BTd Ba NTd' Na) as (m & e & Eden & Aden & Bden).
    set (den := App.den_of Td a) in *.
    assert (G : App.gt den App.d0 = true)
      by (rewrite Eden; apply gt_zero_of_positive).
    rewrite G. cbv iota.
    assert (ZT : is_zero Td = true) by (rewrite ZTd; reflexivity).
    split; [|split; [|split]].
    + split_forallb; zero_by_factor.
    + split_forallb; zero_by_factor.
    + split_forallb; zero_by_factor.
    + split_forallb; finite_by_bound.
Qed.

Lemma degenerate_gains_witness :
  forallb (moderate 20)
          [Tuning.Kp; F64.zero; Tuning.Kd; Tuning.N; Tuning.one; F64.zero;
           Tuning.twelve] = true /\
  forallb is_finite
          (App.coeff_list
             (App.compute_coeffs Tuning.Kp F64.zero Tuning.Kd Tuning.N
                                 Tuning.one F64.zero Tuning.twelve)) = true /\
  forallb (moderate 20)
          [F64.zero; Tuning.Ki; Tuning.Kd; Tuning.N; Tuning.one; F64.zero;
           Tuning.twelve] = true /\
  forallb is_finite
          (App.coeff_list
             (App.compute_coeffs F64.zero Tuning.Ki Tuning.Kd Tuning.N
                                 Tuning.one F64.zero Tuning.twelve)) = true.
Proof.
  assert (H1 : forallb (moderate 20)
                 [Tuning.Kp; F64.zero; Tuning.Kd; Tuning.N; Tuning.one;
                  F64.zero; Tuning.twelve] = true) by (vm_compute; reflexivity).
  assert (H2 : forallb (moderate 20)
                 [F64.zero; Tuning.Ki; Tuning.Kd; Tuning.N; Tuning.one;
                  F64.zero; Tuning.twelve] = true) by (vm_compute; reflexivity).
  split; [exact H1|]. split; [|split; [exact H2|]].
  - refine (proj2 (proj2 (proj2
             (proj1 (proj2 (proj2
                (degenerate_gains Tuning.Kp F64.zero Tuning.Kd Tuning.N
                                  Tuning.one F64.zero Tuning.twelve)) H1)
                    _ _)))); vm_compute; reflexivity.
  - refine (proj2 (proj2 (proj2
             (proj2 (proj2 (proj2
                (degenerate_gains F64.zero Tuning.Ki Tuning.Kd Tuning.N
                                  Tuning.one F64.zero Tuning.twelve)) H2)
                    _)))); vm_compute; reflexivity.
Defined.

(** C7, the claim as stated fails, in both halves.  With Ki = 0 and
    Kp = 2^128 (Kd = 0, N = 1, b = 1, c = 0, Kb = 0) the stored [c1] is
    +infinity and [c4] is -infinity.  With Kp = 0 and N = 2^-1023 (Ki = 0.08,
    Kd = 0.0011, b = 1, c = 0, Kb = 1), Td is 0 and a = 1/N is finite, yet
    the term 2*a*Td is a NaN, and so are [c2] and [c5]. *)
Lemma coeffs_not_finite_at_extreme_gains :
  (let k := App.compute_coeffs Tuning.two_128 F64.zero F64.zero Tuning.one
                               Tuning.one F64.zero F64.zero in
   is_zero F64.zero = true /\
   App.c1 k = S754_infinity false /\ App.c4 k = S754_infinity true) /\
  (let tc := App.compute_time_constants F64.zero Tuning.Ki Tuning.Kd Tuning.two_m1023 in
   let k := App.compute_coeffs F64.zero Tuning.Ki Tuning.Kd Tuning.two_m1023
                               Tuning.one F64.zero Tuning.one in
   is_zero F64.zero = true /\
   snd (fst tc) = F64.zero /\
   is_finite (snd tc) = true /\
   is_nan (F64.mul (F64.mul App.d2 (snd tc)) (snd (fst tc))) = true /\
   is_nan (App.c2 k) = true /\ is_nan (App.c5 k) = true).
Proof. cbv zeta. repeat split; vm_compute; reflexivity. Qed.

(* ================================================================== *)
(** * The error of one rounding *)
(* ================================================================== *)

Section RoundingError.
Variables prec emax : Z.
Hypothesis prec_pos : 0 < prec.

End RoundingError.

(* ================================================================== *)
(** * Values and relative errors *)
(* ================================================================== *)

Lemma pow2_pos (e : Z) : (0 < 2 ^ e)%Q.
Proof. apply Qpower_0_lt. reflexivity. Qed.

Lemma pow2_add (a b : Z) : (2 ^ (a + b) == 2 ^ a * 2 ^ b)%Q.
Proof. apply Qpower_plus. discriminate. Qed.

Lemma pow2_inject (n : Z) : 0 <= n -> (inject_Z (2 ^ n) == 2 ^ n)%Q.
Proof. intros H. exact (Zpower_Qpower 2 n H). Qed.

Lemma F2Q_abs (s : bool) (m : positive) (e : Z) :
  (Qabs (F2Q (S754_finite s m e)) == inject_Z (Zpos m) * 2 ^ e)%Q.
Proof.
  cbn [F2Q]. rewrite Qabs_Qmult.
  rewrite (Qabs_pos (2 ^ e)) by (apply Qlt_le_weak, pow2_pos).
  apply Qmult_comp; [|reflexivity].
  destruct s; cbn [cond_Zopp]; reflexivity.
Qed.




(** The magnitudes, read on the values: [below M] is [|x| < 2^M] and
    [above L] is [2^(L-1) <= |x|]. *)
Lemma below_value (M : Z) (s : bool) (m : positive) (e : Z) :
  below M (S754_finite s m e) = true ->
  (Qabs (F2Q (S754_finite s m e)) < 2 ^ M)%Q.
Proof.
  cbn [below]. intros H. apply Z.leb_le in H. rewrite F2Q_abs.
  pose proof (digits2_pos_bounds m) as [_ B].
  apply Qlt_le_trans with (2 ^ (Zpos (digits2_pos m) + e))%Q.
  - rewrite pow2_add. apply Qmult_lt_compat_r; [apply pow2_pos|].
    rewrite <- pow2_inject by lia. rewrite <- Zlt_Qlt. exact B.
  - apply Qpower_le_compat_l; [exact H|discriminate].
Qed.

Lemma above_value (L : Z) (s : bool) (m : positive) (e : Z) :
  above L (S754_finite s m e) = true ->
  (2 ^ (L - 1) <= Qabs (F2Q (S754_finite s m e)))%Q.
Proof.
  cbn [above]. intros H. apply Z.leb_le in H. rewrite F2Q_abs.
  pose proof (digits2_pos_bounds m) as [B _].
  apply Qle_trans with (2 ^ (Zpos (digits2_pos m) - 1 + e))%Q.
  - apply Qpower_le_compat_l; [lia|discriminate].
  - rewrite pow2_add. apply Qmult_le_compat_r; [|apply Qlt_le_weak, pow2_pos].
    rewrite <- pow2_inject by lia. rewrite <- Zle_Qle. exact B.
Qed.

Lemma moderate_value (K : Z) (x : spec_float) :
  moderate K x = true ->
  is_zero x = true \/
  (2 ^ (- K - 1) <= Qabs (F2Q x) /\ Qabs (F2Q x) < 2 ^ K)%Q.
Proof.
  unfold moderate. destruct x as [s|s| |s m e]; try discriminate; [now left|].
  cbn [is_zero orb]. intros H. apply andb_prop in H as [H1 H2]. right. split.
  - exact (above_value (- K) s m e H1).
  - exact (below_value K s m e H2).
Qed.


Section ValueError.
Variables prec emax : Z.
Hypothesis prec_pos : 0 < prec.





End ValueError.

(* ================================================================== *)
(** * The coupling of the two anti-windup taps *)
(* ================================================================== *)








